(** * UBC Solar race-strategy simulation: a shallow embedding

    The development follows the Python sources

      - [simulation/environment/GIS.py]
      - [simulation/environment/WeatherForecasts.py]
      - [simulation/motor/basic_motor.py]
      - [simulation/main/MainSimulation.py]

    Conventions.

      - A NumPy [float64] is an exact rational ([Q]); rounding, infinities
        and NaN are outside the model.  Numeric equality ([==] in Python)
        is [Qeq].
      - A one-dimensional array is a [list]; a Python scalar that meets an
        array in an arithmetic expression is a one-element list, which
        NumPy broadcasts the same way.
      - A Python exception is a [Raise] in the error monad [res]. *)

From Stdlib Require String.
From Stdlib Require Import ZArith QArith Qabs Qminmax Qround Lqa List Bool Lia.
From Stdlib Require Import Sorting.Sorted.
Import ListNotations.

Set Implicit Arguments.

(** ** Exceptions *)

Inductive exn : Set :=
| IndexError   (* subscript out of range *)
| ValueError.  (* shape mismatch, empty argmin, zero-sized nditer *)

Inductive res (A : Type) : Type :=
| Ok (a : A)
| Raise (e : exn).

Arguments Ok {A} a.
Arguments Raise {A} e.

Definition bind {A B : Type} (m : res A) (k : A -> res B) : res B :=
  match m with
  | Ok a => k a
  | Raise e => Raise e
  end.

Declare Scope res_scope.
Delimit Scope res_scope with res.
Notation "x <- m ;; k" := (bind m (fun x => k))
  (at level 61, m at next level, right associativity) : res_scope.
Notation "' p <- m ;; k" := (bind m (fun x => let p := x in k))
  (at level 61, p pattern, m at next level, right associativity) : res_scope.

Open Scope Q_scope.
Open Scope res_scope.

(** ** The fragment of NumPy the sources use *)

Module Np.

(** [bool(x)] of a number, as [np.logical_and] coerces its operands. *)
Definition truthy (x : Q) : bool := negb (Qeq_bool x 0).

(** A boolean array entering arithmetic: [True] is 1, [False] is 0. *)
Definition of_bool (b : bool) : Q := if b then 1 else 0.

(** [a > b] on numbers. *)
Definition gtb (a b : Q) : bool := negb (Qle_bool a b).

(** [a < b] on numbers. *)
Definition ltb (a b : Q) : bool := negb (Qle_bool b a).

(** [np.cumsum]: running sums.  The accumulator is kept in lowest terms
    ([Qred] does not change its value). *)
Fixpoint cumsum_from (acc : Q) (l : list Q) : list Q :=
  match l with
  | [] => []
  | x :: t => let acc' := Qred (acc + x) in acc' :: cumsum_from acc' t
  end.

Definition cumsum (l : list Q) : list Q := cumsum_from 0 l.

(** [np.sum]. *)
Definition sum (l : list Q) : Q := fold_left (fun acc x => Qred (acc + x)) l 0.

(** [a[::2] *= -1]: every even position changes sign. *)
Fixpoint negate_even (l : list Q) : list Q :=
  match l with
  | [] => []
  | x :: t => (x * -1) :: match t with
                          | [] => []
                          | y :: t' => y :: negate_even t'
                          end
  end.

(** [np.diff]: [out[i] = a[i+1] - a[i]]. *)
Fixpoint diff (l : list Q) : list Q :=
  match l with
  | [] => []
  | x :: t => match t with
              | [] => []
              | y :: _ => (y - x) :: diff t
              end
  end.

(** [a[i]] for a Python integer [i]: negative subscripts count from the
    end, anything outside [-len, len) raises [IndexError]. *)
Definition index {A : Type} (l : list A) (i : Z) : res A :=
  let n := Z.of_nat (length l) in
  let j := if (i <? 0)%Z then (n + i)%Z else i in
  if ((0 <=? j) && (j <? n))%Z
  then match nth_error l (Z.to_nat j) with
       | Some a => Ok a
       | None => Raise IndexError
       end
  else Raise IndexError.

(** [a[idx]] for an integer array [idx] (fancy indexing). *)
Fixpoint take {A : Type} (l : list A) (idx : list Z) : res (list A) :=
  match idx with
  | [] => Ok []
  | i :: t => a <- index l i ;; r <- take l t ;; Ok (a :: r)
  end.

Fixpoint zip_with {A B C : Type} (f : A -> B -> C) (l1 : list A) (l2 : list B)
  : list C :=
  match l1, l2 with
  | a :: t1, b :: t2 => f a b :: zip_with f t1 t2
  | _, _ => []
  end.

(** An element-wise binary operation on two one-dimensional arrays:
    equal shapes pair up, a one-element operand is stretched, any other
    combination raises ([ValueError] in arithmetic, [IndexError] when
    the arrays are subscripts). *)
Definition broadcast2_exn {A B C : Type} (e : exn) (f : A -> B -> C)
  (l1 : list A) (l2 : list B) : res (list C) :=
  if (length l1 =? length l2)%nat then Ok (zip_with f l1 l2)
  else match l1, l2 with
       | [a], _ => Ok (map (f a) l2)
       | _, [b] => Ok (map (fun a => f a b) l1)
       | _, _ => Raise e
       end.

Definition broadcast2 {A B C : Type} := @broadcast2_exn A B C ValueError.

(** A Python loop that appends one computed value per element. *)
Fixpoint mapM {A B : Type} (f : A -> res B) (l : list A) : res (list B) :=
  match l with
  | [] => Ok []
  | a :: t => b <- f a ;; r <- mapM f t ;; Ok (b :: r)
  end.

(** Truth value of an array element, as [np.logical_and] takes it. *)
Class Truthy (A : Type) : Type := truth : A -> bool.
#[global] Instance Truthy_Q : Truthy Q := truthy.
#[global] Instance Truthy_bool : Truthy bool := fun b => b.

Definition logical_and {A B : Type} `{Truthy A} `{Truthy B}
  (a : list A) (b : list B) : res (list bool) :=
  broadcast2 (fun x y => truth x && truth y) a b.

(** A boolean array times a numeric one. *)
Definition mask_mul (m : list bool) (a : list Q) : res (list Q) :=
  broadcast2 (fun b x => of_bool b * x) m a.

(** [a.astype(int)] on one element: truncation toward zero. *)
Definition astype_int (x : Q) : Z := Z.quot (Qnum x) (Zpos (Qden x)).

(** [a.clip(lo, hi)], that is [minimum(maximum(a, lo), hi)]. *)
Definition clip1 (lo hi x : Q) : Q := Qmin (Qmax x lo) hi.
Definition clip (l : list Q) (lo hi : Q) : list Q := map (clip1 lo hi) l.

(** [np.where(a == v)[0]]: the positions where [a] equals [v]. *)
Fixpoint where_eq_from (i : nat) (l : list Q) (v : Q) : list nat :=
  match l with
  | [] => []
  | x :: t => if Qeq_bool x v then i :: where_eq_from (S i) t v
              else where_eq_from (S i) t v
  end.

Definition where_eq (l : list Q) (v : Q) : list nat := where_eq_from 0 l v.

(** [np.argmin]: the first position of the least element; an empty
    array raises [ValueError]. *)
Fixpoint argmin_from (best : Q) (besti i : nat) (l : list Q) : nat :=
  match l with
  | [] => besti
  | x :: t => if ltb x best then argmin_from x i (S i) t
              else argmin_from best besti (S i) t
  end.

Definition argmin (l : list Q) : res nat :=
  match l with
  | [] => Raise ValueError
  | x :: t => Ok (argmin_from x 0%nat 1%nat t)
  end.

(** [np.roll(a, shift, 0)]: rotate along the first axis. *)
Definition roll {A : Type} (l : list A) (shift : Z) : list A :=
  match l with
  | [] => []
  | _ => let n := Z.of_nat (length l) in
         let k := Z.to_nat ((- shift) mod n) in
         skipn k l ++ firstn k l
  end.

(** [for x in np.nditer(a)]: a zero-sized operand is refused unless the
    [zerosize_ok] flag is passed, which the sources never do. *)
Definition nditer {A : Type} (l : list A) : res (list A) :=
  match l with
  | [] => Raise ValueError
  | _ => Ok l
  end.

End Np.

(** ** Route model: [GIS] *)

Definition coord : Type := (Q * Q)%type.

Record GIS : Type := mkGIS {
  path : list coord;              (* self.path: N (lat, lng) pairs *)
  path_elevations : list Q;       (* self.path_elevations *)
  path_time_zones : list Q;       (* self.path_time_zones *)
  path_distances : list Q;        (* self.path_distances: N-1 segment lengths *)
  path_gradients : list Q         (* self.path_gradients *)
}.

(** The midpoint boundaries both index mappings walk along:
    [np.abs(np.diff(c) / 2)] for the sign-alternated cumulative sums [c]. *)
Definition average_distances (distances : list Q) : list Q :=
  map (fun d => Qabs (d / 2)) (Np.diff (Np.negate_even (Np.cumsum distances))).

Definition last_index {A : Type} (l : list A) : Z := (Z.of_nat (length l) - 1)%Z.

Module GISModel.

(** The body of the [for] loop of [GIS.calculate_closest_gis_indices]:
    the new value of [current_coordinate_index]. *)
Definition step (average : list Q) (current : Z) (distance : Q) : res Z :=
  boundary <- Np.index average current ;;
  Ok (if Np.gtb distance boundary
      then if (current >? last_index average)%Z
           then last_index average
           else let current' := (current + 1)%Z in
                if (current' >? last_index average)%Z
                then last_index average
                else current'
      else current).

Fixpoint loop (average : list Q) (current : Z) (distances : list Q)
  : res (list Z) :=
  match distances with
  | [] => Ok []
  | d :: t =>
      current' <- step average current d ;;
      rest <- loop average current' t ;;
      Ok (current' :: rest)
  end.

Definition calculate_closest_gis_indices (self : GIS) (cumulative_distances : list Q)
  : res (list Z) :=
  let average := average_distances (path_distances self) in
  queries <- Np.nditer cumulative_distances ;;
  loop average 0%Z queries.

(** [self.path_gradients[gis_indices]] and its siblings. *)
Definition get_gradients (self : GIS) (gis_indices : list Z) : res (list Q) :=
  Np.take (path_gradients self) gis_indices.

Definition get_time_zones (self : GIS) (gis_indices : list Z) : res (list Q) :=
  Np.take (path_time_zones self) gis_indices.

End GISModel.

(** ** Weather model: [WeatherForecasts] *)

(** One row of [weather_forecast[coord][time]]: the nine fields, in the
    order of the last axis. *)
Record forecast : Type := mkForecast {
  latitude : Q;          (* [0] *)
  longitude : Q;         (* [1] *)
  dt : Q;                (* [2] UNIX time *)
  timezone_offset : Q;   (* [3] *)
  dt_local : Q;          (* [4] dt + timezone_offset *)
  wind_speed : Q;        (* [5] *)
  wind_direction : Q;    (* [6] *)
  cloud_cover : Q;       (* [7] *)
  description_id : Q     (* [8] *)
}.

Record WeatherForecasts : Type := mkWeather {
  weather_forecast : list (list forecast)   (* [N][T] rows *)
}.

(** Module-level functions of [simulation.common.helpers].  The module
    lies outside this development; its functions are an interface. *)
Class Helpers : Type := {
  calculate_path_distances : list coord -> list Q;
  adjust_timestamps_to_local_times : list Q -> Q -> list Q -> list Q;
  hour_from_unix_timestamp : Q -> Z;
  get_array_directional_wind_speed : list Q -> list Q -> list Q -> list Q;
  reshape_and_repeat : list Q -> Z -> list Q;
  add_acceleration : list Q -> Q -> list Q
}.

Module WeatherModel.

(** [self.weather_forecast[:, 0, 0:2]]: latitude and longitude of the
    first forecast entry of every coordinate. *)
Definition weather_coords (self : WeatherForecasts) : res (list coord) :=
  Np.mapM (fun entries => e <- Np.index entries 0%Z ;;
                          Ok (latitude e, longitude e))
          (weather_forecast self).

(** The body of the [for] loop of [calculate_closest_weather_indices]. *)
Definition step (average : list Q) (current : Z) (distance : Q) : res Z :=
  let current := if (current >? last_index average)%Z
                 then last_index average else current in
  boundary <- Np.index average current ;;
  Ok (if Np.gtb distance boundary
      then let current' := (current + 1)%Z in
           if (current' >? last_index average)%Z
           then last_index average
           else current'
      else current).

Fixpoint loop (average : list Q) (current : Z) (distances : list Q)
  : res (list Z) :=
  match distances with
  | [] => Ok []
  | d :: t =>
      current' <- step average current d ;;
      rest <- loop average current' t ;;
      Ok (current' :: rest)
  end.

Definition weather_average_distances `{Helpers} (self : WeatherForecasts)
  : res (list Q) :=
  coords <- weather_coords self ;;
  Ok (average_distances (calculate_path_distances coords)).

Definition calculate_closest_weather_indices `{Helpers}
  (self : WeatherForecasts) (cumulative_distances : list Q) : res (list Z) :=
  average <- weather_average_distances self ;;
  queries <- Np.nditer cumulative_distances ;;
  loop average 0%Z queries.

(** [np.argmin(np.abs(unix_timestamp - dt_local_array))]. *)
Definition closest_time_stamp_index (dt_local_array : list Q) (unix_timestamp : Q)
  : res nat :=
  Np.argmin (map (fun t => Qabs (unix_timestamp - t)) dt_local_array).

Definition get_weather_forecast_in_time (self : WeatherForecasts)
  (indices : list Z) (unix_timestamps : list Q) : res (list forecast) :=
  full_weather_forecast_at_coords <- Np.take (weather_forecast self) indices ;;
  first_coord <- Np.index full_weather_forecast_at_coords 0%Z ;;
  let dt_local_array := map dt_local first_coord in
  closest_time_stamp_indices <-
    Np.mapM (closest_time_stamp_index dt_local_array) unix_timestamps ;;
  let temp_0 := seq 0 (length full_weather_forecast_at_coords) in
  pairs <- Np.broadcast2_exn IndexError pair temp_0 closest_time_stamp_indices ;;
  Np.mapM (fun '(i, j) =>
             entries <- Np.index full_weather_forecast_at_coords (Z.of_nat i) ;;
             Np.index entries (Z.of_nat j))
          pairs.

End WeatherModel.

(** ** Motor model: [BasicMotor] *)

Module Motor.

Record BasicMotor : Type := mkMotor {
  dc_v : Q;
  dc_i : Q;
  input_power : Q;
  consumed_energy : Q;     (* written by [update] *)
  vehicle_mass : Q;
  acceleration_g : Q;
  road_friction : Q;
  tire_radius : Q;
  air_density : Q;
  vehicle_frontal_area : Q;
  drag_coefficient : Q;
  friction_force : Q;
  e_mc : Q;                (* motor controller efficiency *)
  e_m : Q                  (* motor efficiency *)
}.

(** [BasicMotor.__init__]. *)
Definition init : BasicMotor :=
  {| dc_v := 0;
     dc_i := 0;
     input_power := 0;
     consumed_energy := 0;
     vehicle_mass := 250;
     acceleration_g := 981 # 100;
     road_friction := 55 # 10000;
     tire_radius := 2032 # 10000;
     air_density := 1225 # 1000;
     vehicle_frontal_area := 952 # 1000;
     drag_coefficient := 223 # 1000;
     friction_force := 250 * (981 # 100) * (55 # 10000);
     e_mc := 98 # 100;
     e_m := 9 # 10 |}.

(** Aerodynamic drag at air speed [s]:
    [0.5 * air_density * s ** 2 * drag_coefficient * vehicle_frontal_area]. *)
Definition drag_force (self : BasicMotor) (s : Q) : Q :=
  (1 # 2) * air_density self * (s ^ 2) * drag_coefficient self
  * vehicle_frontal_area self.

(** Grade force: [vehicle_mass * acceleration_g * gradient]. *)
Definition g_force (self : BasicMotor) (gradient : Q) : Q :=
  vehicle_mass self * acceleration_g self * gradient.

(** [calculate_power_in]: stores the electrical input power. *)
Definition calculate_power_in (self : BasicMotor)
  (required_speed_kmh gradient wind_speed : Q) : BasicMotor :=
  let required_speed_ms := required_speed_kmh / (36 # 10) in
  let required_angular_speed_rads := required_speed_ms / tire_radius self in
  let drag := drag_force self (required_speed_ms + wind_speed) in
  let g := g_force self gradient in
  let motor_output_power :=
    required_angular_speed_rads * (friction_force self + drag + g) in
  let motor_input_power := motor_output_power / e_m self in
  {| dc_v := dc_v self; dc_i := dc_i self;
     input_power := motor_input_power / e_mc self;
     consumed_energy := consumed_energy self;
     vehicle_mass := vehicle_mass self; acceleration_g := acceleration_g self;
     road_friction := road_friction self; tire_radius := tire_radius self;
     air_density := air_density self;
     vehicle_frontal_area := vehicle_frontal_area self;
     drag_coefficient := drag_coefficient self;
     friction_force := friction_force self;
     e_mc := e_mc self; e_m := e_m self |}.

(** [update]: energy spent over one tick at the stored input power. *)
Definition update (self : BasicMotor) (tick : Q) : BasicMotor :=
  {| dc_v := dc_v self; dc_i := dc_i self;
     input_power := input_power self;
     consumed_energy := input_power self * tick;
     vehicle_mass := vehicle_mass self; acceleration_g := acceleration_g self;
     road_friction := road_friction self; tire_radius := tire_radius self;
     air_density := air_density self;
     vehicle_frontal_area := vehicle_frontal_area self;
     drag_coefficient := drag_coefficient self;
     friction_force := friction_force self;
     e_mc := e_mc self; e_m := e_m self |}.

(** [motor_output_energies] of [calculate_energy_in], as an array. *)
Definition motor_output_energies (self : BasicMotor)
  (required_speed_kmh gradients wind_speeds : list Q) (tick : Q) : res (list Q) :=
  let required_speed_ms := map (fun v => v / (36 # 10)) required_speed_kmh in
  let required_angular_speed_rads :=
    map (fun v => v / tire_radius self) required_speed_ms in
  required_angular_speed_rads_array <-
    Np.broadcast2 Qmult (repeat 1 (length gradients)) required_angular_speed_rads ;;
  air_speeds <- Np.broadcast2 Qplus required_speed_ms wind_speeds ;;
  let drag_forces := map (drag_force self) air_speeds in
  let g_forces := map (g_force self) gradients in
  forces <- Np.broadcast2 Qplus
              (map (fun d => friction_force self + d) drag_forces) g_forces ;;
  energies <- Np.broadcast2 Qmult required_angular_speed_rads_array forces ;;
  Ok (map (fun e => e * tick) energies).

(** [calculate_energy_in]. *)
Definition calculate_energy_in (self : BasicMotor)
  (required_speed_kmh gradients wind_speeds : list Q) (tick : Q) : res (list Q) :=
  out <- motor_output_energies self required_speed_kmh gradients wind_speeds tick ;;
  let motor_input_energies := map (fun e => e / e_m self) out in
  Ok motor_input_energies.

(** The shaft-side formula in closed form, for one speed, gradient and
    wind speed: angular speed times the sum of forces times the tick. *)
Definition shaft_energy (self : BasicMotor) (speed_kmh gradient wind_speed tick : Q)
  : Q :=
  let speed_ms := speed_kmh / (36 # 10) in
  (speed_ms / tire_radius self)
  * (friction_force self + drag_force self (speed_ms + wind_speed)
     + g_force self gradient)
  * tick.

End Motor.

(** ** Components whose classes are not among the sources *)

Module Battery.

Record BasicBattery : Type := mkBattery {
  initial_charge : Q;          (* state of charge at the start, a fraction *)
  max_energy_capacity : Q      (* total capacity, in the unit of the deltas *)
}.

(** Modelled from the spec: [BasicBattery.update_array] is missing from
    the sources.  Section 4.6: a pure function, one state-of-charge value
    per cumulative energy delta, the cumulative energy taken relative to
    the initial charge and the total capacity and clamped to [0, 1]. *)
Definition update_array (self : BasicBattery) (cumulative_delta_energy : list Q)
  : list Q :=
  map (fun e => Np.clip1 0 1 (initial_charge self + e / max_energy_capacity self))
      cumulative_delta_energy.

End Battery.

Module LVS.

Record BasicLVS : Type := mkLVS {
  consumed_energy : Q     (* [lvs_power_loss * tick], given at construction *)
}.

(** Modelled from the spec: [BasicLVS] is missing from the sources.
    Section 4.5: a constant [power_loss * tick] per step, independent of
    speed; [update] keeps the per-step energy it was constructed with. *)
Definition update (self : BasicLVS) (tick : Q) : BasicLVS :=
  {| consumed_energy := consumed_energy self |}.

Definition get_consumed_energy (self : BasicLVS) : Q := consumed_energy self.

End LVS.

(** [BasicArray] and [SolarCalculations] are objects of which the engine
    calls one method each; an object is the record of that method. *)
Record BasicArray : Type := mkArray {
  calculate_produced_energy : list Q -> Q -> list Q
}.

Record SolarCalculations : Type := mkSolar {
  calculate_array_GHI :
    list coord -> list Q -> list Q -> list Q -> list Q -> list Q
}.

(** ** Simulation engine: [Simulation] *)

Record SimulationResult : Type := mkResult {
  arr_speed_kmh : list Q;            (* arrays[0] *)
  arr_distances : list Q;            (* arrays[1] *)
  arr_state_of_charge : list Q;      (* arrays[2] *)
  arr_delta_energy : list Q;         (* arrays[3] *)
  arr_solar_irradiances : list Q;    (* arrays[4] *)
  arr_wind_speeds : list Q;          (* arrays[5] *)
  arr_elevations : list Q;           (* arrays[6] *)
  arr_cloud_covers : list Q;         (* arrays[7] *)
  distance_travelled : Q;
  time_taken : Z;                    (* whole seconds, before formatting *)
  final_soc : Q
}.

Record Simulation : Type := mkSimulation {
  initial_battery_charge : Q;
  lvs_power_loss : Q;
  tick : Q;
  simulation_duration : Z;
  start_hour : Z;
  route_length : Q;                      (* written by every run *)
  basic_array : BasicArray;
  basic_battery : Battery.BasicBattery;
  basic_lvs : LVS.BasicLVS;
  basic_motor : Motor.BasicMotor;
  gis : GIS;
  route_coords : list coord;
  vehicle_bearings : list Q;
  weather : WeatherForecasts;
  time_of_initialization : Q;
  solar_calculations : SolarCalculations;
  local_times : option (list Q);         (* written by every run *)
  time_zones : option (list Q);          (* written by every run *)
  timestamps : list Q
}.

(** The result of a run together with the engine as the run leaves it
    and three of the run's local arrays, kept for the statements. *)
Record Trace : Type := mkTrace {
  tr_results : SimulationResult;
  tr_engine : Simulation;
  tr_curfew_speed : list Q;        (* speed_kmh after the timing constraints *)
  tr_time_in_motion : list Q;      (* time_in_motion as summed into time_taken *)
  tr_max_route_distance : Q        (* max_route_distance, in metres *)
}.

Module Engine.

(** [np.arange(start_hour, start_hour + simulation_duration / 3600)]. *)
Definition simulation_hours (self : Simulation) : list Q :=
  let stop := inject_Z (start_hour self)
              + inject_Z (simulation_duration self) / 3600 in
  let n := Z.to_nat (Qceiling (stop - inject_Z (start_hour self))) in
  map (fun k => inject_Z (start_hour self) + inject_Z (Z.of_nat k)) (seq 0 n).

(** [np.append(np.repeat(simulation_hours, 3600), stop).astype(int)]. *)
Definition simulation_hours_by_second (self : Simulation) : list Z :=
  let stop := inject_Z (start_hour self)
              + inject_Z (simulation_duration self) / 3600 in
  map Np.astype_int
      (flat_map (fun h => repeat h 3600) (simulation_hours self) ++ [stop]).

(** The charging window: [(hour % 24) <= 8] or [(hour % 24) >= 18]. *)
Definition charging_hour (hour : Z) : bool :=
  ((hour mod 24 <=? 8) || (hour mod 24 >=? 18))%Z.

(** [not_charge]: the per-tick "may drive" mask. *)
Definition not_charge (self : Simulation) : list bool :=
  map (fun h => negb (charging_hour h)) (simulation_hours_by_second self).

(** [state_of_charge[np.abs(state_of_charge) < 1e-03] = 0]. *)
Definition snap (soc : Q) : Q :=
  if Np.ltb (Qabs soc) (1 # 1000) then 0 else soc.

(** [np.full_like(timestamps, fill_value=tick)] with element 0 zeroed. *)
Definition motion_ticks (self : Simulation) : res (list Q) :=
  match timestamps self with
  | [] => Raise IndexError
  | _ :: t => Ok (0 :: map (fun _ => tick self) t)
  end.

(** The index of arrival: [np.where(distances == goal)[0][0]], or the
    length of [time_in_motion] when the goal is never met. *)
Definition max_dist_index (distances time_in_motion : list Q) (goal : Q) : nat :=
  match Np.where_eq distances goal with
  | k :: _ => k
  | [] => length time_in_motion
  end.

(** [time_in_motion[0:k]] followed by zeros in place of the rest. *)
Definition freeze_after (k : nat) (time_in_motion : list Q) : list Q :=
  firstn k time_in_motion ++ map (fun _ => 0) (skipn k time_in_motion).

(** Writing the three instance fields a run assigns. *)
Definition set_lvs (self : Simulation) (l : LVS.BasicLVS) : Simulation :=
  {| initial_battery_charge := initial_battery_charge self;
     lvs_power_loss := lvs_power_loss self;
     tick := tick self;
     simulation_duration := simulation_duration self;
     start_hour := start_hour self;
     route_length := route_length self;
     basic_array := basic_array self;
     basic_battery := basic_battery self;
     basic_lvs := l;
     basic_motor := basic_motor self;
     gis := gis self;
     route_coords := route_coords self;
     vehicle_bearings := vehicle_bearings self;
     weather := weather self;
     time_of_initialization := time_of_initialization self;
     solar_calculations := solar_calculations self;
     local_times := local_times self;
     time_zones := time_zones self;
     timestamps := timestamps self |}.

Definition set_route_length (self : Simulation) (r : Q) : Simulation :=
  {| initial_battery_charge := initial_battery_charge self;
     lvs_power_loss := lvs_power_loss self;
     tick := tick self;
     simulation_duration := simulation_duration self;
     start_hour := start_hour self;
     route_length := r;
     basic_array := basic_array self;
     basic_battery := basic_battery self;
     basic_lvs := basic_lvs self;
     basic_motor := basic_motor self;
     gis := gis self;
     route_coords := route_coords self;
     vehicle_bearings := vehicle_bearings self;
     weather := weather self;
     time_of_initialization := time_of_initialization self;
     solar_calculations := solar_calculations self;
     local_times := local_times self;
     time_zones := time_zones self;
     timestamps := timestamps self |}.

Definition set_times (self : Simulation) (tz lt : list Q) : Simulation :=
  {| initial_battery_charge := initial_battery_charge self;
     lvs_power_loss := lvs_power_loss self;
     tick := tick self;
     simulation_duration := simulation_duration self;
     start_hour := start_hour self;
     route_length := route_length self;
     basic_array := basic_array self;
     basic_battery := basic_battery self;
     basic_lvs := basic_lvs self;
     basic_motor := basic_motor self;
     gis := gis self;
     route_coords := route_coords self;
     vehicle_bearings := vehicle_bearings self;
     weather := weather self;
     time_of_initialization := time_of_initialization self;
     solar_calculations := solar_calculations self;
     local_times := Some lt;
     time_zones := Some tz;
     timestamps := timestamps self |}.

(** The second speed gate.  A verbose run gates in two steps (and plots,
    which is outside the model); a silent run gates in one. *)
Definition gate_speed (verbose : bool) (not_charge : list bool)
  (state_of_charge speed_kmh : list Q) : res (list Q) :=
  if verbose
  then m1 <- Np.logical_and speed_kmh state_of_charge ;;
       speed_kmh <- Np.mask_mul m1 speed_kmh ;;
       m2 <- Np.logical_and speed_kmh not_charge ;;
       Np.mask_mul m2 speed_kmh
  else m <- Np.logical_and not_charge state_of_charge ;;
       Np.mask_mul m speed_kmh.

(** The body of [Simulation.__run_simulation_calculations]. *)
Definition run_trace `{Helpers} (self : Simulation)
  (speed_kmh : list Q) (verbose : bool) : res Trace :=
  let tick_array := 0 :: Np.diff (timestamps self) in
  (* timing constraints *)
  let not_charge := not_charge self in
  m <- Np.logical_and speed_kmh not_charge ;;
  speed_kmh <- Np.mask_mul m speed_kmh ;;
  let curfew_speed := speed_kmh in
  (* expected distance estimate *)
  products <- Np.broadcast2 Qmult tick_array speed_kmh ;;
  let distances := map (fun d => d / (36 # 10)) products in
  let cumulative_distances := Np.cumsum distances in
  (* weather and location *)
  closest_gis_indices <-
    GISModel.calculate_closest_gis_indices (gis self) cumulative_distances ;;
  closest_weather_indices <-
    WeatherModel.calculate_closest_weather_indices (weather self)
      cumulative_distances ;;
  let cumulative_distances := Np.cumsum (path_distances (gis self)) in
  max_route_distance <- Np.index cumulative_distances (-1)%Z ;;
  let self := set_route_length self (max_route_distance / 1000) in
  gis_route_elevations_at_each_tick <-
    Np.take (path_elevations (gis self)) closest_gis_indices ;;
  gis_vehicle_bearings <- Np.take (vehicle_bearings self) closest_gis_indices ;;
  gradients <- GISModel.get_gradients (gis self) closest_gis_indices ;;
  (* timing *)
  time_zones <- GISModel.get_time_zones (gis self) closest_gis_indices ;;
  let local_times :=
    adjust_timestamps_to_local_times (timestamps self)
      (time_of_initialization self) time_zones in
  (* local_times_datetime and time_of_day_hour, "only for reference" in
     the source, feed nothing and are left out *)
  weather_forecasts <-
    WeatherModel.get_weather_forecast_in_time (weather self)
      closest_weather_indices local_times ;;
  first_forecast <- Np.index weather_forecasts 0%Z ;;
  let roll_by_tick :=
    (3600 * (24 + start_hour self - hour_from_unix_timestamp (dt first_forecast)))%Z in
  let weather_forecasts := Np.roll weather_forecasts (- roll_by_tick) in
  let absolute_wind_speeds := map wind_speed weather_forecasts in
  let wind_directions := map wind_direction weather_forecasts in
  let cloud_covers := map cloud_cover weather_forecasts in
  let cloud_covers := map (fun _ => 0) cloud_covers in
  let wind_speeds :=
    get_array_directional_wind_speed gis_vehicle_bearings absolute_wind_speeds
      wind_directions in
  coords_at_each_tick <- Np.take (route_coords self) closest_gis_indices ;;
  let solar_irradiances :=
    calculate_array_GHI (solar_calculations self) coords_at_each_tick time_zones
      local_times gis_route_elevations_at_each_tick cloud_covers in
  (* energy *)
  let self := set_lvs self (LVS.update (basic_lvs self) (tick self)) in
  let lvs_consumed_energy := LVS.get_consumed_energy (basic_lvs self) in
  motor_consumed_energy <-
    Motor.calculate_energy_in (basic_motor self) speed_kmh gradients wind_speeds
      (tick self) ;;
  let array_produced_energy :=
    calculate_produced_energy (basic_array self) solar_irradiances (tick self) in
  m <- Np.logical_and motor_consumed_energy not_charge ;;
  motor_consumed_energy <- Np.mask_mul m motor_consumed_energy ;;
  let consumed_energy := map (fun e => e + lvs_consumed_energy) motor_consumed_energy in
  let produced_energy := array_produced_energy in
  delta_energy <- Np.broadcast2 Qminus produced_energy consumed_energy ;;
  (* battery *)
  tick_array <- motion_ticks self ;;
  let cumulative_delta_energy := Np.cumsum delta_energy in
  let state_of_charge :=
    Battery.update_array (basic_battery self) cumulative_delta_energy in
  let state_of_charge := map snap state_of_charge in
  speed_kmh <- gate_speed verbose not_charge state_of_charge speed_kmh ;;
  m <- Np.logical_and tick_array speed_kmh ;;
  let time_in_motion := map (fun b => Np.of_bool b * tick self) m in
  last_soc <- Np.index state_of_charge (-1)%Z ;;
  let final_soc := last_soc * 100 + 0 in
  (* distance, arrival *)
  distance <- Np.broadcast2 (fun v t => v * (t / 3600)) speed_kmh time_in_motion ;;
  let distances := Np.cumsum distance in
  let distances := Np.clip distances 0 (max_route_distance / 1000) in
  let max_dist_index :=
    max_dist_index distances time_in_motion (max_route_distance / 1000) in
  let time_in_motion := freeze_after max_dist_index time_in_motion in
  let time_taken := Np.astype_int (Np.sum time_in_motion) in
  distance_travelled <- Np.index distances (-1)%Z ;;
  let results :=
    {| arr_speed_kmh := speed_kmh;
       arr_distances := distances;
       arr_state_of_charge := state_of_charge;
       arr_delta_energy := delta_energy;
       arr_solar_irradiances := solar_irradiances;
       arr_wind_speeds := wind_speeds;
       arr_elevations := gis_route_elevations_at_each_tick;
       arr_cloud_covers := cloud_covers;
       distance_travelled := distance_travelled;
       time_taken := time_taken;
       final_soc := final_soc |} in
  let self := set_times self time_zones local_times in
  Ok {| tr_results := results;
        tr_engine := self;
        tr_curfew_speed := curfew_speed;
        tr_time_in_motion := time_in_motion;
        tr_max_route_distance := max_route_distance |}.

(** [Simulation.__run_simulation_calculations]: the returned
    [SimulationResult], and the engine after the call. *)
Definition run_simulation_calculations `{Helpers} (self : Simulation)
  (speed_kmh : list Q) (verbose : bool) : res (SimulationResult * Simulation) :=
  t <- run_trace self speed_kmh verbose ;;
  Ok (tr_results t, tr_engine t).

(** [Simulation.run_model], called with a speed array: the distance
    travelled, and the engine after the call.  Printing and plotting are
    left out. *)
Definition run_model `{Helpers} (self : Simulation) (speed : list Q) (verbose : bool)
  : res (Q * Simulation) :=
  let speed_kmh := reshape_and_repeat speed (simulation_duration self) in
  let speed_kmh := 0 :: speed_kmh in
  let speed_kmh := add_acceleration speed_kmh 500 in
  ran <- run_simulation_calculations self speed_kmh verbose ;;
  Ok (distance_travelled (fst ran), snd ran).

End Engine.

(** ** Irradiance under cloud *)

Module Cloud.

(** Modelled from the spec: [cloud_cover_to_ghi_linear] is missing from
    the sources (only its test is there).  Section 4.3 gives the law
    [ghi * (1 - 0.65 * cloud_cover / 100)], element-wise. *)
Definition attenuate (cloud_cover ghi : Q) : Q :=
  ghi * (1 - (65 # 100) * cloud_cover / 100).

Definition cloud_cover_to_ghi_linear (cloud_cover ghi : list Q) : res (list Q) :=
  Np.broadcast2 attenuate cloud_cover ghi.

End Cloud.

(** ** Vocabulary of the statements *)

(** Element-wise numeric equality of two arrays. *)
Definition array_eq (a b : list Q) : Prop := Forall2 Qeq a b.

(** Starting from [start], every element is its predecessor or the
    predecessor plus one. *)
Fixpoint creeps_from (start : Z) (l : list Z) : Prop :=
  match l with
  | [] => True
  | x :: t => (start <= x <= start + 1)%Z /\ creeps_from x t
  end.

(** The row of [entries] nearest in local time to [t]: no other entry of
    the same coordinate is strictly nearer. *)
Definition nearest_in_time (entries : list forecast) (t : Q) (row : forecast) : Prop :=
  In row entries /\
  forall other, In other entries ->
    Qabs (t - dt_local row) <= Qabs (t - dt_local other).

(** The element of [l] that an element-wise operation reads for output
    position [i]: the one at [i], or the only one when [l] is stretched. *)
Definition feeds {A : Type} (l : list A) (i : nat) (a : A) : Prop :=
  nth_error l i = Some a \/ l = [a].

(** [k] is the first tick at which [distances] equals [goal]. *)
Definition first_arrival (distances : list Q) (goal : Q) (k : nat) : Prop :=
  (exists d, nth_error distances k = Some d /\ d == goal) /\
  forall j d, (j < k)%nat -> nth_error distances j = Some d -> ~ d == goal.

(** The engines [a] and [b] hold the same configuration and the same
    models; they may differ in the fields a run writes. *)
Definition same_models (a b : Simulation) : Prop :=
  initial_battery_charge a = initial_battery_charge b /\
  lvs_power_loss a = lvs_power_loss b /\
  tick a = tick b /\
  simulation_duration a = simulation_duration b /\
  start_hour a = start_hour b /\
  basic_array a = basic_array b /\
  basic_battery a = basic_battery b /\
  basic_lvs a = basic_lvs b /\
  basic_motor a = basic_motor b /\
  gis a = gis b /\
  route_coords a = route_coords b /\
  vehicle_bearings a = vehicle_bearings b /\
  weather a = weather b /\
  time_of_initialization a = time_of_initialization b /\
  solar_calculations a = solar_calculations b /\
  timestamps a = timestamps b.

(** ** A small race: four route points, five weather points, one hour *)

Module Scenario.

(** Stand-ins for [simulation.common.helpers] on a flat grid. *)
Fixpoint grid_distances (coords : list coord) : list Q :=
  match coords with
  | [] => []
  | a :: t => match t with
              | [] => []
              | b :: _ => (10 * (Qabs (fst b - fst a) + Qabs (snd b - snd a)))
                          :: grid_distances t
              end
  end.

#[global] Instance helpers : Helpers :=
  {| calculate_path_distances := grid_distances;
     adjust_timestamps_to_local_times :=
       fun ts t0 tz => Np.zip_with (fun t z => t + t0 + z) ts tz;
     hour_from_unix_timestamp := fun t => ((Qfloor t / 3600) mod 24)%Z;
     get_array_directional_wind_speed := fun bearings speeds directions => speeds;
     reshape_and_repeat :=
       fun speeds duration =>
         flat_map (fun v => repeat v (Z.to_nat duration / length speeds)) speeds;
     add_acceleration := fun speeds _ => speeds |}.

Definition route : GIS :=
  {| path := [(0, 0); (0, 1); (0, 2); (0, 3)];
     path_elevations := [100; 101; 102; 103];
     path_time_zones := [-18000; -18000; -18000; -18000];
     path_distances := [10; 10; 10];
     path_gradients := [0; 0; 0] |}.

Definition entry (lng t offset : Q) : forecast :=
  {| latitude := 0; longitude := lng; dt := t; timezone_offset := offset;
     dt_local := t + offset; wind_speed := 2; wind_direction := 90;
     cloud_cover := 40; description_id := 800 |}.

Definition forecasts : WeatherForecasts :=
  {| weather_forecast :=
       [ [entry 0 0 (-18000); entry 0 86400 (-18000)];
         [entry 1 0 (-18000); entry 1 86400 (-18000)];
         [entry 2 0 (-18000); entry 2 86400 (-18000)];
         [entry 3 0 (-18000); entry 3 86400 (-18000)];
         [entry 4 0 (-18000); entry 4 86400 (-18000)] ] |}.

Definition sun : SolarCalculations :=
  {| calculate_array_GHI := fun coords tz lt elev cloud => map (fun _ => 1000) coords |}.

Definition panels : BasicArray :=
  {| calculate_produced_energy := fun ghi tick => map (fun g => g * tick) ghi |}.

(** The engine as [Simulation.__init__] leaves it: one-second ticks, one
    hour from 5 p.m., so the last tick lies in the charging window. *)
Definition engine : Simulation :=
  {| initial_battery_charge := 9 # 10;
     lvs_power_loss := 0;
     tick := 1;
     simulation_duration := 3600;
     start_hour := 17;
     route_length := 0;
     basic_array := panels;
     basic_battery := {| Battery.initial_charge := 9 # 10;
                         Battery.max_energy_capacity := 5000000 |};
     basic_lvs := {| LVS.consumed_energy := 0 * 1 |};
     basic_motor := Motor.init;
     gis := route;
     route_coords := path route;
     vehicle_bearings := [90; 90; 90; 90];
     weather := forecasts;
     time_of_initialization := 61200;
     solar_calculations := sun;
     local_times := None;
     time_zones := None;
     timestamps := map (fun k => inject_Z (Z.of_nat k)) (seq 0 3601) |}.

(** 36 km/h requested at every tick. *)
Definition steady : list Q := repeat 36 3601.

(** Two weather points in time zones one hour apart (UTC-5 and UTC-6),
    each with a daily forecast of eight entries. *)
Definition daily (lng offset : Q) : list forecast :=
  map (fun day => entry lng (inject_Z (Z.of_nat day) * 86400) offset) (seq 0 8).

Definition two_zones : WeatherForecasts :=
  {| weather_forecast := [daily 0 (-18000); daily 1 (-21600)] |}.

End Scenario.

(** An engine with the three fields a run writes put back to what
    [Simulation.__init__] leaves there. *)
Definition forget_run_state (s : Simulation) : Simulation :=
  {| initial_battery_charge := initial_battery_charge s;
     lvs_power_loss := lvs_power_loss s;
     tick := tick s;
     simulation_duration := simulation_duration s;
     start_hour := start_hour s;
     route_length := 0;
     basic_array := basic_array s;
     basic_battery := basic_battery s;
     basic_lvs := basic_lvs s;
     basic_motor := basic_motor s;
     gis := gis s;
     route_coords := route_coords s;
     vehicle_bearings := vehicle_bearings s;
     weather := weather s;
     time_of_initialization := time_of_initialization s;
     solar_calculations := solar_calculations s;
     local_times := None;
     time_zones := None;
     timestamps := timestamps s |}.

(** ** More of the route model *)

(** The two fields of a [GIS] object that [update_vehicle_position]
    reads and writes. *)
Record Vehicle : Type := mkVehicle {
  current_index : Z;          (* self.current_index *)
  distance_remainder : Q      (* self.distance_remainder *)
}.

(** The great-circle bearing of [calculate_current_heading_array],
    [(atan2(y, x) * 180 / pi + 360) % 360] for the two points in radians:
    a value of sines, cosines and an arctangent, kept as an interface. *)
Class Bearing : Type := bearing_between : coord -> coord -> Q.

Module GISMore.

(** The state of a freshly constructed [GIS]. *)
Definition parked : Vehicle := {| current_index := 0; distance_remainder := 0 |}.

(** The [while] loop of [update_vehicle_position].  Every iteration
    subscripts [path_distances] at the index and then increments it, so
    an iteration that does not raise leaves fewer than [fuel] indices
    below the length; [walk_unfold] shows that the branch at fuel 0 is
    never taken. *)
Fixpoint walk (path_distances : list Q) (fuel : nat)
  (additional_distance : Q) (index : Z) : res (Q * Z) :=
  if Np.gtb additional_distance 0
  then d <- Np.index path_distances index ;;
       match fuel with
       | O => Raise IndexError
       | S fuel' => walk path_distances fuel' (additional_distance - d) (index + 1)
       end
  else Ok (additional_distance, index).

Definition walk_fuel (path_distances : list Q) (index : Z) : nat :=
  Z.to_nat (Z.of_nat (length path_distances) - index).

(** [GIS.update_vehicle_position]: the returned index and the two fields
    as the call leaves them. *)
Definition update_vehicle_position (self : GIS) (state : Vehicle)
  (incremental_distance : Q) : res (Z * Vehicle) :=
  let additional_distance := distance_remainder state + incremental_distance in
  walked <- walk (path_distances self) (walk_fuel (path_distances self) (current_index state))
              additional_distance (current_index state) ;;
  let additional_distance := fst walked in
  let index := snd walked in
  d <- Np.index (path_distances self) (index - 1) ;;
  Ok ((index - 1)%Z,
      {| current_index := index - 1;
         distance_remainder := additional_distance + d |}).

(** [a and b] on two tuples: the first if it is empty, else the second. *)
Definition tuple_and {A : Type} (a b : list A) : list A :=
  match a with
  | [] => a
  | _ => b
  end.

(** [np.where(np.diff(column) == 0)]: a one-element tuple holding the
    positions whose successor has the same value. *)
Definition where_diff_zero (column : list Q) : list (list nat) :=
  [Np.where_eq (Np.diff column) 0].

(** [np.delete(a, obj, axis=0)] for a tuple [obj] of index arrays: the
    rows at those positions go, a position past the end raises. *)
Definition delete_rows {A : Type} (a : list A) (obj : list (list nat)) : res (list A) :=
  let positions := concat obj in
  if forallb (fun i => (i <? length a)%nat) positions
  then Ok (map snd (filter (fun ia => negb (existsb (Nat.eqb (fst ia)) positions))
                           (combine (seq 0 (length a)) a)))
  else Raise IndexError.

(** The end of [GIS.update_path], from [route = np.array(path_points)]
    on (its removal of duplicate coordinates). *)
Definition remove_duplicate_coordinates (path_points : list coord) : res (list coord) :=
  let route := path_points in
  match route with
  | [] => Ok route
  | _ =>
      let duplicate_coordinate_indices :=
        tuple_and (where_diff_zero (map fst route)) (where_diff_zero (map snd route)) in
      delete_rows route duplicate_coordinate_indices
  end.

(** [a.min(axis=0)] and [a.max(axis=0)] on one column; a zero-sized
    column raises. *)
Definition column_min (column : list Q) : res Q :=
  match column with
  | [] => Raise ValueError
  | x :: t => Ok (fold_left Qmin t x)
  end.

Definition column_max (column : list Q) : res Q :=
  match column with
  | [] => Raise ValueError
  | x :: t => Ok (fold_left Qmax t x)
  end.

(** [GIS.calculate_path_min_max]:
    [[min_long, min_lat, max_long, max_lat]]. *)
Definition calculate_path_min_max (self : GIS) : res (list Q) :=
  min_lat <- column_min (map fst (path self)) ;;
  min_long <- column_min (map snd (path self)) ;;
  max_lat <- column_max (map fst (path self)) ;;
  max_long <- column_max (map snd (path self)) ;;
  Ok [min_long; min_lat; max_long; max_lat].

(** The [for] loop of [calculate_current_heading_array]: the bearing
    from every point to the next. *)
Fixpoint forward_bearings `{Bearing} (path : list coord) : list Q :=
  match path with
  | [] => []
  | a :: t => match t with
              | [] => []
              | b :: _ => bearing_between a b :: forward_bearings t
              end
  end.

(** [a[-1] = a[-2]]. *)
Definition copy_second_to_last (a : list Q) : res (list Q) :=
  x <- Np.index a (-2)%Z ;;
  Ok (removelast a ++ [x]).

(** [GIS.calculate_current_heading_array]. *)
Definition calculate_current_heading_array `{Bearing} (self : GIS) : res (list Q) :=
  let bearing_array :=
    match path self with
    | [] => []
    | _ => forward_bearings (path self) ++ [0]
    end in
  copy_second_to_last bearing_array.

End GISMore.

(** A bearing for examples: the difference of the second coordinates. *)
Module HeadingScenario.

#[global] Instance eastward : Bearing := fun a b => snd b - snd a.

End HeadingScenario.

(** ** Slices with a step *)

Module Py.

(** [a[::step]] for a positive step, starting [skip] elements in. *)
Fixpoint every_from {A : Type} (step skip : nat) (l : list A) : list A :=
  match l with
  | [] => []
  | a :: t => match skip with
              | O => a :: every_from step (step - 1) t
              | S skip' => every_from step skip' t
              end
  end.

(** [a[::step]]: a step of zero raises [ValueError], a negative step
    walks from the end. *)
Definition slice_step {A : Type} (a : list A) (step : Z) : res (list A) :=
  if (step =? 0)%Z then Raise ValueError
  else if (0 <? step)%Z
       then Ok (every_from (Z.to_nat step) 0 a)
       else Ok (every_from (Z.to_nat (- step)) 0 (rev a)).

End Py.

(** ** More of the weather model *)

Module WeatherMore.

(** [WeatherForecasts.cull_dataset]: [coords[::reduction_factor]]. *)
Definition cull_dataset {A : Type} (coords : list A) (reduction_factor : Z)
  : res (list A) :=
  Py.slice_step coords reduction_factor.

End WeatherMore.

(** ** Vocabulary of the further statements *)

(** The cursor is 0, or every query still to come lies beyond the
    boundary just below the cursor. *)
Definition behind (average : list Q) (current : Z) (queries : list Q) : Prop :=
  (0 < current)%Z ->
  exists b, nth_error average (Z.to_nat (current - 1)) = Some b /\
            Forall (fun d => b < d) queries.

(** The plain sum of a list of lengths. *)
Definition total (l : list Q) : Q := fold_right Qplus 0 l.

(** The length of route before segment [k]. *)
Definition route_before (self : GIS) (k : Z) : Q :=
  total (firstn (Z.to_nat k) (path_distances self)).

(** The length of route from segment [k] on. *)
Definition route_from (self : GIS) (k : Z) : Q :=
  total (skipn (Z.to_nat k) (path_distances self)).

(** The route without every point whose successor has the same
    longitude. *)
Fixpoint keep_longitude_changes (route : list coord) : list coord :=
  match route with
  | [] => []
  | a :: t => match t with
              | [] => [a]
              | b :: _ => if Qeq_bool (snd b - snd a) 0
                          then keep_longitude_changes t
                          else a :: keep_longitude_changes t
              end
  end.

(** No point has the longitude of its successor. *)
Fixpoint changes_longitude (route : list coord) : Prop :=
  match route with
  | [] => True
  | a :: t => match t with
              | [] => True
              | b :: _ => ~ snd b == snd a
              end /\ changes_longitude t
  end.

(** ** Plotting: the arrays [__plot_graph] hands to the plotting libraries *)

(** What ends up on screen: the grid of axes and, per axis, the two
    columns of the plotted frame. *)
Record Figure : Type := mkFigure {
  fig_rows : nat;
  fig_columns : nat;
  fig_series : list (list Q * list Q)
}.

Module Plot.

(** [plt.subplots(rows, columns)]: a grid without rows or columns is
    refused. *)
Definition subplots (rows columns : nat) : res nat :=
  if ((rows =? 0) || (columns =? 0))%nat then Raise ValueError
  else Ok (rows * columns)%nat.

(** [pd.DataFrame(dict(time=x, value=y))]: columns of different lengths
    are refused. *)
Definition data_frame (x y : list Q) : res (list Q * list Q) :=
  if (length x =? length y)%nat then Ok (x, y) else Raise ValueError.

(** [Simulation.__plot_graph]: the list [arrays_to_plot] as the call
    leaves it (the caller's list is overwritten in place), and the
    figure. *)
Definition plot_graph {L : Type} (timestamps : list Q)
  (arrays_to_plot : list (list Q)) (array_labels : list L)
  : res (list (list Q) * Figure) :=
  let compress_constant := Z.of_nat (length timestamps / 5000) in
  let num_arrays := length arrays_to_plot in
  match arrays_to_plot with
  | [array] =>
      let t := map (fun k => inject_Z (Z.of_nat k)) (seq 0 (length array)) in
      _ <- Np.index array_labels 0 ;;
      Ok (arrays_to_plot,
          {| fig_rows := 1; fig_columns := 1; fig_series := [(t, array)] |})
  | _ =>
      let shape := if (num_arrays mod 4 =? 0)%nat
                   then ((num_arrays / 2)%nat, 2%nat)
                   else (num_arrays, 1%nat) in
      axes <- subplots (fst shape) (snd shape) ;;
      arrays_to_plot <-
        Np.mapM (fun array => Py.slice_step array compress_constant) arrays_to_plot ;;
      series <-
        Np.mapM (fun index =>
                   time <- Py.slice_step timestamps compress_constant ;;
                   value <- Np.index arrays_to_plot (Z.of_nat index) ;;
                   df <- data_frame (map (fun x => x / 3600) time) value ;;
                   _ <- Np.index array_labels (Z.of_nat index) ;;
                   Ok df)
                (seq 0 axes) ;;
      Ok (arrays_to_plot,
          {| fig_rows := fst shape; fig_columns := snd shape; fig_series := series |})
  end.

End Plot.

(** ** Elevations of a path: [GIS.calculate_path_elevations] *)

(** The exceptions of [exn], and the one an unbound local raises. *)
Inductive raised : Type :=
| Builtin (e : exn)
| UnboundLocalError.

Inductive outcome (A : Type) : Type :=
| Returns (a : A)
| Fails (e : raised).

Arguments Returns {A} a.
Arguments Fails {A} e.

(** The parsed body of an answer of the elevation service: its status
    and the elevation of each result. *)
Record elevation_response : Type := mkResponse {
  status : String.string;
  results : list Q
}.

(** What the model takes from outside: how Python prints a float, and
    what the service answers to a URL. *)
Class ElevationService : Type := {
  format_float : Q -> String.string;
  get : String.string -> elevation_response
}.

Module Elevation.

Import String.StringSyntax.
Local Open Scope string_scope.
Local Infix "+++" := String.append (at level 60, right associativity).

Definition url_head : String.string :=
  "https://maps.googleapis.com/maps/api/elevation/json?locations=".

(** [s[:-1]]. *)
Definition drop_last (s : String.string) : String.string :=
  String.substring 0 (String.length s - 1) s.

(** [f"{coord[0]},{coord[1]}|"]. *)
Definition location `{ElevationService} (c : coord) : String.string :=
  format_float (fst c) +++ "," +++ format_float (snd c) +++ "|".

(** The loop over [coords]: a batch is closed once it is longer than
    8000 characters. *)
Fixpoint batch_locations `{ElevationService} (coords : list coord)
  (locations : String.string) (location_strings : list String.string)
  : list String.string * String.string :=
  match coords with
  | [] => (location_strings, locations)
  | c :: rest =>
      let locations := locations +++ location c in
      if (8000 <? String.length locations)%nat
      then batch_locations rest String.EmptyString
             (location_strings ++ [drop_last locations])
      else batch_locations rest locations location_strings
  end.

Definition location_strings `{ElevationService} (coords : list coord)
  : list String.string :=
  let '(location_strings, locations) :=
    batch_locations coords String.EmptyString [] in
  if (String.length locations =? 0)%nat then location_strings
  else (location_strings ++ [drop_last locations]).

(** The URLs requested, in order. *)
Definition request_urls `{ElevationService} (api_key : String.string)
  (coords : list coord) : list String.string :=
  map (fun location_string => url_head +++ location_string +++ "&key=" +++ api_key)
      (location_strings coords).

(** The loop over the location strings: every URL is requested, and
    [response] is bound to the latest answer. *)
Fixpoint request_all `{ElevationService} (urls : list String.string)
  (response : option elevation_response) : option elevation_response :=
  match urls with
  | [] => response
  | url :: rest => request_all rest (Some (get url))
  end.

(** [elevations[i] = e]. *)
Fixpoint set_item (elevations : list Q) (i : nat) (e : Q) : res (list Q) :=
  match elevations, i with
  | [], _ => Raise IndexError
  | _ :: t, O => Ok (e :: t)
  | x :: t, S i' => t' <- set_item t i' e ;; Ok (x :: t')
  end.

(** The loop over the results of the one response that is looked at. *)
Fixpoint store (elevations : list Q) (i : nat) (results : list Q)
  : res (list Q) :=
  match results with
  | [] => Ok elevations
  | e :: rest =>
      elevations <- set_item elevations i e ;;
      store elevations (S i) rest
  end.

Definition calculate_path_elevations `{ElevationService}
  (api_key : String.string) (coords : list coord) : outcome (list Q) :=
  let elevations := repeat 0 (length coords) in
  match request_all (request_urls api_key coords) None with
  | None => Fails UnboundLocalError
  | Some response =>
      if String.eqb (status response) "OK"
      then match store elevations 0 (results response) with
           | Ok elevations => Returns elevations
           | Raise e => Fails (Builtin e)
           end
      else Returns elevations
  end.

(** Every coordinate as the loop prints it, one after the other. *)
Definition all_locations `{ElevationService} (coords : list coord)
  : String.string :=
  fold_right String.append String.EmptyString (map location coords).

(** The location strings, each followed by a bar, one after the other. *)
Definition with_bars (location_strings : list String.string) : String.string :=
  fold_right String.append String.EmptyString
             (map (fun location_string => location_string +++ "|") location_strings).

Definition status_ok : String.string := "OK".

Definition bar : String.string := "|".

End Elevation.

(** A service for examples: two printable coordinates, and an answer of
    two elevations whatever is asked. *)
Module ElevationScenario.

Import String.StringSyntax.
Local Open Scope string_scope.

#[global] Instance service : ElevationService := {
  format_float := fun q => if Qeq_bool q 49 then "49.0" else "-123.0";
  get := fun _ => {| status := "OK"; results := [70; 71] |}
}.

Definition key : String.string := "k".

Definition coords : list coord := [(49, -(123)); (49, 49); (-(123), 49)].

End ElevationScenario.

(** ** The clock of the tick grid *)

Module Clock.




End Clock.

(** The small race with ticks of three quarters of a second: an hour
    and a half from 8 a.m., 7201 ticks, as many as the mask has seconds. *)
Module SubSecond.

Definition engine : Simulation :=
  {| initial_battery_charge := initial_battery_charge Scenario.engine;
     lvs_power_loss := lvs_power_loss Scenario.engine;
     tick := 3 # 4;
     simulation_duration := 5400;
     start_hour := 8;
     route_length := 0;
     basic_array := basic_array Scenario.engine;
     basic_battery := basic_battery Scenario.engine;
     basic_lvs := basic_lvs Scenario.engine;
     basic_motor := basic_motor Scenario.engine;
     gis := gis Scenario.engine;
     route_coords := route_coords Scenario.engine;
     vehicle_bearings := vehicle_bearings Scenario.engine;
     weather := weather Scenario.engine;
     time_of_initialization := 28800;
     solar_calculations := solar_calculations Scenario.engine;
     local_times := None;
     time_zones := None;
     timestamps := map (fun k => inject_Z (Z.of_nat k) * (3 # 4)) (seq 0 7201) |}.

(** 36 km/h requested at every tick. *)
Definition steady : list Q := repeat 36 7201.

End SubSecond.

(** * Properties *)

Unset Implicit Arguments.

(** ** NumPy fragment *)

Lemma bind_ok {A B : Type} (m : res A) (k : A -> res B) (b : B) :
  bind m k = Ok b -> exists a, m = Ok a /\ k a = Ok b.
Proof.
  destruct m as [a|e]; simpl; intros E.
  - exists a. split; [reflexivity | assumption].
  - discriminate.
Qed.

(** Peel the leading binds of a hypothesis [H : ... = Ok _]. *)
Ltac bind_inv H :=
  let a := fresh "v" in
  let E := fresh "E" in
  apply bind_ok in H; destruct H as (a & E & H).

Lemma list_ind2 {A : Type} (P : list A -> Prop) :
  P [] -> (forall x, P [x]) -> (forall x y l, P l -> P (x :: y :: l)) ->
  forall l, P l.
Proof.
  intros H0 H1 H2.
  fix IH 1. intros [|x [|y l]]; [exact H0 | apply H1 | apply H2, IH].
Qed.

Lemma cumsum_from_length acc l : length (Np.cumsum_from acc l) = length l.
Proof.
  revert acc. induction l as [|x t IH]; intros acc; simpl; [reflexivity|].
  now rewrite IH.
Qed.

Lemma cumsum_length l : length (Np.cumsum l) = length l.
Proof. apply cumsum_from_length. Qed.

Lemma negate_even_length l : length (Np.negate_even l) = length l.
Proof.
  induction l as [| x | x y l IH] using list_ind2; simpl in *; try reflexivity.
  now rewrite IH.
Qed.

Lemma diff_length l : length (Np.diff l) = pred (length l).
Proof.
  induction l as [|x t IH]; [reflexivity|].
  destruct t as [|y t']; [reflexivity|].
  change (Np.diff (x :: y :: t')) with ((y - x) :: Np.diff (y :: t')).
  simpl length in *. now rewrite IH.
Qed.

Lemma average_distances_length ds :
  length (average_distances ds) = pred (length ds).
Proof.
  unfold average_distances.
  now rewrite length_map, diff_length, negate_even_length, cumsum_length.
Qed.

Lemma index_in_range {A : Type} (l : list A) (i : Z) :
  (0 <= i <= last_index l)%Z -> exists a, Np.index l i = Ok a.
Proof.
  unfold last_index, Np.index. intros Hi.
  destruct (Z.ltb_spec i 0); [lia|].
  destruct (Z.leb_spec 0 i); [|lia].
  destruct (Z.ltb_spec i (Z.of_nat (length l))); [|lia]. simpl.
  destruct (nth_error l (Z.to_nat i)) as [a|] eqn:E; [now exists a|].
  apply nth_error_None in E. lia.
Qed.

Lemma index_nil {A : Type} (i : Z) : Np.index (@nil A) i = Raise IndexError.
Proof.
  unfold Np.index. simpl.
  destruct (Z.ltb_spec i 0); destruct (Z.leb_spec 0 (0 + i)); destruct (Z.leb_spec 0 i);
    simpl; try reflexivity;
    try (destruct (Z.ltb_spec (0 + i) 0); simpl; try reflexivity; lia);
    try (destruct (Z.ltb_spec i 0); simpl; try reflexivity; lia).
Qed.

(** The boundaries are the midpoints between consecutive cumulative
    distances; here for a route of three segments. *)
Lemma average_distances_three a b c :
  0 <= a -> 0 <= b -> 0 <= c ->
  array_eq (average_distances [a; b; c])
           [(a + (a + b)) / 2; ((a + b) + (a + b + c)) / 2].
Proof.
  intros Ha Hb Hc. unfold average_distances, Np.cumsum.
  cbn [Np.cumsum_from Np.negate_even Np.diff map].
  constructor; [|constructor; [|constructor]].
  - rewrite !Qred_correct. rewrite Qabs_pos; [field|].
    unfold Qdiv. apply Qmult_le_0_compat; [lra | discriminate].
  - rewrite !Qred_correct. rewrite Qabs_neg; [field|].
    setoid_replace ((0 + a + b + c) * -1 - (0 + a + b)) with (- (a + b + c + a + b))
      by ring.
    unfold Qdiv. rewrite <- (Qmult_0_l (/ 2)).
    apply Qmult_le_compat_r; [lra | discriminate].
Qed.

(** ** Route index mapping *)

Lemma gis_step_inv average current d :
  (0 <= current <= last_index average)%Z ->
  exists c, GISModel.step average current d = Ok c /\
            (current <= c <= current + 1)%Z /\ (c <= last_index average)%Z.
Proof.
  intros Hc. unfold GISModel.step.
  destruct (index_in_range average current Hc) as [b ->]. simpl.
  eexists. split; [reflexivity|].
  destruct (Np.gtb d b); [|lia].
  destruct (Z.gtb_spec current (last_index average)); [lia|].
  destruct (Z.gtb_spec (current + 1) (last_index average)); lia.
Qed.

Lemma gis_loop_inv average ds : forall current,
  (0 <= current <= last_index average)%Z ->
  exists r, GISModel.loop average current ds = Ok r /\
            length r = length ds /\
            creeps_from current r /\
            Forall (fun i => current <= i <= last_index average)%Z r.
Proof.
  induction ds as [|d t IH]; intros current Hc; simpl.
  - exists []. repeat split; constructor.
  - destruct (gis_step_inv average current d Hc) as (c & -> & Hcc & Hcl). simpl.
    destruct (IH c ltac:(lia)) as (r & -> & Hlen & Hcreep & Hall). simpl.
    exists (c :: r). split; [reflexivity|]. split; [simpl; lia|].
    split; [simpl; auto|].
    constructor; [lia|].
    eapply Forall_impl; [|exact Hall]. simpl. intros; lia.
Qed.

Lemma gis_loop_nil_average current d t :
  GISModel.loop [] current (d :: t) = Raise IndexError.
Proof. simpl. unfold GISModel.step. now rewrite index_nil. Qed.

Lemma creeps_sorted start l : creeps_from start l -> Sorted Z.le (start :: l).
Proof.
  revert start. induction l as [|x t IH]; intros start H.
  - repeat constructor.
  - destruct H as [Hx Ht]. constructor; [apply IH, Ht|]. constructor. lia.
Qed.

Lemma creeps_sorted_tail start l : creeps_from start l -> Sorted Z.le l.
Proof.
  intros H. apply creeps_sorted in H. now inversion H.
Qed.

Lemma nditer_ok {A : Type} (l q : list A) : Np.nditer l = Ok q -> q = l /\ l <> [].
Proof. destruct l; simpl; [discriminate|]. intros [= <-]. now split. Qed.

Lemma average_nonempty ds : (2 <= length ds)%nat -> (0 <= last_index (average_distances ds))%Z.
Proof. unfold last_index. rewrite average_distances_length. lia. Qed.

(** The cursor of the route mapping: what it returns, whatever the
    queries. *)
Lemma closest_gis_indices_spec (self : GIS) (cds : list Q) (out : list Z) :
  GISModel.calculate_closest_gis_indices self cds = Ok out ->
  length out = length cds /\
  creeps_from 0 out /\
  Forall (fun i => 0 <= i <= last_index (average_distances (path_distances self)))%Z out.
Proof.
  unfold GISModel.calculate_closest_gis_indices. intros H.
  bind_inv H. apply nditer_ok in E as [-> Hne].
  destruct (average_distances (path_distances self)) as [|a av] eqn:Ea.
  - destruct cds; [easy|]. now rewrite gis_loop_nil_average in H.
  - destruct (gis_loop_inv (a :: av) cds 0%Z) as (r' & Hr & Hlen & Hcreep & Hall).
    + unfold last_index. simpl length. lia.
    + rewrite Hr in H. injection H as <-. auto.
Qed.

Lemma closest_gis_indices_total (self : GIS) (cds : list Q) :
  (2 <= length (path_distances self))%nat -> cds <> [] ->
  exists out, GISModel.calculate_closest_gis_indices self cds = Ok out.
Proof.
  intros Hn Hne. unfold GISModel.calculate_closest_gis_indices.
  destruct cds as [|d t]; [easy|]. simpl Np.nditer. cbn [bind].
  destruct (gis_loop_inv (average_distances (path_distances self)) (d :: t) 0%Z)
    as (r & Hr & _).
  - split; [lia | now apply average_nonempty].
  - eauto.
Qed.

(** C1. For a non-decreasing array of cumulative distances over a route
    of N coordinates (hence N-1 segment lengths), every array that
    [GIS.calculate_closest_gis_indices] returns has one index per query,
    is non-decreasing, lies in [0, N-2] and never passes the last index
    of the midpoint array, where the cursor stays once it is there; and
    the call does return when the route has at least three coordinates
    and there is a query. *)
Theorem closest_gis_indices_monotone_bounded (self : GIS) (cds : list Q) :
  length (path_distances self) = (length (path self) - 1)%nat ->
  Sorted Qle cds ->
  (forall out, GISModel.calculate_closest_gis_indices self cds = Ok out ->
     length out = length cds /\
     Sorted Z.le out /\
     Forall (fun i => 0 <= i <= Z.of_nat (length (path self)) - 2)%Z out /\
     Forall (fun i => i <= last_index (average_distances (path_distances self)))%Z
            out) /\
  ((3 <= length (path self))%nat -> cds <> [] ->
   exists out, GISModel.calculate_closest_gis_indices self cds = Ok out).
Proof.
  intros Hlen _. split.
  - intros out H. apply closest_gis_indices_spec in H.
    destruct H as (Hl & Hcreep & Hall). split; [exact Hl|].
    split; [eapply creeps_sorted_tail; eassumption|].
    split; (eapply Forall_impl; [|exact Hall]); simpl.
    + unfold last_index. rewrite average_distances_length, Hlen. intros; lia.
    + intros; lia.
  - intros HN Hne. apply closest_gis_indices_total; [lia | assumption].
Qed.

Example closest_gis_indices_on_route :
  GISModel.calculate_closest_gis_indices Scenario.route [0; 10; 20; 30; 40]
  = Ok [0; 0; 1; 1; 1]%Z.
Proof. reflexivity. Qed.

Example closest_gis_indices_no_query :
  GISModel.calculate_closest_gis_indices Scenario.route [] = Raise ValueError.
Proof. reflexivity. Qed.

Example closest_gis_indices_two_point_route :
  GISModel.calculate_closest_gis_indices
    {| path := [(0, 0); (0, 1)]; path_elevations := [0; 0]; path_time_zones := [0; 0];
       path_distances := [10]; path_gradients := [0] |}
    [0; 5]
  = Raise IndexError.
Proof. reflexivity. Qed.

(** ** Weather index mapping *)

Lemma weather_step_inv average current d :
  (0 <= current <= last_index average)%Z ->
  exists c, WeatherModel.step average current d = Ok c /\
            (current <= c <= current + 1)%Z /\ (c <= last_index average)%Z.
Proof.
  intros Hc. unfold WeatherModel.step.
  destruct (Z.gtb_spec current (last_index average)); [lia|].
  destruct (index_in_range average current Hc) as [b ->]. simpl.
  eexists. split; [reflexivity|].
  destruct (Np.gtb d b); [|lia].
  destruct (Z.gtb_spec (current + 1) (last_index average)); lia.
Qed.

Lemma weather_loop_inv average ds : forall current,
  (0 <= current <= last_index average)%Z ->
  exists r, WeatherModel.loop average current ds = Ok r /\
            length r = length ds /\
            creeps_from current r /\
            Forall (fun i => current <= i <= last_index average)%Z r.
Proof.
  induction ds as [|d t IH]; intros current Hc; simpl.
  - exists []. repeat split; constructor.
  - destruct (weather_step_inv average current d Hc) as (c & -> & Hcc & Hcl). simpl.
    destruct (IH c ltac:(lia)) as (r & -> & Hlen & Hcreep & Hall). simpl.
    exists (c :: r). split; [reflexivity|]. split; [simpl; lia|].
    split; [simpl; auto|].
    constructor; [lia|].
    eapply Forall_impl; [|exact Hall]. simpl. intros; lia.
Qed.

Lemma weather_loop_nil_average current d t :
  WeatherModel.loop [] current (d :: t) = Raise IndexError.
Proof.
  simpl. unfold WeatherModel.step.
  destruct (current >? last_index [])%Z; now rewrite index_nil.
Qed.

(** C10. Whatever the queries, sorted or not, every array that
    [WeatherForecasts.calculate_closest_weather_indices] returns has one
    index per query, never decreases, moves by at most one from one query
    to the next (from 0 for the first), and stays at or below the last
    index of the midpoint-boundary array; and the call does return when
    that array and the queries are not empty. *)
Theorem closest_weather_indices_creep `{Helpers}
  (self : WeatherForecasts) (cds average : list Q) :
  WeatherModel.weather_average_distances self = Ok average ->
  (forall out, WeatherModel.calculate_closest_weather_indices self cds = Ok out ->
     length out = length cds /\
     Sorted Z.le out /\
     creeps_from 0 out /\
     Forall (fun i => 0 <= i <= last_index average)%Z out) /\
  (average <> [] -> cds <> [] ->
   exists out, WeatherModel.calculate_closest_weather_indices self cds = Ok out).
Proof.
  intros Hav. unfold WeatherModel.calculate_closest_weather_indices.
  rewrite Hav. cbn [bind]. split.
  - intros out Hout. bind_inv Hout. apply nditer_ok in E as [-> Hne].
    destruct average as [|a av].
    + destruct cds; [easy|]. now rewrite weather_loop_nil_average in Hout.
    + destruct (weather_loop_inv (a :: av) cds 0%Z) as (r & Hr & Hlen & Hcreep & Hall).
      * unfold last_index. simpl length. lia.
      * rewrite Hr in Hout. injection Hout as <-.
        repeat split; try assumption. eapply creeps_sorted_tail; eassumption.
  - intros Hav_ne Hne. destruct cds as [|d t]; [easy|].
    simpl Np.nditer. cbn [bind].
    destruct (weather_loop_inv average (d :: t) 0%Z) as (r & Hr & _).
    + unfold last_index. destruct average; [easy|]. simpl length. lia.
    + eauto.
Qed.

(** A query far beyond every boundary moves the cursor by one; a later,
    smaller query does not move it back. *)
Example closest_weather_indices_on_forecasts :
  WeatherModel.calculate_closest_weather_indices Scenario.forecasts [1000; 0; 1000; 5]
  = Ok [1; 1; 2; 2]%Z.
Proof. reflexivity. Qed.

(** ** Element-wise operations *)

Lemma zip_with_nth {A B C : Type} (f : A -> B -> C) l1 : forall l2 i c,
  nth_error (Np.zip_with f l1 l2) i = Some c ->
  exists a b, nth_error l1 i = Some a /\ nth_error l2 i = Some b /\ c = f a b.
Proof.
  induction l1 as [|a t IH]; intros [|b t2] [|i] c H; simpl in H; try discriminate.
  - injection H as <-. now exists a, b.
  - apply IH in H. exact H.
Qed.

Lemma zip_with_length {A B C : Type} (f : A -> B -> C) l1 : forall l2,
  length l1 = length l2 -> length (Np.zip_with f l1 l2) = length l1.
Proof.
  induction l1 as [|a t IH]; intros [|b t2] H; simpl in *; try congruence.
  now rewrite IH by congruence.
Qed.

(** Every output element of an element-wise operation is [f] applied to
    the two elements that feed its position. *)
Lemma broadcast2_nth {A B C : Type} (e : exn) (f : A -> B -> C) l1 l2 out i c :
  Np.broadcast2_exn e f l1 l2 = Ok out ->
  nth_error out i = Some c ->
  exists a b, feeds l1 i a /\ feeds l2 i b /\ c = f a b.
Proof.
  unfold Np.broadcast2_exn, feeds. intros H Hi.
  destruct (length l1 =? length l2)%nat.
  - injection H as <-. apply zip_with_nth in Hi as (a & b & Ha & Hb & ->).
    exists a, b. auto.
  - destruct l1 as [|a [|a' t1]].
    + destruct l2 as [|b [|b' t2]]; try discriminate.
      injection H as <-. destruct i; discriminate.
    + injection H as <-. rewrite nth_error_map in Hi.
      destruct (nth_error l2 i) as [b|] eqn:Eb; [|discriminate].
      injection Hi as <-. exists a, b. auto.
    + destruct l2 as [|b [|b' t2]]; try discriminate.
      assert (Hout : out = map (fun x => f x b) (a :: a' :: t1))
        by (injection H; intros <-; reflexivity).
      rewrite Hout, nth_error_map in Hi.
      destruct (nth_error (a :: a' :: t1) i) as [x|] eqn:Ex; [|discriminate].
      injection Hi as <-. exists x, b. auto.
Qed.


Lemma feeds_In {A : Type} (l : list A) i a : feeds l i a -> In a l.
Proof. intros [H | ->]; [eapply nth_error_In; eassumption | now left]. Qed.

Lemma feeds_map {A B : Type} (g : A -> B) (l : list A) i b :
  feeds (map g l) i b -> exists a, feeds l i a /\ b = g a.
Proof.
  intros [H | H].
  - rewrite nth_error_map in H. destruct (nth_error l i) as [a|] eqn:E; [|discriminate].
    injection H as <-. exists a. split; [now left | reflexivity].
  - destruct l as [|a [|a' t]]; try discriminate. injection H as <-.
    exists a. split; [now right | reflexivity].
Qed.

Lemma broadcast2_Forall {A B C : Type} (e : exn) (f : A -> B -> C)
  (P : A -> Prop) (R : B -> Prop) (S : C -> Prop) l1 l2 out :
  (forall a b, P a -> R b -> S (f a b)) ->
  Forall P l1 -> Forall R l2 ->
  Np.broadcast2_exn e f l1 l2 = Ok out -> Forall S out.
Proof.
  intros Hf H1 H2 H. apply Forall_forall. intros c Hc.
  apply In_nth_error in Hc as [i Hi].
  destruct (broadcast2_nth e f l1 l2 out i c H Hi) as (a & b & Ha & Hb & ->).
  apply Hf.
  - eapply Forall_forall; [exact H1 | eapply feeds_In; eassumption].
  - eapply Forall_forall; [exact H2 | eapply feeds_In; eassumption].
Qed.

Lemma broadcast2_same_length {A B C : Type} (e : exn) (f : A -> B -> C) l1 l2 :
  length l1 = length l2 ->
  Np.broadcast2_exn e f l1 l2 = Ok (Np.zip_with f l1 l2).
Proof. intros H. unfold Np.broadcast2_exn. now rewrite H, Nat.eqb_refl. Qed.

(** Shapes that broadcast, and the shape of the outcome. *)
Lemma broadcast2_ok {A B C : Type} (e : exn) (f : A -> B -> C) l1 l2 :
  length l1 = length l2 \/ length l1 = 1%nat \/ length l2 = 1%nat ->
  exists out, Np.broadcast2_exn e f l1 l2 = Ok out /\
              length out = if (length l1 =? 1)%nat then length l2 else length l1.
Proof.
  intros H. unfold Np.broadcast2_exn.
  destruct (length l1 =? length l2)%nat eqn:E.
  - apply Nat.eqb_eq in E. eexists. split; [reflexivity|].
    rewrite zip_with_length by assumption.
    destruct (length l1 =? 1)%nat; congruence.
  - apply Nat.eqb_neq in E. destruct H as [H | [H | H]]; [contradiction| |].
    + destruct l1 as [|a [|a' t1]]; try discriminate.
      eexists. split; [reflexivity|]. apply length_map.
    + destruct l2 as [|b [|b' t2]]; try discriminate.
      destruct l1 as [|a [|a' t1]].
      * eexists. split; reflexivity.
      * now elim E.
      * eexists. split; [reflexivity|]. now rewrite length_map.
Qed.

(** ** Motor model *)

Lemma Qdiv_0_l (x : Q) : 0 / x == 0.
Proof. unfold Qdiv. apply Qmult_0_l. Qed.

(** With a speed of zero everywhere the shaft energies are zero. *)
Lemma zero_speed_zero_shaft self speeds gradients winds tick out :
  Forall (fun v => v == 0) speeds ->
  Motor.motor_output_energies self speeds gradients winds tick = Ok out ->
  Forall (fun e => e == 0) out.
Proof.
  intros Hz H. unfold Motor.motor_output_energies in H.
  cbv zeta in H. bind_inv H. bind_inv H. bind_inv H. bind_inv H.
  injection H as <-.
  assert (Hang : Forall (fun w => w == 0) v).
  { eapply (broadcast2_Forall _ _ (fun _ => True) (fun w => w == 0)); [| | |exact E].
    - intros a b _ Hb. rewrite Hb. apply Qmult_0_r.
    - apply Forall_forall. auto.
    - rewrite map_map. apply Forall_map. eapply Forall_impl; [|exact Hz].
      simpl. intros a Ha. rewrite Ha. rewrite Qdiv_0_l. apply Qdiv_0_l. }
  apply Forall_map.
  eapply (broadcast2_Forall _ _ (fun w => w == 0) (fun _ => True)); [| | |exact E2].
  - intros a b Ha _. simpl. rewrite Ha. rewrite Qmult_0_l. apply Qmult_0_l.
  - exact Hang.
  - apply Forall_forall. auto.
Qed.

(** C8. At speed zero (a scalar 0, or an array of zeros) the motor model
    returns zero energy for every gradient, wind speed and tick length;
    and for a scalar 0 the call does return, one value per gradient, when
    gradients and wind speeds have the same shape. *)
Theorem zero_speed_zero_energy (self : Motor.BasicMotor)
  (speeds gradients winds : list Q) (tick : Q) :
  Forall (fun v => v == 0) speeds ->
  (forall out,
     Motor.calculate_energy_in self speeds gradients winds tick = Ok out ->
     Forall (fun e => e == 0) out) /\
  (length gradients = length winds ->
   exists out, Motor.calculate_energy_in self [0] gradients winds tick = Ok out /\
               length out = length gradients /\
               Forall (fun e => e == 0) out).
Proof.
  intros Hz. split.
  - intros out H. unfold Motor.calculate_energy_in in H. bind_inv H.
    injection H as <-. apply Forall_map.
    eapply Forall_impl; [|eapply zero_speed_zero_shaft; eassumption].
    simpl. intros a Ha. rewrite Ha. apply Qdiv_0_l.
  - intros Hlen.
    assert (Hret : exists out,
               Motor.calculate_energy_in self [0] gradients winds tick = Ok out /\
               length out = length gradients).
    { unfold Motor.calculate_energy_in, Motor.motor_output_energies, Np.broadcast2.
      cbv zeta. simpl map.
      destruct (broadcast2_ok ValueError Qmult (repeat 1 (length gradients))
                  [0 / (36 # 10) / Motor.tire_radius self])
        as (ang & -> & Lang); [right; right; reflexivity|].
      destruct (broadcast2_ok ValueError Qplus [0 / (36 # 10)] winds)
        as (air & -> & Lair); [right; left; reflexivity|].
      cbn [bind]. simpl in Lair. rewrite repeat_length in Lang.
      destruct (broadcast2_ok ValueError Qplus
                  (map (fun d => Motor.friction_force self + d)
                       (map (Motor.drag_force self) air))
                  (map (Motor.g_force self) gradients))
        as (forces & -> & Lforces); [left; now rewrite !length_map, Lair|].
      cbn [bind]. rewrite !length_map, Lair in Lforces.
      destruct (broadcast2_ok ValueError Qmult ang forces)
        as (energies & -> & Lenergies).
      { destruct (length gradients =? 1)%nat eqn:E1.
        - apply Nat.eqb_eq in E1. left. rewrite Lang, Lforces.
          destruct (length winds =? 1)%nat; simpl; congruence.
        - left. rewrite Lang, Lforces. rewrite <- Hlen, E1. reflexivity. }
      cbn [bind]. eexists. split; [reflexivity|].
      rewrite !length_map, Lenergies, Lang.
      destruct (length gradients =? 1)%nat eqn:E1.
      - apply Nat.eqb_eq in E1. simpl. rewrite Lforces.
        destruct (length winds =? 1)%nat; simpl; congruence.
      - rewrite E1. reflexivity. }
    destruct Hret as (out & Hout & Hl). exists out. repeat split; try assumption.
    unfold Motor.calculate_energy_in in Hout. bind_inv Hout.
    injection Hout as <-. apply Forall_map.
    eapply Forall_impl; [|eapply (zero_speed_zero_shaft self [0]); [|eassumption]].
    + simpl. intros a Ha. rewrite Ha. apply Qdiv_0_l.
    + constructor; [reflexivity | constructor].
Qed.

Lemma broadcast2_singleton {A B C : Type} (e : exn) (f : A -> B -> C) l1 l2 c :
  Np.broadcast2_exn e f l1 l2 = Ok [c] ->
  exists a b, l1 = [a] /\ l2 = [b] /\ c = f a b.
Proof.
  unfold Np.broadcast2_exn. intros H.
  destruct (length l1 =? length l2)%nat eqn:E.
  - apply Nat.eqb_eq in E.
    destruct l1 as [|a [|a' t1]], l2 as [|b [|b' t2]]; try discriminate.
    injection H as <-. now exists a, b.
  - apply Nat.eqb_neq in E.
    destruct l1 as [|a [|a' t1]], l2 as [|b [|b' t2]];
      try discriminate; now elim E.
Qed.

(** The feeding relation passes through an element-wise operation. *)
Lemma broadcast2_feeds {A B C : Type} (e : exn) (f : A -> B -> C) l1 l2 out i c :
  Np.broadcast2_exn e f l1 l2 = Ok out ->
  feeds out i c ->
  exists a b, feeds l1 i a /\ feeds l2 i b /\ c = f a b.
Proof.
  intros H [Hi | ->].
  - eapply broadcast2_nth; eassumption.
  - apply broadcast2_singleton in H as (a & b & -> & -> & ->).
    exists a, b. unfold feeds. auto.
Qed.

Lemma feeds_repeat {A : Type} (x a : A) n i : feeds (repeat x n) i a -> a = x.
Proof.
  intros H. apply feeds_In in H. now apply repeat_spec in H.
Qed.

(** What [calculate_energy_in] computes at every position: the shaft
    energy over the motor efficiency, and nothing more. *)
Lemma calculate_energy_in_spec self speeds gradients winds tick out i e :
  Motor.calculate_energy_in self speeds gradients winds tick = Ok out ->
  nth_error out i = Some e ->
  exists v g w, feeds speeds i v /\ feeds gradients i g /\ feeds winds i w /\
                e == Motor.shaft_energy self v g w tick / Motor.e_m self.
Proof.
  unfold Motor.calculate_energy_in, Motor.motor_output_energies, Np.broadcast2.
  cbv zeta. intros H Hi.
  bind_inv H. bind_inv E. bind_inv E. bind_inv E. bind_inv E.
  injection E as <-. injection H as <-.
  assert (Hf : feeds (map (fun e0 => e0 / Motor.e_m self)
                          (map (fun e0 => e0 * tick) v3)) i e) by now left.
  apply feeds_map in Hf as (e1 & Hf & ->).
  apply feeds_map in Hf as (e2 & Hf & ->).
  destruct (broadcast2_feeds _ _ _ _ _ _ _ E3 Hf) as (ang & force & Hang & Hforce & ->).
  destruct (broadcast2_feeds _ _ _ _ _ _ _ E0 Hang) as (one & w & Hone & Hw & ->).
  apply feeds_repeat in Hone as ->.
  apply feeds_map in Hw as (ms & Hms & ->).
  apply feeds_map in Hms as (v & Hv & ->).
  destruct (broadcast2_feeds _ _ _ _ _ _ _ E2 Hforce) as (fd & gf & Hfd & Hgf & ->).
  apply feeds_map in Hgf as (g & Hg & ->).
  apply feeds_map in Hfd as (d & Hd & ->).
  apply feeds_map in Hd as (air & Hair & ->).
  destruct (broadcast2_feeds _ _ _ _ _ _ _ E1 Hair) as (ms' & wind & Hms' & Hwind & ->).
  apply feeds_map in Hms' as (v' & Hv' & ->).
  assert (v' = v) as ->.
  { destruct Hv as [Hv | ->]; destruct Hv' as [Hv' | Hv'].
    - congruence.
    - subst speeds. destruct i as [|[|i]]; simpl in Hv; congruence.
    - destruct i as [|[|i]]; simpl in Hv'; congruence.
    - congruence. }
  exists v, g, wind. repeat split; try assumption.
  unfold Motor.shaft_energy. rewrite Qmult_1_l. reflexivity.
Qed.

(** C5. At 36 km/h on a flat road without wind, with a one-second tick,
    [calculate_energy_in] returns the shaft energy divided by the motor
    efficiency alone; the division by the controller efficiency, which
    [calculate_power_in] followed by [update] performs, is missing. *)
Theorem energy_in_omits_controller_efficiency :
  let shaft := Motor.shaft_energy Motor.init 36 0 0 1 in
  exists e,
    Motor.calculate_energy_in Motor.init [36] [0] [0] 1 = Ok [e] /\
    e == shaft / Motor.e_m Motor.init /\
    ~ e == shaft / Motor.e_m Motor.init / Motor.e_mc Motor.init /\
    Motor.consumed_energy (Motor.update (Motor.calculate_power_in Motor.init 36 0 0) 1)
    == shaft / Motor.e_m Motor.init / Motor.e_mc Motor.init.
Proof.
  eexists. split; [vm_compute; reflexivity|].
  split; [vm_compute; reflexivity|].
  split; vm_compute; [discriminate | reflexivity].
Qed.

(** ** Cloud attenuation *)

Lemma attenuate_overcast ghi : Cloud.attenuate 100 ghi == (35 # 100) * ghi.
Proof. unfold Cloud.attenuate. field. Qed.

Lemma attenuate_clear ghi : Cloud.attenuate 0 ghi == ghi.
Proof. unfold Cloud.attenuate. field. Qed.

(** C6. The cloud law [ghi * (1 - 0.65 * cloud_cover / 100)]: 35 percent
    of the clear-sky value under full cover, the clear-sky value under no
    cover, and the two arrays of the test suite. *)
Theorem cloud_cover_to_ghi_linear_anchors :
  (forall ghi, Cloud.attenuate 100 ghi == (35 # 100) * ghi) /\
  (forall ghi, Cloud.attenuate 0 ghi == ghi) /\
  (forall cloud ghi,
     Cloud.cloud_cover_to_ghi_linear [cloud] [ghi]
     = Ok [ghi * (1 - (65 # 100) * cloud / 100)]) /\
  (exists out, Cloud.cloud_cover_to_ghi_linear [100; 100; 100] [500; 300; 100] = Ok out /\
               array_eq out [175; 105; 35]) /\
  (exists out, Cloud.cloud_cover_to_ghi_linear [80; 0; 30] [500; 300; 100] = Ok out /\
               array_eq out [240; 300; 805 # 10]).
Proof.
  split; [exact attenuate_overcast|].
  split; [exact attenuate_clear|].
  split; [reflexivity|].
  split; eexists; (split; [reflexivity|]);
    repeat constructor; vm_compute; reflexivity.
Qed.

(** ** Forecast lookup in time *)

Lemma index_of_nat {A : Type} (l : list A) (j : nat) (a : A) :
  Np.index l (Z.of_nat j) = Ok a -> nth_error l j = Some a.
Proof.
  unfold Np.index. destruct (Z.ltb_spec (Z.of_nat j) 0); [lia|].
  destruct ((0 <=? Z.of_nat j) && (Z.of_nat j <? Z.of_nat (length l)))%Z;
    [|discriminate].
  rewrite Nat2Z.id. destruct (nth_error l j); [|discriminate]. now intros [= ->].
Qed.

Lemma take_length {A : Type} (l : list A) idx : forall out,
  Np.take l idx = Ok out -> length out = length idx.
Proof.
  induction idx as [|c t IH]; intros out H; simpl in H.
  - now injection H as <-.
  - bind_inv H. bind_inv H. injection H as <-. simpl. f_equal. now apply IH.
Qed.

Lemma take_nth {A : Type} (l : list A) idx : forall out k a,
  Np.take l idx = Ok out -> nth_error out k = Some a ->
  exists c, nth_error idx k = Some c /\ Np.index l c = Ok a.
Proof.
  induction idx as [|c t IH]; intros out k a H Hk; simpl in H.
  - injection H as <-. destruct k; discriminate.
  - bind_inv H. bind_inv H. injection H as <-. destruct k as [|k]; simpl in *.
    + injection Hk as <-. eauto.
    + eapply IH; eauto.
Qed.

Lemma mapM_length {A B : Type} (f : A -> res B) l : forall out,
  Np.mapM f l = Ok out -> length out = length l.
Proof.
  induction l as [|a t IH]; intros out H; simpl in H.
  - now injection H as <-.
  - bind_inv H. bind_inv H. injection H as <-. simpl. f_equal. now apply IH.
Qed.

Lemma mapM_nth {A B : Type} (f : A -> res B) l : forall out k b,
  Np.mapM f l = Ok out -> nth_error out k = Some b ->
  exists a, nth_error l k = Some a /\ f a = Ok b.
Proof.
  induction l as [|a t IH]; intros out k b H Hk; simpl in H.
  - injection H as <-. destruct k; discriminate.
  - bind_inv H. bind_inv H. injection H as <-. destruct k as [|k]; simpl in *.
    + injection Hk as <-. eauto.
    + eapply IH; eauto.
Qed.

Lemma mapM_feeds {A B : Type} (f : A -> res B) l out i b :
  Np.mapM f l = Ok out -> feeds out i b ->
  exists a, feeds l i a /\ f a = Ok b.
Proof.
  intros H [Hi | ->].
  - destruct (mapM_nth f l out i b H Hi) as (a & Ha & Hf). exists a. split; [now left | exact Hf].
  - pose proof (mapM_length f l _ H) as Hlen.
    destruct l as [|a [|a' t]]; try discriminate.
    destruct (mapM_nth f [a] [b] 0%nat b H eq_refl) as (a0 & [= <-] & Hf).
    exists a. split; [now right | exact Hf].
Qed.

Lemma take_feeds {A : Type} (l : list A) idx out i a :
  Np.take l idx = Ok out -> feeds out i a ->
  exists c, feeds idx i c /\ Np.index l c = Ok a.
Proof.
  intros H [Hi | ->].
  - destruct (take_nth l idx out i a H Hi) as (c & Hc & Hl). exists c. split; [now left | exact Hl].
  - pose proof (take_length l idx _ H) as Hlen.
    destruct idx as [|c [|c' t]]; try discriminate.
    destruct (take_nth l [c] [a] 0%nat a H eq_refl) as (c0 & [= <-] & Hl).
    exists c. split; [now right | exact Hl].
Qed.

(** [argmin_from] keeps a least element of what it has seen. *)
Lemma argmin_from_spec l : forall seen best besti,
  nth_error (seen ++ l) besti = Some best ->
  Forall (fun y => best <= y) seen ->
  exists x, nth_error (seen ++ l) (Np.argmin_from best besti (length seen) l) = Some x /\
            Forall (fun y => x <= y) (seen ++ l).
Proof.
  induction l as [|x t IH]; intros seen best besti Hb Hseen; simpl.
  - exists best. rewrite app_nil_r in *. auto.
  - replace (seen ++ x :: t) with ((seen ++ [x]) ++ t) in * by now rewrite <- app_assoc.
    replace (S (length seen)) with (length (seen ++ [x]))
      by (rewrite length_app; simpl; lia).
    unfold Np.ltb. destruct (Qle_bool best x) eqn:E; simpl.
    + apply IH; [exact Hb|]. apply Forall_app. split; [exact Hseen|].
      constructor; [now apply Qle_bool_iff | constructor].
    + assert (Hlt : x < best).
      { apply Qnot_le_lt. intros Hle. apply Qle_bool_iff in Hle. congruence. }
      apply IH.
      * rewrite nth_error_app1 by (rewrite length_app; simpl; lia).
        rewrite nth_error_app2 by lia. now rewrite Nat.sub_diag.
      * apply Forall_app. split.
        -- eapply Forall_impl; [|exact Hseen]. simpl. intros y Hy.
           apply Qlt_le_weak. eapply Qlt_le_trans; eassumption.
        -- constructor; [apply Qle_refl | constructor].
Qed.

Lemma argmin_spec l j :
  Np.argmin l = Ok j ->
  exists x, nth_error l j = Some x /\ Forall (fun y => x <= y) l.
Proof.
  destruct l as [|x t]; [discriminate|]. simpl. intros [= <-].
  apply (argmin_from_spec t [x] x 0%nat); [reflexivity|].
  constructor; [apply Qle_refl | constructor].
Qed.

(** What the forecast lookup returns at every position: the entry of the
    queried point at the time index that is nearest on the clock of the
    first queried point. *)
Lemma forecast_in_time_spec self indices ts rows i row :
  WeatherModel.get_weather_forecast_in_time self indices ts = Ok rows ->
  nth_error rows i = Some row ->
  exists c0 first c entries t j at_first,
    nth_error indices 0 = Some c0 /\
    Np.index (weather_forecast self) c0 = Ok first /\
    feeds indices i c /\
    Np.index (weather_forecast self) c = Ok entries /\
    feeds ts i t /\
    nth_error entries j = Some row /\
    nth_error first j = Some at_first /\
    forall other, In other first ->
      Qabs (t - dt_local at_first) <= Qabs (t - dt_local other).
Proof.
  unfold WeatherModel.get_weather_forecast_in_time. intros H Hi.
  bind_inv H. bind_inv H. cbv zeta in H. bind_inv H. bind_inv H.
  destruct (mapM_nth _ _ _ _ _ H Hi) as ([a j] & Hp & Hrow).
  bind_inv Hrow. apply index_of_nat in Hrow, E3.
  destruct (broadcast2_nth _ _ _ _ _ _ _ E2 Hp) as (a' & j' & Ha & Hj & [= <- <-]).
  (* the first queried point *)
  apply index_of_nat with (j := 0%nat) in E0.
  destruct (take_nth _ _ _ _ _ E E0) as (c0 & Hc0 & Hfirst).
  (* the point of this query *)
  assert (Hfull : feeds v i v3).
  { destruct Ha as [Ha | Ha].
    - left. rewrite nth_error_seq in Ha.
      destruct (Nat.ltb_spec i (length v)); [|discriminate].
      injection Ha as <-. exact E3.
    - right. destruct v as [|e [|e' tl]]; try discriminate.
      injection Ha as <-. simpl in E3. now injection E3 as <-. }
  destruct (take_feeds _ _ _ _ _ E Hfull) as (c & Hc & Hentries).
  (* the time index *)
  destruct (mapM_feeds _ _ _ _ _ E1 Hj) as (t & Ht & Harg).
  unfold WeatherModel.closest_time_stamp_index in Harg.
  apply argmin_spec in Harg as (x & Hx & Hmin).
  rewrite !nth_error_map in Hx.
  destruct (nth_error v0 j) as [at_first|] eqn:Eat; [|discriminate].
  injection Hx as <-.
  exists c0, v0, c, v3, t, j, at_first. repeat split; try assumption.
  intros other Hin. rewrite Forall_forall in Hmin. apply Hmin.
  rewrite map_map. apply in_map_iff. eauto.
Qed.

(** Where every queried point keeps the clock of the first one, the row
    returned is a nearest one among the point's own entries. *)
Lemma forecast_in_time_nearest_on_shared_clock self indices ts rows i row :
  WeatherModel.get_weather_forecast_in_time self indices ts = Ok rows ->
  nth_error rows i = Some row ->
  exists c0 first c entries t,
    nth_error indices 0 = Some c0 /\
    Np.index (weather_forecast self) c0 = Ok first /\
    feeds indices i c /\
    Np.index (weather_forecast self) c = Ok entries /\
    feeds ts i t /\
    (map dt_local entries = map dt_local first -> nearest_in_time entries t row).
Proof.
  intros H Hi.
  destruct (forecast_in_time_spec _ _ _ _ _ _ H Hi)
    as (c0 & first & c & entries & t & j & at_first
        & Hc0 & Hfirst & Hc & Hentries & Ht & Hrow & Hat & Hmin).
  exists c0, first, c, entries, t.
  do 5 (split; [assumption|]).
  intros Hclock. split; [eapply nth_error_In; eassumption|].
  intros other Hin.
  assert (Hrow' : dt_local row = dt_local at_first).
  { apply (f_equal (fun l => nth_error l j)) in Hclock.
    rewrite !nth_error_map, Hrow, Hat in Hclock. simpl in Hclock. congruence. }
  apply In_nth_error in Hin as (k & Hk).
  assert (Hother : exists o, nth_error first k = Some o /\ dt_local o = dt_local other).
  { apply (f_equal (fun l => nth_error l k)) in Hclock.
    rewrite !nth_error_map, Hk in Hclock. simpl in Hclock.
    destruct (nth_error first k) as [o|]; [|discriminate].
    exists o. split; [reflexivity|]. simpl in Hclock. congruence. }
  destruct Hother as (o & Ho & Heq).
  rewrite Hrow', <- Heq. apply Hmin. eapply nth_error_In; eassumption.
Qed.

(** C7. Two weather points one hour of time zone apart, eight daily
    entries each; the queries are (point 0, local time 0) and (point 1,
    local time 23400).  The row returned for the second query is the
    entry of point 1 at local time -21600, which is 45000 seconds away,
    although the entry of point 1 at local time 64800 is only 41400
    seconds away: the time index is chosen on the local times of the first
    queried point. *)
Theorem forecast_in_time_reads_first_point_clock :
  let entries1 := Scenario.daily 1 (-21600) in
  exists row0 row1,
    WeatherModel.get_weather_forecast_in_time Scenario.two_zones [0; 1]%Z [0; 23400]
    = Ok [row0; row1] /\
    In row1 entries1 /\
    dt_local row1 == -21600 /\
    ~ nearest_in_time entries1 23400 row1.
Proof.
  do 2 eexists. split; [vm_compute; reflexivity|].
  split; [vm_compute; auto|].
  split; [vm_compute; reflexivity|].
  intros [_ Hmin].
  specialize (Hmin (Scenario.entry 1 86400 (-21600)) ltac:(vm_compute; auto)).
  vm_compute in Hmin. apply Hmin. reflexivity.
Qed.

(** ** Simulation engine *)

(** Peel every bind of a run that returned. *)
Ltac run_inv H :=
  unfold Engine.run_trace in H;
  repeat (cbv zeta in H; bind_inv H);
  cbv zeta in H.

Lemma run_simulation_calculations_trace {hp : Helpers} self speed verbose r self' :
  Engine.run_simulation_calculations self speed verbose = Ok (r, self') ->
  exists t, Engine.run_trace self speed verbose = Ok t /\
            r = tr_results t /\ self' = tr_engine t.
Proof.
  unfold Engine.run_simulation_calculations. intros Hrun. bind_inv Hrun.
  injection Hrun as <- <-. eauto.
Qed.

(** *** State of charge *)

Lemma clip1_unit x : 0 <= Np.clip1 0 1 x <= 1.
Proof.
  unfold Np.clip1. split.
  - apply Q.min_glb; [apply Q.le_max_r | discriminate].
  - apply Q.le_min_r.
Qed.

Lemma snap_spec x :
  0 <= x <= 1 ->
  0 <= Engine.snap x <= 1 /\ (Qabs (Engine.snap x) < 1 # 1000 -> Engine.snap x = 0).
Proof.
  intros Hx. unfold Engine.snap, Np.ltb.
  destruct (Qle_bool (1 # 1000) (Qabs x)) eqn:E; simpl.
  - split; [exact Hx|]. intros Hlt. apply Qle_bool_iff in E.
    exfalso. apply (Qlt_not_le _ _ Hlt E).
  - split; [split; discriminate | reflexivity].
Qed.

Lemma soc_series_spec battery deltas :
  Forall (fun s => 0 <= s <= 1 /\ (Qabs s < 1 # 1000 -> s = 0))
         (map Engine.snap (Battery.update_array battery deltas)).
Proof.
  unfold Battery.update_array. rewrite map_map. apply Forall_forall.
  intros s Hs. apply in_map_iff in Hs as (e & <- & _).
  apply snap_spec, clip1_unit.
Qed.

(** C2. In the result of every run each state-of-charge value lies in
    [0, 1] and is exactly 0 as soon as its magnitude is below 1e-3; the
    reported series is the one that gated the reported speed. *)
Theorem soc_clamped_and_snapped {hp : Helpers} self speed verbose r self' :
  Engine.run_simulation_calculations self speed verbose = Ok (r, self') ->
  Forall (fun s => 0 <= s <= 1 /\ (Qabs s < 1 # 1000 -> s = 0))
         (arr_state_of_charge r) /\
  exists curfew_speed,
    Engine.gate_speed verbose (Engine.not_charge self) (arr_state_of_charge r)
      curfew_speed = Ok (arr_speed_kmh r).
Proof.
  intros Hrun. apply run_simulation_calculations_trace in Hrun as (t & Hrun & -> & _).
  run_inv Hrun. injection Hrun as <-. simpl. split.
  - apply soc_series_spec.
  - eauto.
Qed.

(** *** Curfew *)






Lemma flat_map_repeat_length {A : Type} (n : nat) (l : list A) :
  length (flat_map (fun h => repeat h n) l) = (n * length l)%nat.
Proof.
  induction l as [|a t IH]; simpl; [lia|].
  rewrite length_app, repeat_length, IH. lia.
Qed.








(** *** Arrival *)

Lemma where_eq_first l v : forall o k,
  first_arrival l v k ->
  exists rest, Np.where_eq_from o l v = (o + k)%nat :: rest.
Proof.
  induction l as [|x t IH]; intros o k [(d & Hd & Hdv) Hfirst].
  - destruct k; discriminate.
  - simpl. destruct k as [|k].
    + injection Hd as ->. apply Qeq_bool_iff in Hdv. rewrite Hdv.
      rewrite Nat.add_0_r. eauto.
    + destruct (Qeq_bool x v) eqn:Ex.
      * apply Qeq_bool_iff in Ex. elim (Hfirst 0%nat x); [lia | reflexivity | exact Ex].
      * destruct (IH (S o) k) as (rest & ->).
        { split; [eauto|]. intros j d' Hj Hd'. apply (Hfirst (S j) d'); [lia | exact Hd']. }
        rewrite Nat.add_succ_r. eauto.
Qed.

Lemma freeze_after_zero k tim i x :
  (k <= i)%nat -> nth_error (Engine.freeze_after k tim) i = Some x -> x = 0.
Proof.
  unfold Engine.freeze_after. intros Hk Hx.
  rewrite nth_error_app2 in Hx by (rewrite length_firstn; lia).
  rewrite nth_error_map in Hx.
  destruct (nth_error (skipn k tim) _); [|discriminate]. now injection Hx as <-.
Qed.

Lemma clip_upper l lo hi : Forall (fun d => d <= hi) (Np.clip l lo hi).
Proof.
  unfold Np.clip. apply Forall_map, Forall_forall. intros x _.
  unfold Np.clip1. apply Q.le_min_r.
Qed.

(** C4. In every run the reported cumulative distance never exceeds the
    route length, and from the first tick [k] at which it equals the
    route length on, time in motion is 0 at every later tick; the time
    taken is the sum of that time-in-motion array. *)
Theorem arrival_freezes_motion {hp : Helpers} self speed verbose t :
  Engine.run_trace self speed verbose = Ok t ->
  Forall (fun d => d <= route_length (tr_engine t)) (arr_distances (tr_results t)) /\
  (forall k, first_arrival (arr_distances (tr_results t)) (route_length (tr_engine t)) k ->
     forall i x, (k < i)%nat -> nth_error (tr_time_in_motion t) i = Some x -> x = 0) /\
  time_taken (tr_results t) = Np.astype_int (Np.sum (tr_time_in_motion t)).
Proof.
  intros Hrun. run_inv Hrun. injection Hrun as <-. simpl.
  split; [apply clip_upper|]. split; [|reflexivity].
  intros k Hk i x Hi Hx.
  unfold Engine.max_dist_index, Np.where_eq in Hx.
  destruct (where_eq_first _ _ 0%nat k Hk) as (rest & Hw).
  rewrite Hw in Hx. simpl in Hx.
  eapply freeze_after_zero; [|exact Hx]. lia.
Qed.

(** *** Runs and engine state *)

Lemma run_trace_forget {hp : Helpers} self speed verbose :
  Engine.run_trace (forget_run_state self) speed verbose
  = Engine.run_trace self speed verbose.
Proof. destruct self. reflexivity. Qed.

Lemma same_models_forget a b :
  same_models a b -> forget_run_state a = forget_run_state b.
Proof.
  destruct a, b. unfold same_models, forget_run_state. simpl.
  intros (-> & -> & -> & -> & -> & -> & -> & -> & -> & -> & -> & -> & -> & -> & -> & ->).
  reflexivity.
Qed.

Lemma same_models_set_route_length self r :
  same_models self (Engine.set_route_length self r).
Proof. unfold same_models. simpl. repeat split. Qed.

(** A run reads nothing a run has written. *)
Lemma run_same_models {hp : Helpers} a b speed verbose :
  same_models a b ->
  Engine.run_simulation_calculations a speed verbose
  = Engine.run_simulation_calculations b speed verbose.
Proof.
  intros Hab. unfold Engine.run_simulation_calculations.
  rewrite <- (run_trace_forget a), <- (run_trace_forget b).
  now rewrite (same_models_forget a b Hab).
Qed.

Lemma run_model_same_models {hp : Helpers} a b speed verbose :
  same_models a b ->
  Engine.run_model a speed verbose = Engine.run_model b speed verbose.
Proof.
  intros Hab. unfold Engine.run_model.
  rewrite (run_same_models a b _ _ Hab).
  destruct Hab as (_ & _ & _ & -> & _). reflexivity.
Qed.

(** A run leaves the configuration and the models as they were, and it
    does write the time zones. *)
Lemma run_keeps_models {hp : Helpers} self speed verbose r self' :
  Engine.run_simulation_calculations self speed verbose = Ok (r, self') ->
  same_models self self' /\ time_zones self' <> None.
Proof.
  intros Hrun. apply run_simulation_calculations_trace in Hrun as (t & Hrun & _ & ->).
  run_inv Hrun. injection Hrun as <-. simpl. split; [|discriminate].
  unfold same_models. simpl. destruct (basic_lvs self). repeat split.
Qed.

(** C9, as amended. Two engines with the same configuration and the same
    models, whatever the fields [route_length], [time_zones] and
    [local_times] hold in each: a run on the second returns what a run on
    the first returns, for the same speed profile; the first run leaves
    configuration and models untouched, so that running again on the
    engine it leaves behind returns the same once more. *)
Theorem runs_agree {hp : Helpers} a b speed verbose r a' :
  same_models a b ->
  Engine.run_simulation_calculations a speed verbose = Ok (r, a') ->
  Engine.run_simulation_calculations b speed verbose = Ok (r, a') /\
  same_models a a' /\
  Engine.run_simulation_calculations a' speed verbose = Ok (r, a').
Proof.
  intros Hab Hrun.
  destruct (run_keeps_models _ _ _ _ _ Hrun) as [Hkeep _].
  split; [now rewrite <- (run_same_models a b)|].
  split; [exact Hkeep|].
  now rewrite <- (run_same_models a a').
Qed.

(** ** The small race, run *)

Lemma steady_run :
  exists t,
    Engine.run_trace Scenario.engine Scenario.steady false = Ok t /\
    firstn 5 (arr_distances (tr_results t)) = [0; 1 # 100; 1 # 50; 3 # 100; 30 # 1000] /\
    route_length (tr_engine t) = 30 # 1000 /\
    firstn 6 (tr_time_in_motion t) = [0; 1; 1; 0; 0; 0] /\
    nth_error (arr_speed_kmh (tr_results t)) 3599 = Some 36 /\
    nth_error (arr_speed_kmh (tr_results t)) 3600 = Some 0 /\
    nth_error (arr_state_of_charge (tr_results t)) 3600
    = Some (2234955700 # 6350000000) /\
    time_taken (tr_results t) = 2%Z.
Proof.
  assert (F : match Engine.run_trace Scenario.engine Scenario.steady false with
              | Ok t => Some (firstn 5 (arr_distances (tr_results t)),
                              route_length (tr_engine t),
                              firstn 6 (tr_time_in_motion t),
                              nth_error (arr_speed_kmh (tr_results t)) 3599,
                              nth_error (arr_speed_kmh (tr_results t)) 3600,
                              nth_error (arr_state_of_charge (tr_results t)) 3600,
                              time_taken (tr_results t))
              | Raise _ => None
              end
              = Some ([0; 1 # 100; 1 # 50; 3 # 100; 30 # 1000], 30 # 1000,
                      [0; 1; 1; 0; 0; 0], Some 36, Some 0,
                      Some (2234955700 # 6350000000), 2%Z))
    by (vm_compute; reflexivity).
  destruct (Engine.run_trace Scenario.engine Scenario.steady false) as [t|e];
    [|discriminate].
  injection F as F1 F2 F3 F4 F5 F6 F7.
  exists t. repeat split; assumption.
Qed.

Lemma steady_run_returns :
  exists r self',
    Engine.run_simulation_calculations Scenario.engine Scenario.steady false
    = Ok (r, self') /\
    nth_error (arr_speed_kmh r) 3600 = Some 0.
Proof.
  destruct steady_run as (t & Ht & _ & _ & _ & _ & Hv & _).
  exists (tr_results t), (tr_engine t).
  unfold Engine.run_simulation_calculations. rewrite Ht. auto.
Qed.



(** ** Instances of the statements *)

Lemma closest_gis_indices_monotone_bounded_witness :
  (forall out,
     GISModel.calculate_closest_gis_indices Scenario.route [0; 10; 20; 30; 40] = Ok out ->
     length out = 5%nat /\ Sorted Z.le out /\
     Forall (fun i => 0 <= i <= 4 - 2)%Z out /\
     Forall (fun i => i <= last_index (average_distances (path_distances Scenario.route)))%Z
            out) /\
  ((3 <= 4)%nat -> [0; 10; 20; 30; 40] <> [] ->
   exists out,
     GISModel.calculate_closest_gis_indices Scenario.route [0; 10; 20; 30; 40] = Ok out).
Proof.
  apply (closest_gis_indices_monotone_bounded Scenario.route [0; 10; 20; 30; 40]).
  - reflexivity.
  - repeat constructor; discriminate.
Defined.

Lemma closest_weather_indices_creep_witness :
  exists average,
    WeatherModel.weather_average_distances Scenario.forecasts = Ok average /\
    (forall out,
       WeatherModel.calculate_closest_weather_indices Scenario.forecasts
         [1000; 0; 1000; 5] = Ok out ->
       length out = 4%nat /\ Sorted Z.le out /\ creeps_from 0 out /\
       Forall (fun i => 0 <= i <= last_index average)%Z out) /\
    (average <> [] -> [1000; 0; 1000; 5] <> [] ->
     exists out,
       WeatherModel.calculate_closest_weather_indices Scenario.forecasts
         [1000; 0; 1000; 5] = Ok out).
Proof.
  exists [30 # 2; 50 # 2; 70 # 2]. split; [reflexivity|].
  apply (closest_weather_indices_creep Scenario.forecasts [1000; 0; 1000; 5]).
  reflexivity.
Defined.

Lemma zero_speed_zero_energy_witness :
  (forall out,
     Motor.calculate_energy_in Motor.init [0] [1 # 100; - (1 # 100)] [2; 3] 1 = Ok out ->
     Forall (fun e => e == 0) out) /\
  (length [1 # 100; - (1 # 100)] = length [2; 3] ->
   exists out,
     Motor.calculate_energy_in Motor.init [0] [1 # 100; - (1 # 100)] [2; 3] 1 = Ok out /\
     length out = 2%nat /\ Forall (fun e => e == 0) out).
Proof.
  apply (zero_speed_zero_energy Motor.init [0] [1 # 100; - (1 # 100)] [2; 3] 1).
  constructor; [reflexivity | constructor].
Defined.

Lemma soc_clamped_and_snapped_witness :
  exists r self',
    Engine.run_simulation_calculations Scenario.engine Scenario.steady false
    = Ok (r, self') /\
    Forall (fun s => 0 <= s <= 1 /\ (Qabs s < 1 # 1000 -> s = 0))
           (arr_state_of_charge r) /\
    exists curfew_speed,
      Engine.gate_speed false (Engine.not_charge Scenario.engine)
        (arr_state_of_charge r) curfew_speed = Ok (arr_speed_kmh r).
Proof.
  destruct steady_run_returns as (r & self' & Hrun & _).
  exists r, self'. split; [exact Hrun|].
  exact (soc_clamped_and_snapped Scenario.engine Scenario.steady false r self' Hrun).
Defined.


Lemma arrival_freezes_motion_witness :
  exists t,
    Engine.run_trace Scenario.engine Scenario.steady false = Ok t /\
    first_arrival (arr_distances (tr_results t)) (route_length (tr_engine t)) 3 /\
    nth_error (tr_time_in_motion t) 5 = Some 0 /\
    Forall (fun d => d <= route_length (tr_engine t)) (arr_distances (tr_results t)).
Proof.
  destruct steady_run as (t & Ht & Hd & Hlen & Htim & _).
  assert (Hnth : forall j, (j < 5)%nat ->
            nth_error (arr_distances (tr_results t)) j
            = nth_error [0; 1 # 100; 1 # 50; 3 # 100; 30 # 1000] j).
  { intros j Hj. rewrite <- Hd, nth_error_firstn.
    destruct (Nat.ltb_spec j 5); [reflexivity | lia]. }
  assert (Hfirst : first_arrival (arr_distances (tr_results t))
                     (route_length (tr_engine t)) 3).
  { rewrite Hlen. split.
    - exists (3 # 100). split; [rewrite Hnth by lia; reflexivity | reflexivity].
    - intros j d Hj Hjd. rewrite Hnth in Hjd by lia.
      destruct j as [|[|[|j]]]; [| | |lia]; injection Hjd as <-; discriminate. }
  assert (H5 : nth_error (tr_time_in_motion t) 5 = Some 0).
  { assert (Hcut : nth_error (firstn 6 (tr_time_in_motion t)) 5
                   = nth_error (tr_time_in_motion t) 5)
      by (rewrite nth_error_firstn; reflexivity).
    rewrite <- Hcut, Htim. reflexivity. }
  exists t. split; [exact Ht|]. split; [exact Hfirst|]. split; [exact H5|].
  destruct (arrival_freezes_motion Scenario.engine Scenario.steady false t Ht)
    as (Hclamp & Hfreeze & _).
  pose proof (Hfreeze 3%nat Hfirst 5%nat 0 ltac:(lia) H5) as _.
  exact Hclamp.
Defined.

Lemma runs_agree_witness :
  exists r a',
    Engine.run_simulation_calculations Scenario.engine Scenario.steady false
    = Ok (r, a') /\
    Engine.run_simulation_calculations
      (Engine.set_route_length Scenario.engine 7) Scenario.steady false
    = Ok (r, a') /\
    Engine.run_simulation_calculations a' Scenario.steady false = Ok (r, a').
Proof.
  destruct steady_run_returns as (r & a' & Hrun & _).
  exists r, a'. split; [exact Hrun|].
  destruct (runs_agree Scenario.engine (Engine.set_route_length Scenario.engine 7)
              Scenario.steady false r a') as (Hb & _ & Hagain).
  - apply same_models_set_route_length.
  - exact Hrun.
  - split; assumption.
Defined.

(** C9, as stated, fails: the run on the small race leaves an engine that
    differs from the one it started on, in the fields [route_length] and
    [time_zones]. *)
Lemma run_writes_engine_fields :
  exists r self',
    Engine.run_simulation_calculations Scenario.engine Scenario.steady false
    = Ok (r, self') /\
    self' <> Scenario.engine /\
    route_length Scenario.engine = 0 /\ route_length self' = 30 # 1000 /\
    time_zones Scenario.engine = None /\ time_zones self' <> None.
Proof.
  destruct steady_run as (t & Ht & _ & Hlen & _).
  exists (tr_results t), (tr_engine t).
  assert (Hrun : Engine.run_simulation_calculations Scenario.engine Scenario.steady false
                 = Ok (tr_results t, tr_engine t))
    by (unfold Engine.run_simulation_calculations; now rewrite Ht).
  destruct (run_keeps_models _ _ _ _ _ Hrun) as [_ Htz].
  split; [exact Hrun|]. split.
  - intros Heq. rewrite Heq in Htz. now apply Htz.
  - repeat split; assumption.
Qed.

(** * Further properties *)

(** ** The two cursor loops *)

Lemma cursor_steps_agree average current d :
  (0 <= current <= last_index average)%Z ->
  GISModel.step average current d = WeatherModel.step average current d.
Proof.
  intros Hc. unfold GISModel.step, WeatherModel.step.
  destruct (Z.gtb_spec current (last_index average)); [lia|].
  reflexivity.
Qed.

Lemma cursor_loops_agree_from average queries : forall current,
  (0 <= current <= last_index average)%Z ->
  GISModel.loop average current queries = WeatherModel.loop average current queries.
Proof.
  induction queries as [|d t IH]; intros current Hc; simpl; [reflexivity|].
  rewrite <- cursor_steps_agree by assumption.
  destruct (gis_step_inv average current d Hc) as (c & -> & Hcc & Hcl). simpl.
  rewrite IH by lia. reflexivity.
Qed.

(** X1. Route and weather index mappings run the same cursor: on every
    midpoint array and every query array the loop of
    [calculate_closest_gis_indices] and the loop of
    [calculate_closest_weather_indices] return the same indices, or raise
    the same error. *)
Theorem cursor_loops_agree (average queries : list Q) :
  GISModel.loop average 0%Z queries = WeatherModel.loop average 0%Z queries.
Proof.
  destruct average as [|a av].
  - destruct queries as [|d t]; [reflexivity|].
    now rewrite gis_loop_nil_average, weather_loop_nil_average.
  - apply cursor_loops_agree_from. unfold last_index. simpl length. lia.
Qed.

(** ** The route cursor never runs ahead *)

Lemma index_nonneg {A : Type} (l : list A) (i : Z) (a : A) :
  (0 <= i)%Z -> Np.index l i = Ok a -> nth_error l (Z.to_nat i) = Some a.
Proof.
  intros Hi H. rewrite <- (Z2Nat.id i Hi) in H. now apply index_of_nat.
Qed.

Lemma gis_step_cases average current d c :
  (0 <= current <= last_index average)%Z ->
  GISModel.step average current d = Ok c ->
  c = current \/
  (c = (current + 1)%Z /\
   exists b, nth_error average (Z.to_nat current) = Some b /\ b < d).
Proof.
  intros Hc H. unfold GISModel.step in H. bind_inv H. injection H as <-.
  apply index_nonneg in E; [|lia].
  unfold Np.gtb. destruct (Qle_bool d v) eqn:Ele; simpl; [now left|].
  destruct (Z.gtb_spec current (last_index average)); [lia|].
  destruct (Z.gtb_spec (current + 1) (last_index average)); [left; lia|].
  right. split; [reflexivity|]. exists v. split; [exact E|].
  apply Qnot_le_lt. intros Hle. apply Qle_bool_iff in Hle. congruence.
Qed.

Lemma gis_loop_behind average queries : forall current out,
  (0 <= current <= last_index average)%Z ->
  StronglySorted Qle queries ->
  behind average current queries ->
  GISModel.loop average current queries = Ok out ->
  forall i k d, nth_error out i = Some k -> nth_error queries i = Some d ->
    (0 < k)%Z ->
    exists b, nth_error average (Z.to_nat (k - 1)) = Some b /\ b < d.
Proof.
  induction queries as [|d0 t IH]; intros current out Hc Hs Hb H i k d Hk Hd Hpos.
  - destruct i; discriminate.
  - simpl in H. bind_inv H. bind_inv H. injection H as <-.
    destruct (gis_step_inv average current d0 Hc) as (c & Hstep & Hcc & Hcl).
    rewrite Hstep in E. injection E as <-.
    inversion Hs as [|x l Hs' Hall]; subst.
    assert (Hb' : behind average c (d0 :: t)).
    { destruct (gis_step_cases _ _ _ _ Hc Hstep) as [-> | [-> (b & Hnb & Hlt)]];
        [exact Hb|].
      intros _. exists b. replace (current + 1 - 1)%Z with current by lia.
      split; [exact Hnb|]. constructor; [exact Hlt|].
      eapply Forall_impl; [|exact Hall]. simpl. intros y Hy.
      eapply Qlt_le_trans; eassumption. }
    destruct i as [|i]; simpl in Hk, Hd.
    + injection Hk as <-. injection Hd as <-.
      destruct (Hb' Hpos) as (b & Hnb & Hall'). exists b. split; [exact Hnb|].
      now inversion Hall'.
    + eapply (IH c v0); try eassumption; [lia|].
      intros Hc0. destruct (Hb' Hc0) as (b & Hnb & Hall'). exists b.
      split; [exact Hnb|]. now inversion Hall'.
Qed.

(** X2. For non-decreasing cumulative distances the route index never
    runs ahead of the vehicle: whenever the index returned for a query is
    k > 0, that query lies beyond midpoint boundary k-1.  (It may lag
    behind: the cursor moves by at most one per query.) *)
Theorem closest_gis_index_never_ahead (self : GIS) (cds : list Q) (out : list Z)
  (i : nat) (k : Z) (d : Q) :
  Sorted Qle cds ->
  GISModel.calculate_closest_gis_indices self cds = Ok out ->
  nth_error out i = Some k ->
  nth_error cds i = Some d ->
  (0 < k)%Z ->
  exists b,
    nth_error (average_distances (path_distances self)) (Z.to_nat (k - 1)) = Some b /\
    b < d.
Proof.
  intros Hs H Hk Hd Hpos.
  unfold GISModel.calculate_closest_gis_indices in H. bind_inv H.
  apply nditer_ok in E as [-> Hne].
  destruct (average_distances (path_distances self)) as [|a av] eqn:Ea.
  { destruct cds; [easy|]. now rewrite gis_loop_nil_average in H. }
  eapply (gis_loop_behind (a :: av) cds 0%Z out); try eassumption.
  - unfold last_index. simpl length. lia.
  - apply Sorted_StronglySorted; [|exact Hs].
    intros x y z. apply Qle_trans.
  - intros Hlt. lia.
Qed.

Lemma closest_gis_index_never_ahead_witness :
  exists b,
    nth_error (average_distances (path_distances Scenario.route)) (Z.to_nat (1 - 1))
    = Some b /\ b < 20.
Proof.
  apply (closest_gis_index_never_ahead Scenario.route [0; 10; 20; 30; 40]
           [0; 0; 1; 1; 1]%Z 2 1%Z 20).
  - repeat constructor; discriminate.
  - reflexivity.
  - reflexivity.
  - reflexivity.
  - lia.
Defined.

(** ** Advancing the vehicle along the route *)

(** The loop equation of [walk]: the fuel never runs out. *)
Lemma walk_unfold pd add index :
  GISMore.walk pd (GISMore.walk_fuel pd index) add index
  = if Np.gtb add 0
    then d <- Np.index pd index ;;
         GISMore.walk pd (GISMore.walk_fuel pd (index + 1)) (add - d) (index + 1)
    else Ok (add, index).
Proof.
  unfold GISMore.walk_fuel.
  destruct (Z.to_nat (Z.of_nat (length pd) - index)) as [|f] eqn:Ef; simpl.
  - destruct (Np.gtb add 0); [|reflexivity].
    unfold Np.index.
    destruct (Z.ltb_spec index 0); [lia|].
    destruct (Z.leb_spec 0 index); [|lia].
    destruct (Z.ltb_spec index (Z.of_nat (length pd))); [lia|]. reflexivity.
  - destruct (Np.gtb add 0); [|reflexivity].
    destruct (Np.index pd index) as [d|e] eqn:Ei; [|reflexivity]. simpl.
    replace (Z.to_nat (Z.of_nat (length pd) - (index + 1))) with f by lia.
    reflexivity.
Qed.

Lemma total_firstn_succ pd k d :
  nth_error pd k = Some d ->
  total (firstn (S k) pd) == total (firstn k pd) + d.
Proof.
  revert k. induction pd as [|x t IH]; intros k H.
  - destruct k; discriminate.
  - destruct k as [|k]; simpl in *.
    + injection H as ->. ring.
    + rewrite (IH k H). unfold total. simpl. ring.
Qed.

Lemma gtb_true a b : Np.gtb a b = true -> b < a.
Proof.
  unfold Np.gtb. intros H. apply Qnot_le_lt. intros Hle.
  apply Qle_bool_iff in Hle. rewrite Hle in H. discriminate.
Qed.

Lemma gtb_false a b : Np.gtb a b = false -> a <= b.
Proof.
  unfold Np.gtb. intros H. apply Qle_bool_iff.
  destruct (Qle_bool a b); [reflexivity | discriminate].
Qed.

Lemma gtb_lt a b : b < a -> Np.gtb a b = true.
Proof.
  intros H. unfold Np.gtb. destruct (Qle_bool a b) eqn:E; [|reflexivity].
  apply Qle_bool_iff in E. exfalso. apply (Qlt_not_le _ _ H E).
Qed.

Lemma gtb_le a b : a <= b -> Np.gtb a b = false.
Proof.
  intros H. unfold Np.gtb. apply Qle_bool_iff in H. now rewrite H.
Qed.

(** What a walk that returns has done. *)
Lemma walk_spec pd : forall fuel add index add' index',
  (0 <= index)%Z ->
  GISMore.walk pd fuel add index = Ok (add', index') ->
  (index <= index')%Z /\
  add' <= 0 /\
  total (firstn (Z.to_nat index') pd) + add'
  == total (firstn (Z.to_nat index) pd) + add /\
  ((index < index')%Z ->
   exists seg, nth_error pd (Z.to_nat (index' - 1)) = Some seg /\ 0 < add' + seg).
Proof.
  induction fuel as [|f IH]; intros add index add' index' Hi H; simpl in H.
  - destruct (Np.gtb add 0) eqn:Eg.
    + bind_inv H. discriminate.
    + injection H as <- <-. apply gtb_false in Eg.
      split; [lia|]. split; [exact Eg|]. split; [reflexivity | lia].
  - destruct (Np.gtb add 0) eqn:Eg.
    + bind_inv H. apply index_nonneg in E; [|exact Hi].
      destruct (IH (add - v) (index + 1)%Z add' index' ltac:(lia) H)
        as (Hle & Hneg & Hsum & Hseg).
      split; [lia|]. split; [exact Hneg|]. split.
      * rewrite Hsum. replace (Z.to_nat (index + 1)) with (S (Z.to_nat index)) by lia.
        rewrite (total_firstn_succ _ _ _ E). ring.
      * intros _. destruct (Z.eq_dec index' (index + 1)) as [-> | Hne].
        -- exists v. replace (index + 1 - 1)%Z with index by lia. split; [exact E|].
           assert (Heq : add' == add - v).
           { apply (Qplus_inj_l _ _ (total (firstn (Z.to_nat (index + 1)) pd))).
             rewrite Hsum. ring. }
           rewrite Heq. apply gtb_true in Eg. lra.
        -- apply Hseg. lia.
    + injection H as <- <-. apply gtb_false in Eg.
      split; [lia|]. split; [exact Eg|]. split; [reflexivity | lia].
Qed.

(** X3. A call of [update_vehicle_position] that moves the vehicle
    (remainder plus increment positive, index not negative) and returns
    conserves distance: the route before the new segment plus the new
    remainder is the route before the old segment plus the old remainder
    plus the increment.  The index does not decrease, the returned index
    is the stored one, and the new remainder lies in (0, length of the
    new segment]. *)
Theorem update_vehicle_position_conserves (self : GIS) (state state' : Vehicle)
  (incremental_distance : Q) (j : Z) :
  (0 <= current_index state)%Z ->
  0 < distance_remainder state + incremental_distance ->
  GISMore.update_vehicle_position self state incremental_distance = Ok (j, state') ->
  j = current_index state' /\
  (current_index state <= j)%Z /\
  route_before self j + distance_remainder state'
  == route_before self (current_index state) + distance_remainder state
     + incremental_distance /\
  exists seg, nth_error (path_distances self) (Z.to_nat j) = Some seg /\
              0 < distance_remainder state' <= seg.
Proof.
  intros Hi Hpos H. unfold GISMore.update_vehicle_position in H.
  cbv zeta in H. bind_inv H. destruct v as [add' index']. simpl in H.
  bind_inv H. injection H as <- <-. simpl.
  pose proof E as Ew. rewrite walk_unfold in Ew.
  rewrite (gtb_lt _ _ Hpos) in Ew. bind_inv Ew.
  assert (Hi1 : (0 <= current_index state + 1)%Z) by lia.
  destruct (walk_spec _ _ _ _ _ _ Hi1 Ew) as (Hle1 & _).
  destruct (walk_spec _ _ _ _ _ _ Hi E) as (Hle & Hneg & Hsum & Hseg).
  destruct (Hseg ltac:(lia)) as (seg & Hnth & Hgt).
  apply index_nonneg in E0; [|lia]. rewrite Hnth in E0. injection E0 as <-.
  split; [reflexivity|]. split; [lia|]. split.
  - unfold route_before.
    assert (Hsucc : total (firstn (Z.to_nat index') (path_distances self))
                    == total (firstn (Z.to_nat (index' - 1)) (path_distances self)) + seg).
    { replace (Z.to_nat index') with (S (Z.to_nat (index' - 1))) by lia.
      now apply total_firstn_succ. }
    rewrite <- Qplus_assoc, <- Hsum, Hsucc. ring.
  - exists seg. split; [exact Hnth|]. split; [exact Hgt | lra].
Qed.

Lemma index_past_end {A : Type} (l : list A) (i : Z) :
  (Z.of_nat (length l) <= i)%Z -> Np.index l i = Raise IndexError.
Proof.
  intros H. unfold Np.index.
  destruct (Z.ltb_spec i 0); [lia|].
  destruct (Z.leb_spec 0 i); [|lia].
  destruct (Z.ltb_spec i (Z.of_nat (length l))); [lia | reflexivity].
Qed.

Lemma index_at {A : Type} (l : list A) (i : Z) (a : A) :
  (0 <= i)%Z -> nth_error l (Z.to_nat i) = Some a -> Np.index l i = Ok a.
Proof.
  intros Hi H. unfold Np.index.
  assert (Hlt : (Z.to_nat i < length l)%nat) by (apply nth_error_Some; congruence).
  destruct (Z.ltb_spec i 0); [lia|].
  destruct (Z.leb_spec 0 i); [|lia].
  destruct (Z.ltb_spec i (Z.of_nat (length l))); [|lia]. simpl. now rewrite H.
Qed.

Lemma skipn_cons_nth {A : Type} (l : list A) : forall k x r,
  skipn k l = x :: r -> nth_error l k = Some x /\ skipn (S k) l = r.
Proof.
  induction l as [|a t IH]; intros k x r H.
  - destruct k; discriminate.
  - destruct k as [|k]; simpl in *.
    + injection H as -> ->. auto.
    + apply IH. exact H.
Qed.

Lemma total_nonneg l : Forall (fun s => 0 <= s) l -> 0 <= total l.
Proof.
  induction 1 as [|x t Hx Ht IH]; simpl; [discriminate|]. lra.
Qed.

(** A walk returns exactly when the route from the index on is long
    enough. *)
Lemma walk_enough pd : forall rest index add,
  (0 <= index)%Z ->
  skipn (Z.to_nat index) pd = rest ->
  Forall (fun s => 0 <= s) rest ->
  (add <= total rest ->
   exists r, GISMore.walk pd (GISMore.walk_fuel pd index) add index = Ok r) /\
  (0 < add -> total rest < add ->
   GISMore.walk pd (GISMore.walk_fuel pd index) add index = Raise IndexError).
Proof.
  induction rest as [|x rest' IH]; intros index add Hi Hskip Hnn.
  - assert (Hlen : (Z.of_nat (length pd) <= index)%Z).
    { apply (f_equal (@length Q)) in Hskip. rewrite length_skipn in Hskip.
      simpl in Hskip. lia. }
    split.
    + simpl. intros Hadd. rewrite walk_unfold, (gtb_le _ _ Hadd). eauto.
    + intros Hpos _. rewrite walk_unfold, (gtb_lt _ _ Hpos).
      now rewrite index_past_end.
  - apply skipn_cons_nth in Hskip as [Hnth Hskip'].
    apply Forall_cons_iff in Hnn as [Hx Hnn'].
    assert (Hi1 : (0 <= index + 1)%Z) by lia.
    assert (Hskip1 : skipn (Z.to_nat (index + 1)) pd = rest')
      by (replace (Z.to_nat (index + 1)) with (S (Z.to_nat index)) by lia; exact Hskip').
    destruct (IH (index + 1)%Z (add - x) Hi1 Hskip1 Hnn') as [IHok IHraise].
    rewrite walk_unfold, (index_at _ _ _ Hi Hnth). cbn [bind]. simpl total.
    pose proof (total_nonneg _ Hnn') as Hrest.
    split.
    + intros Hadd. destruct (Np.gtb add 0); [|eauto].
      apply IHok. lra.
    + intros Hpos Hlt. rewrite (gtb_lt _ _ Hpos). apply IHraise; lra.
Qed.

(** X4. On a route whose segment lengths are not negative, a call that
    moves the vehicle returns exactly when the route from the current
    segment on is at least as long as remainder plus increment; beyond
    the end of the route it raises [IndexError], it does not stop at the
    destination. *)
Theorem update_vehicle_position_route_end (self : GIS) (state : Vehicle)
  (incremental_distance : Q) :
  Forall (fun s => 0 <= s) (path_distances self) ->
  (0 <= current_index state)%Z ->
  0 < distance_remainder state + incremental_distance ->
  (distance_remainder state + incremental_distance
   <= route_from self (current_index state) ->
   exists j state',
     GISMore.update_vehicle_position self state incremental_distance = Ok (j, state')) /\
  (route_from self (current_index state)
   < distance_remainder state + incremental_distance ->
   GISMore.update_vehicle_position self state incremental_distance = Raise IndexError).
Proof.
  intros Hnn Hi Hpos.
  assert (Hrest : Forall (fun s => 0 <= s)
                    (skipn (Z.to_nat (current_index state)) (path_distances self))).
  { rewrite <- (firstn_skipn (Z.to_nat (current_index state)) (path_distances self)) in Hnn.
    now apply Forall_app in Hnn. }
  destruct (walk_enough (path_distances self) _ (current_index state)
              (distance_remainder state + incremental_distance) Hi eq_refl Hrest)
    as [Hok Hraise].
  unfold GISMore.update_vehicle_position, route_from. cbv zeta. split.
  - intros Hle. destruct (Hok Hle) as ([add' index'] & Hw). rewrite Hw. cbn [bind fst snd].
    pose proof Hw as Hw1. rewrite walk_unfold, (gtb_lt _ _ Hpos) in Hw1. bind_inv Hw1.
    assert (Hi1 : (0 <= current_index state + 1)%Z) by lia.
    destruct (walk_spec _ _ _ _ _ _ Hi1 Hw1) as (Hle1 & _).
    destruct (walk_spec _ _ _ _ _ _ Hi Hw) as (_ & _ & _ & Hseg).
    destruct (Hseg ltac:(lia)) as (seg & Hnth & _).
    rewrite (index_at _ (index' - 1)%Z seg) by (assumption || lia).
    cbn [bind]. eauto.
  - intros Hlt. now rewrite (Hraise Hpos Hlt).
Qed.

(** X5. A call that adds no distance (remainder plus increment at most
    0) skips the loop and still backtracks: the index goes down by one
    and the remainder grows by the segment subscripted at the new index.
    On a fresh object (index 0, remainder 0) a zero increment therefore
    returns -1 and stores the length of the last segment as remainder. *)
Theorem update_vehicle_position_without_progress (self : GIS) (state : Vehicle)
  (incremental_distance seg : Q) :
  distance_remainder state + incremental_distance <= 0 ->
  Np.index (path_distances self) (current_index state - 1) = Ok seg ->
  GISMore.update_vehicle_position self state incremental_distance
  = Ok ((current_index state - 1)%Z,
        {| current_index := current_index state - 1;
           distance_remainder :=
             distance_remainder state + incremental_distance + seg |}).
Proof.
  intros Hle Hseg. unfold GISMore.update_vehicle_position. cbv zeta.
  rewrite walk_unfold, (gtb_le _ _ Hle). cbn [bind fst snd]. now rewrite Hseg.
Qed.

Lemma update_vehicle_position_conserves_witness :
  exists state',
    GISMore.update_vehicle_position Scenario.route GISMore.parked 15 = Ok (1%Z, state') /\
    1%Z = current_index state' /\
    (0 <= 1)%Z /\
    route_before Scenario.route 1 + distance_remainder state'
    == route_before Scenario.route 0 + 0 + 15 /\
    exists seg, nth_error (path_distances Scenario.route) 1 = Some seg /\
                0 < distance_remainder state' <= seg.
Proof.
  exists {| current_index := 1; distance_remainder := 0 + 15 - 10 - 10 + 10 |}.
  split; [reflexivity|].
  apply (update_vehicle_position_conserves Scenario.route GISMore.parked _ 15 1%Z).
  - simpl. lia.
  - reflexivity.
  - reflexivity.
Defined.

Lemma update_vehicle_position_route_end_witness :
  (exists j state',
     GISMore.update_vehicle_position Scenario.route GISMore.parked 30 = Ok (j, state')) /\
  GISMore.update_vehicle_position Scenario.route
    {| current_index := 2; distance_remainder := 5 |} 6 = Raise IndexError.
Proof.
  split.
  - apply (update_vehicle_position_route_end Scenario.route GISMore.parked 30).
    + repeat constructor; discriminate.
    + simpl. lia.
    + reflexivity.
    + vm_compute. discriminate.
  - apply (update_vehicle_position_route_end Scenario.route
             {| current_index := 2; distance_remainder := 5 |} 6).
    + repeat constructor; discriminate.
    + simpl. lia.
    + reflexivity.
    + reflexivity.
Defined.

Lemma update_vehicle_position_without_progress_witness :
  GISMore.update_vehicle_position Scenario.route GISMore.parked 0
  = Ok ((-1)%Z, {| current_index := -1; distance_remainder := 0 + 0 + 10 |}).
Proof.
  apply (update_vehicle_position_without_progress Scenario.route GISMore.parked 0 10).
  - vm_compute. discriminate.
  - reflexivity.
Defined.

(** ** Removing duplicate coordinates from a fetched route *)

Lemma where_eq_from_bound l v : forall o i,
  In i (Np.where_eq_from o l v) -> (o <= i < o + length l)%nat.
Proof.
  induction l as [|x t IH]; intros o i H; simpl in H; [contradiction|].
  destruct (Qeq_bool x v).
  - destruct H as [<- | H]; [simpl; lia|]. apply IH in H. simpl. lia.
  - apply IH in H. simpl. lia.
Qed.

Lemma where_eq_from_mem l v : forall o i,
  existsb (Nat.eqb i) (Np.where_eq_from o l v)
  = match nth_error l (i - o) with
    | Some x => (o <=? i)%nat && Qeq_bool x v
    | None => false
    end.
Proof.
  induction l as [|x t IH]; intros o i; simpl.
  - now destruct (i - o)%nat.
  - destruct (Nat.leb_spec o i) as [Hle | Hlt].
    + destruct (Nat.eq_dec i o) as [-> | Hne].
      * rewrite Nat.sub_diag. simpl.
        destruct (Qeq_bool x v) eqn:Ex; simpl.
        -- now rewrite Nat.eqb_refl.
        -- rewrite IH. replace (o - S o)%nat with 0%nat by lia.
           destruct (Nat.leb_spec (S o) o); [lia|].
           now destruct (nth_error t 0).
      * replace (i - o)%nat with (S (i - S o)) by lia. simpl.
        assert (Htail : existsb (Nat.eqb i) (Np.where_eq_from (S o) t v)
                        = match nth_error t (i - S o) with
                          | Some x0 => true && Qeq_bool x0 v
                          | None => false
                          end).
        { rewrite IH. destruct (Nat.leb_spec (S o) i); [reflexivity | lia]. }
        destruct (Qeq_bool x v); simpl; rewrite Htail;
          [destruct (Nat.eqb_spec i o); [lia | reflexivity] | reflexivity].
    + assert (Hnone : existsb (Nat.eqb i) (Np.where_eq_from (S o) t v) = false).
      { rewrite IH. destruct (nth_error t (i - S o)); [|reflexivity].
        destruct (Nat.leb_spec (S o) i); [lia | reflexivity]. }
      destruct (nth_error (x :: t) (i - o)); destruct (Qeq_bool x v); simpl;
        rewrite ?Hnone; try reflexivity;
        destruct (Nat.eqb_spec i o); try lia; reflexivity.
Qed.

Lemma filter_combine_shift {A : Type} (p : nat -> bool) (l : list A) : forall o,
  map snd (filter (fun ia => p (fst ia)) (combine (seq (S o) (length l)) l))
  = map snd (filter (fun ia => p (S (fst ia))) (combine (seq o (length l)) l)).
Proof.
  induction l as [|a t IH]; intros o; simpl; [reflexivity|].
  destruct (p (S o)); simpl; now rewrite IH.
Qed.

Lemma filter_ext_fst {A : Type} (p q : nat -> bool) (l : list (nat * A)) :
  (forall i, p i = q i) ->
  filter (fun ia => p (fst ia)) l = filter (fun ia => q (fst ia)) l.
Proof. intros H. apply filter_ext. intros a. apply H. Qed.

(** The rows that survive, in terms of the longitude differences. *)
Lemma survivors_keep route :
  map snd
    (filter (fun ia =>
               negb match nth_error (Np.diff (map snd route)) (fst ia) with
                    | Some x => Qeq_bool x 0
                    | None => false
                    end)
            (combine (seq 0 (length route)) route))
  = keep_longitude_changes route.
Proof.
  induction route as [|a t IH]; [reflexivity|].
  destruct t as [|b t'].
  - reflexivity.
  - change (Np.diff (map snd (a :: b :: t')))
      with ((snd b - snd a) :: Np.diff (map snd (b :: t'))).
    change (keep_longitude_changes (a :: b :: t'))
      with (if Qeq_bool (snd b - snd a) 0
            then keep_longitude_changes (b :: t')
            else a :: keep_longitude_changes (b :: t')).
    cbn [length seq combine filter fst nth_error].
    rewrite <- IH.
    set (p := fun i => negb match nth_error ((snd b - snd a)
                                             :: Np.diff (map snd (b :: t'))) i with
                            | Some x => Qeq_bool x 0
                            | None => false
                            end).
    change (filter _ (combine (seq 1 (length (b :: t'))) (b :: t')))
      with (filter (fun ia => p (fst ia)) (combine (seq 1 (length (b :: t'))) (b :: t'))).
    assert (Htail : map snd (filter (fun ia => p (fst ia))
                               (combine (seq 1 (length (b :: t'))) (b :: t')))
                    = map snd
                        (filter (fun ia =>
                                   negb match nth_error (Np.diff (map snd (b :: t')))
                                                (fst ia) with
                                        | Some x => Qeq_bool x 0
                                        | None => false
                                        end)
                                (combine (seq 0 (length (b :: t'))) (b :: t')))).
    { rewrite filter_combine_shift. reflexivity. }
    destruct (Qeq_bool (snd b - snd a) 0); simpl negb; cbv iota.
    + exact Htail.
    + cbn [map snd]. f_equal. exact Htail.
Qed.

(** X6. The removal of duplicate coordinates drops a point of the fetched
    route exactly when the next point has the same longitude, whatever
    the two latitudes are, and keeps the order of the others: the latitude
    test of the source is discarded by [and]. *)
Theorem remove_duplicate_coordinates_by_longitude (path_points : list coord) :
  GISMore.remove_duplicate_coordinates path_points
  = Ok (keep_longitude_changes path_points).
Proof.
  unfold GISMore.remove_duplicate_coordinates.
  destruct path_points as [|a t]; [reflexivity|].
  set (route := a :: t).
  unfold GISMore.where_diff_zero, GISMore.tuple_and, GISMore.delete_rows.
  cbn [concat]. rewrite app_nil_r.
  assert (Hrange : forallb (fun i => (i <? length route)%nat)
                     (Np.where_eq (Np.diff (map snd route)) 0) = true).
  { apply forallb_forall. intros i Hi. apply where_eq_from_bound in Hi.
    rewrite diff_length, length_map in Hi. apply Nat.ltb_lt.
    subst route. simpl in Hi. simpl length. unfold coord in *. lia. }
  rewrite Hrange. f_equal. rewrite <- survivors_keep.
  f_equal. apply filter_ext. intros [i p]. cbn [fst]. f_equal.
  unfold Np.where_eq. rewrite where_eq_from_mem, Nat.sub_0_r.
  destruct (nth_error (Np.diff (map snd route)) i); reflexivity.
Qed.

Lemma keep_cons2 a b t :
  keep_longitude_changes (a :: b :: t)
  = if Qeq_bool (snd b - snd a) 0
    then keep_longitude_changes (b :: t)
    else a :: keep_longitude_changes (b :: t).
Proof. reflexivity. Qed.

Lemma diff_zero_eq (x y : Q) : Qeq_bool (y - x) 0 = true <-> y == x.
Proof.
  rewrite Qeq_bool_iff. split; intros H.
  - apply (Qplus_inj_r _ _ (- x)). rewrite Qplus_opp_r. exact H.
  - rewrite H. apply Qplus_opp_r.
Qed.

Lemma keep_head t : forall b,
  exists h rest, keep_longitude_changes (b :: t) = h :: rest /\ snd h == snd b.
Proof.
  induction t as [|c t' IH]; intros b.
  - exists b, []. split; reflexivity.
  - rewrite keep_cons2. destruct (Qeq_bool (snd c - snd b) 0) eqn:E.
    + destruct (IH c) as (h & rest & -> & Hh). exists h, rest.
      split; [reflexivity|]. rewrite Hh. now apply diff_zero_eq.
    + eexists _, _. split; reflexivity.
Qed.

Lemma keep_changes route : changes_longitude (keep_longitude_changes route).
Proof.
  induction route as [|a t IH]; [exact I|].
  destruct t as [|b t']; [simpl; auto|].
  rewrite keep_cons2. destruct (Qeq_bool (snd b - snd a) 0) eqn:E; [exact IH|].
  destruct (keep_head t' b) as (h & rest & Hk & Hh).
  rewrite Hk in *. split; [|exact IH].
  intros Heq. rewrite Hh in Heq. apply diff_zero_eq in Heq. congruence.
Qed.

Lemma keep_last route d :
  last (keep_longitude_changes route) d = last route d.
Proof.
  induction route as [|a t IH]; [reflexivity|].
  destruct t as [|b t']; [reflexivity|].
  rewrite keep_cons2. destruct (Qeq_bool (snd b - snd a) 0); [exact IH|].
  destruct (keep_head t' b) as (h & rest & Hk & _).
  change (last (a :: b :: t') d) with (last (b :: t') d).
  rewrite <- IH, Hk. reflexivity.
Qed.

Lemma keep_incl route : incl (keep_longitude_changes route) route.
Proof.
  induction route as [|a t IH]; [easy|].
  destruct t as [|b t']; [apply incl_refl|].
  rewrite keep_cons2. destruct (Qeq_bool (snd b - snd a) 0).
  - now apply incl_tl.
  - apply incl_cons; [now left | now apply incl_tl].
Qed.

(** X7. After the removal of duplicate coordinates no point of the route has
    the longitude of the point that follows it, so no two consecutive
    points coincide; every point kept is a point of the fetched route,
    and the last point is always kept. *)
Theorem remove_duplicate_coordinates_result (path_points : list coord) :
  exists route,
    GISMore.remove_duplicate_coordinates path_points = Ok route /\
    changes_longitude route /\
    incl route path_points /\
    forall d, last route d = last path_points d.
Proof.
  exists (keep_longitude_changes path_points).
  split; [apply remove_duplicate_coordinates_by_longitude|].
  split; [apply keep_changes|]. split; [apply keep_incl|].
  intros d. apply keep_last.
Qed.

Lemma last_cons_default {A : Type} (t : list A) : forall b d1 d2,
  last (b :: t) d1 = last (b :: t) d2.
Proof.
  induction t as [|c t' IH]; intros b d1 d2; [reflexivity|].
  change (last (b :: c :: t') d1) with (last (c :: t') d1).
  change (last (b :: c :: t') d2) with (last (c :: t') d2).
  apply IH.
Qed.

Lemma keep_meridian lng t : forall a,
  Forall (fun p => snd p == lng) (a :: t) ->
  keep_longitude_changes (a :: t) = [last (a :: t) a].
Proof.
  induction t as [|b t' IH]; intros a H; [reflexivity|].
  apply Forall_cons_iff in H as [Ha Ht].
  pose proof Ht as Hb. apply Forall_cons_iff in Hb as [Hb _].
  rewrite keep_cons2. destruct (Qeq_bool (snd b - snd a) 0) eqn:E.
  - transitivity [last (b :: t') b]; [exact (IH b Ht)|].
    change (last (a :: b :: t') a) with (last (b :: t') a).
    f_equal. apply last_cons_default.
  - assert (Ht' : Qeq_bool (snd b - snd a) 0 = true)
      by (apply diff_zero_eq; now rewrite Ha, Hb).
    congruence.
Qed.

(** X8. A fetched route that runs along a meridian (all points on one
    longitude, latitudes arbitrary) is reduced to its last point. *)
Theorem remove_duplicate_coordinates_meridian (first : coord) (others : list coord)
  (lng : Q) :
  Forall (fun p => snd p == lng) (first :: others) ->
  GISMore.remove_duplicate_coordinates (first :: others)
  = Ok [last (first :: others) first].
Proof.
  intros H. rewrite remove_duplicate_coordinates_by_longitude.
  f_equal. exact (keep_meridian lng others first H).
Qed.

Lemma remove_duplicate_coordinates_meridian_witness :
  GISMore.remove_duplicate_coordinates [(10, 5); (11, 5); (12, 5)] = Ok [(12, 5)].
Proof.
  apply (remove_duplicate_coordinates_meridian (10, 5) [(11, 5); (12, 5)] 5).
  repeat constructor.
Defined.

(** ** The bounding box of the route *)

Lemma Qmin_cases a b : Qmin a b = a \/ Qmin a b = b.
Proof.
  unfold Qmin, GenericMinMax.gmin. destruct (a ?= b); auto.
Qed.

Lemma Qmax_cases a b : Qmax a b = a \/ Qmax a b = b.
Proof.
  unfold Qmax, GenericMinMax.gmax. destruct (a ?= b); auto.
Qed.

Lemma fold_min_spec t : forall x,
  In (fold_left Qmin t x) (x :: t) /\
  Forall (fun y => fold_left Qmin t x <= y) (x :: t).
Proof.
  induction t as [|z t IH]; intros x; simpl.
  - split; [now left|]. constructor; [apply Qle_refl | constructor].
  - destruct (IH (Qmin x z)) as [Hin Hall].
    apply Forall_cons_iff in Hall as [Hm Hall]. split.
    + destruct Hin as [Hin | Hin]; [|right; right; exact Hin].
      simpl. destruct (Qmin_cases x z) as [E | E]; [left | right; left]; congruence.
    + constructor; [|constructor; [|exact Hall]].
      * eapply Qle_trans; [exact Hm | apply Q.le_min_l].
      * eapply Qle_trans; [exact Hm | apply Q.le_min_r].
Qed.

Lemma fold_max_spec t : forall x,
  In (fold_left Qmax t x) (x :: t) /\
  Forall (fun y => y <= fold_left Qmax t x) (x :: t).
Proof.
  induction t as [|z t IH]; intros x; simpl.
  - split; [now left|]. constructor; [apply Qle_refl | constructor].
  - destruct (IH (Qmax x z)) as [Hin Hall].
    apply Forall_cons_iff in Hall as [Hm Hall]. split.
    + destruct Hin as [Hin | Hin]; [|right; right; exact Hin].
      simpl. destruct (Qmax_cases x z) as [E | E]; [left | right; left]; congruence.
    + constructor; [|constructor; [|exact Hall]].
      * eapply Qle_trans; [apply Q.le_max_l | exact Hm].
      * eapply Qle_trans; [apply Q.le_max_r | exact Hm].
Qed.

Lemma column_min_spec column :
  match column with
  | [] => GISMore.column_min column = Raise ValueError
  | _ => exists m, GISMore.column_min column = Ok m /\ In m column /\
                   Forall (fun y => m <= y) column
  end.
Proof.
  destruct column as [|x t]; [reflexivity|].
  destruct (fold_min_spec t x) as [Hin Hall]. simpl. eauto.
Qed.

Lemma column_max_spec column :
  match column with
  | [] => GISMore.column_max column = Raise ValueError
  | _ => exists m, GISMore.column_max column = Ok m /\ In m column /\
                   Forall (fun y => y <= m) column
  end.
Proof.
  destruct column as [|x t]; [reflexivity|].
  destruct (fold_max_spec t x) as [Hin Hall]. simpl. eauto.
Qed.

(** X9. [calculate_path_min_max] raises [ValueError] on an empty path;
    on any other path it returns [min_long, min_lat, max_long, max_lat]
    (longitude first) such that every point of the path lies in the box
    and each of the four bounds is the latitude or longitude of some
    point of the path. *)
Theorem calculate_path_min_max_box (self : GIS) :
  match path self with
  | [] => GISMore.calculate_path_min_max self = Raise ValueError
  | _ =>
      exists min_long min_lat max_long max_lat,
        GISMore.calculate_path_min_max self
        = Ok [min_long; min_lat; max_long; max_lat] /\
        (forall p, In p (path self) ->
           min_lat <= fst p <= max_lat /\ min_long <= snd p <= max_long) /\
        In min_lat (map fst (path self)) /\ In max_lat (map fst (path self)) /\
        In min_long (map snd (path self)) /\ In max_long (map snd (path self))
  end.
Proof.
  unfold GISMore.calculate_path_min_max.
  destruct (path self) as [|p0 ps] eqn:Ep; [reflexivity|].
  pose proof (column_min_spec (map fst (p0 :: ps))) as (a & Ea & Ia & Ha).
  pose proof (column_min_spec (map snd (p0 :: ps))) as (b & Eb & Ib & Hb).
  pose proof (column_max_spec (map fst (p0 :: ps))) as (c & Ec & Ic & Hc).
  pose proof (column_max_spec (map snd (p0 :: ps))) as (d & Ed & Id & Hd).
  rewrite Ea, Eb, Ec, Ed. cbn [bind].
  exists b, a, d, c. split; [reflexivity|].
  split; [|auto].
  intros p Hp. rewrite Forall_forall in Ha, Hb, Hc, Hd.
  repeat split.
  - apply Ha. now apply in_map.
  - apply Hc. now apply in_map.
  - apply Hb. now apply in_map.
  - apply Hd. now apply in_map.
Qed.

(** ** The heading at every point of the route *)

Lemma forward_bearings_length {hb : Bearing} path :
  length (GISMore.forward_bearings path) = pred (length path).
Proof.
  induction path as [|a t IH]; [reflexivity|].
  destruct t as [|b t']; [reflexivity|].
  change (GISMore.forward_bearings (a :: b :: t'))
    with (bearing_between a b :: GISMore.forward_bearings (b :: t')).
  simpl length in *. now rewrite IH.
Qed.

Lemma forward_bearings_nth {hb : Bearing} path : forall i a b,
  nth_error path i = Some a -> nth_error path (S i) = Some b ->
  nth_error (GISMore.forward_bearings path) i = Some (bearing_between a b).
Proof.
  induction path as [|x t IH]; intros i a b Ha Hb; [destruct i; discriminate|].
  destruct t as [|y t']; [destruct i as [|[|i]]; discriminate|].
  change (GISMore.forward_bearings (x :: y :: t'))
    with (bearing_between x y :: GISMore.forward_bearings (y :: t')).
  destruct i as [|i].
  - simpl in Ha, Hb. injection Ha as <-. injection Hb as <-. reflexivity.
  - simpl nth_error at 1. apply IH; assumption.
Qed.

(** X10. [calculate_current_heading_array] raises [IndexError] on a path
    of fewer than two points.  On a longer path it returns one bearing
    per point: at every point but the last the bearing to the next point,
    and at the last point the bearing of the point before it. *)
Theorem calculate_current_heading_array_spec {hb : Bearing} (self : GIS) :
  ((length (path self) < 2)%nat ->
   GISMore.calculate_current_heading_array self = Raise IndexError) /\
  ((2 <= length (path self))%nat ->
   exists out,
     GISMore.calculate_current_heading_array self = Ok out /\
     length out = length (path self) /\
     (forall i a b, nth_error (path self) i = Some a ->
                    nth_error (path self) (S i) = Some b ->
                    nth_error out i = Some (bearing_between a b)) /\
     nth_error out (length (path self) - 1) = nth_error out (length (path self) - 2)).
Proof.
  unfold GISMore.calculate_current_heading_array, GISMore.copy_second_to_last.
  destruct (path self) as [|a [|b t]] eqn:Ep.
  - split; [reflexivity | simpl; lia].
  - split; [reflexivity | simpl; lia].
  - split; [simpl; lia|]. intros _.
    set (p := a :: b :: t) in *.
    set (fb := GISMore.forward_bearings p).
    assert (Hlen : length fb = S (length t))
      by (unfold fb; rewrite forward_bearings_length; reflexivity).
    assert (Hhas : exists x, nth_error fb (length t) = Some x).
    { destruct (nth_error fb (length t)) eqn:E; [eauto|].
      apply nth_error_None in E. lia. }
    destruct Hhas as (x & Hx).
    assert (Hidx : Np.index (fb ++ [0]) (-2) = Ok x).
    { unfold Np.index. rewrite length_app, Hlen. simpl length.
      destruct (Z.ltb_spec (-2) 0); [|lia].
      destruct (Z.leb_spec 0 (Z.of_nat (S (length t) + 1) + -2)); [|lia].
      destruct (Z.ltb_spec (Z.of_nat (S (length t) + 1) + -2)
                  (Z.of_nat (S (length t) + 1))); [|lia].
      simpl andb. cbv iota.
      replace (Z.to_nat (Z.of_nat (S (length t) + 1) + -2)) with (length t) by lia.
      rewrite nth_error_app1 by lia. now rewrite Hx. }
    rewrite Hidx. cbn [bind]. rewrite removelast_last.
    exists (fb ++ [x]). split; [reflexivity|].
    split; [rewrite length_app, Hlen; simpl; lia|]. split.
    + intros i u v Hu Hv.
      assert (Hi : (i < length fb)%nat).
      { rewrite Hlen.
        assert (Hv' : (S i < length p)%nat) by (apply nth_error_Some; congruence).
        unfold p in Hv'. simpl in Hv'. lia. }
      rewrite nth_error_app1 by exact Hi.
      now apply forward_bearings_nth.
    + simpl length. replace (S (S (length t)) - 1)%nat with (length fb) by lia.
      replace (S (S (length t)) - 2)%nat with (length t) by lia.
      rewrite nth_error_app2 by lia. rewrite Nat.sub_diag.
      rewrite nth_error_app1 by lia. simpl. now rewrite Hx.
Qed.

Lemma calculate_current_heading_array_spec_witness :
  exists out,
    GISMore.calculate_current_heading_array Scenario.route = Ok out /\
    length out = length (path Scenario.route) /\
    (forall i a b, nth_error (path Scenario.route) i = Some a ->
                   nth_error (path Scenario.route) (S i) = Some b ->
                   nth_error out i = Some (bearing_between a b)) /\
    nth_error out (length (path Scenario.route) - 1)
    = nth_error out (length (path Scenario.route) - 2).
Proof.
  apply (proj2 (calculate_current_heading_array_spec Scenario.route)).
  simpl. lia.
Defined.

(** ** Thinning the route for the weather provider *)

Lemma every_from_nth {A : Type} (step : nat) (l : list A) : forall skip i,
  (1 <= step)%nat ->
  nth_error (Py.every_from step skip l) i = nth_error l (skip + i * step).
Proof.
  induction l as [|a t IH]; intros skip i Hs; simpl.
  - now destruct i, (skip + _)%nat.
  - destruct skip as [|skip'].
    + destruct i as [|i]; [reflexivity|]. simpl nth_error at 1.
      rewrite IH by exact Hs.
      replace (0 + S i * step)%nat with (S (step - 1 + i * step)) by lia.
      reflexivity.
    + rewrite IH by exact Hs. reflexivity.
Qed.

Lemma length_by_nth {A : Type} (l : list A) (m : nat) :
  (forall i, nth_error l i <> None <-> (i < m)%nat) -> length l = m.
Proof.
  intros H.
  destruct (Nat.lt_trichotomy (length l) m) as [Hlt | [Heq | Hgt]]; [|exact Heq|].
  - assert (Hn : nth_error l (length l) <> None) by (apply H; exact Hlt).
    exfalso. apply Hn. apply nth_error_None. lia.
  - assert (Hn : nth_error l m <> None) by (apply nth_error_Some; exact Hgt).
    apply H in Hn. lia.
Qed.

Lemma stride_count (n k i : nat) :
  (1 <= k)%nat -> (i * k < n <-> i < (n + k - 1) / k)%nat.
Proof.
  intros Hk.
  pose proof (Nat.div_mod_eq (n + k - 1) k) as Hdm.
  assert (Hr : ((n + k - 1) mod k < k)%nat) by (apply Nat.mod_upper_bound; lia).
  split; intros H; nia.
Qed.

(** X11. For a positive reduction factor k, [cull_dataset] returns the
    coordinates at positions 0, k, 2k, ... of its input: element i of the
    result is element i*k of the input, and there are ceil(N / k) of
    them.  The first coordinate is always kept; the last one is kept
    exactly when k divides N - 1.  A factor of 0 raises [ValueError]. *)
Theorem cull_dataset_stride {A : Type} (coords : list A) (k : Z) :
  (0 < k)%Z ->
  WeatherMore.cull_dataset coords 0 = Raise ValueError /\
  exists out,
    WeatherMore.cull_dataset coords k = Ok out /\
    (forall i, nth_error out i = nth_error coords (i * Z.to_nat k)) /\
    length out = ((length coords + Z.to_nat k - 1) / Z.to_nat k)%nat /\
    nth_error out 0 = nth_error coords 0 /\
    (coords <> [] ->
     ((length out - 1) * Z.to_nat k = length coords - 1
      <-> (length coords - 1) mod Z.to_nat k = 0)%nat).
Proof.
  intros Hk. split; [reflexivity|].
  unfold WeatherMore.cull_dataset, Py.slice_step.
  destruct (Z.eqb_spec k 0); [lia|]. destruct (Z.ltb_spec 0 k); [|lia].
  set (s := Z.to_nat k). assert (Hs : (1 <= s)%nat) by (unfold s; lia).
  exists (Py.every_from s 0 coords). split; [reflexivity|].
  assert (Hnth : forall i, nth_error (Py.every_from s 0 coords) i
                           = nth_error coords (i * s))
    by (intros i; now rewrite every_from_nth).
  assert (Hlen : length (Py.every_from s 0 coords)
                 = ((length coords + s - 1) / s)%nat).
  { apply length_by_nth. intros i. rewrite Hnth, nth_error_Some.
    now apply stride_count. }
  split; [exact Hnth|]. split; [exact Hlen|]. split; [now rewrite Hnth|].
  intros Hne. rewrite Hlen.
  assert (Hn : (1 <= length coords)%nat) by (destruct coords; [easy | simpl; lia]).
  replace (length coords + s - 1)%nat with ((length coords - 1) + 1 * s)%nat by lia.
  rewrite Nat.div_add by lia.
  replace ((length coords - 1) / s + 1 - 1)%nat with ((length coords - 1) / s)%nat by lia.
  pose proof (Nat.div_mod_eq (length coords - 1) s) as Hdm.
  assert (Hr : ((length coords - 1) mod s < s)%nat) by (apply Nat.mod_upper_bound; lia).
  split; intros Hdiv; nia.
Qed.

Lemma cull_dataset_stride_witness :
  WeatherMore.cull_dataset [10; 11; 12; 13; 14; 15; 16]%Z 0 = Raise ValueError /\
  exists out,
    WeatherMore.cull_dataset [10; 11; 12; 13; 14; 15; 16]%Z 3 = Ok out /\
    (forall i, nth_error out i = nth_error [10; 11; 12; 13; 14; 15; 16]%Z (i * 3)) /\
    length out = 3%nat /\
    nth_error out 0 = Some 10%Z /\
    ([10; 11; 12; 13; 14; 15; 16]%Z <> [] ->
     ((length out - 1) * 3 = 6 <-> 6 mod 3 = 0)%nat).
Proof.
  apply (cull_dataset_stride [10; 11; 12; 13; 14; 15; 16]%Z 3). lia.
Defined.

(** ** More on the motor model *)

Lemma calculate_energy_in_scalar self v g w tick :
  Motor.calculate_energy_in self [v] [g] [w] tick
  = Ok [1 * (v / (36 # 10) / Motor.tire_radius self)
        * (Motor.friction_force self
           + Motor.drag_force self (v / (36 # 10) + w)
           + Motor.g_force self g)
        * tick / Motor.e_m self].
Proof. reflexivity. Qed.

(** X12. For one speed, gradient and wind speed, the energy that
    [calculate_energy_in] returns is the energy that [calculate_power_in]
    followed by [update] stores, multiplied by the controller efficiency:
    the two paths differ by exactly the factor [e_mc], at every input. *)
Theorem energy_paths_differ_by_controller_efficiency (self : Motor.BasicMotor)
  (v g w tick : Q) :
  ~ Motor.e_mc self == 0 ->
  exists e,
    Motor.calculate_energy_in self [v] [g] [w] tick = Ok [e] /\
    e == Motor.consumed_energy (Motor.update (Motor.calculate_power_in self v g w) tick)
         * Motor.e_mc self.
Proof.
  intros Hmc. eexists. split; [apply calculate_energy_in_scalar|].
  simpl. unfold Qdiv.
  generalize (/ Motor.e_m self) (/ Motor.tire_radius self) (/ (36 # 10))
             (Motor.drag_force self (v * / (36 # 10) + w)).
  intros ie ir i36 drag. field. exact Hmc.
Qed.

Lemma energy_paths_differ_by_controller_efficiency_witness :
  exists e,
    Motor.calculate_energy_in Motor.init [50] [1 # 100] [3] 1 = Ok [e] /\
    e == Motor.consumed_energy
           (Motor.update (Motor.calculate_power_in Motor.init 50 (1 # 100) 3) 1)
         * Motor.e_mc Motor.init.
Proof.
  apply (energy_paths_differ_by_controller_efficiency Motor.init 50 (1 # 100) 3 1).
  vm_compute. discriminate.
Defined.

Lemma Qsquare_nonneg (s : Q) : 0 <= s ^ 2.
Proof.
  change (s ^ 2) with (s * s). nra.
Qed.

Lemma drag_force_init_nonneg s : 0 <= Motor.drag_force Motor.init s.
Proof.
  unfold Motor.drag_force.
  generalize (Qsquare_nonneg s). generalize (s ^ 2). intros q Hq. simpl.
  repeat apply Qmult_le_0_compat; try discriminate. exact Hq.
Qed.

Lemma shaft_energy_init_nonneg v g w tick :
  0 <= v -> 0 <= g -> 0 <= tick ->
  0 <= Motor.shaft_energy Motor.init v g w tick.
Proof.
  intros Hv Hg Ht. unfold Motor.shaft_energy, Motor.g_force. cbv zeta.
  pose proof (drag_force_init_nonneg (v / (36 # 10) + w)) as Hd.
  apply Qmult_le_0_compat; [|exact Ht].
  apply Qmult_le_0_compat.
  - unfold Qdiv. repeat apply Qmult_le_0_compat; try discriminate. exact Hv.
  - simpl. apply (Qle_trans _ (0 + 0 + 0)); [discriminate|].
    repeat apply Qplus_le_compat; try discriminate; [exact Hd|].
    repeat apply Qmult_le_0_compat; try discriminate. exact Hg.
Qed.

(** X13. With the constants of [BasicMotor.__init__], speeds and
    gradients that are not negative and a tick that is not negative, no
    energy that [calculate_energy_in] returns is negative, whatever the
    wind: the drag term is a square. *)
Theorem calculate_energy_in_nonneg (speeds gradients winds out : list Q) (tick : Q) :
  Forall (fun v => 0 <= v) speeds ->
  Forall (fun g => 0 <= g) gradients ->
  0 <= tick ->
  Motor.calculate_energy_in Motor.init speeds gradients winds tick = Ok out ->
  Forall (fun e => 0 <= e) out.
Proof.
  intros Hv Hg Ht H. apply Forall_forall. intros e He.
  apply In_nth_error in He as (i & Hi).
  destruct (calculate_energy_in_spec _ _ _ _ _ _ _ _ H Hi)
    as (v & g & w & Fv & Fg & _ & ->).
  rewrite Forall_forall in Hv, Hg.
  pose proof (shaft_energy_init_nonneg v g w tick
                (Hv v (feeds_In _ _ _ Fv)) (Hg g (feeds_In _ _ _ Fg)) Ht) as Hs.
  unfold Qdiv. apply Qmult_le_0_compat; [exact Hs | discriminate].
Qed.

Lemma calculate_energy_in_nonneg_witness :
  exists out,
    Motor.calculate_energy_in Motor.init [36; 72] [0; 1 # 20] [-(30); 4] 1 = Ok out /\
    Forall (fun e => 0 <= e) out.
Proof.
  eexists. split; [reflexivity|].
  apply (calculate_energy_in_nonneg [36; 72] [0; 1 # 20] [-(30); 4] _ 1).
  - repeat constructor; discriminate.
  - repeat constructor; discriminate.
  - discriminate.
  - reflexivity.
Defined.

(** X14. The motor model is symmetric in the air speed: a wind [w] and
    the wind [-2 * v / 3.6 - w], which gives the opposite air speed, cost
    the same energy.  A tailwind of twice the vehicle's speed thus costs
    as much as still air. *)
Theorem calculate_energy_in_wind_symmetry (self : Motor.BasicMotor) (v g w tick : Q) :
  exists e e',
    Motor.calculate_energy_in self [v] [g] [w] tick = Ok [e] /\
    Motor.calculate_energy_in self [v] [g] [- (2) * (v / (36 # 10)) - w] tick = Ok [e'] /\
    e == e'.
Proof.
  do 2 eexists. split; [apply calculate_energy_in_scalar|].
  split; [apply calculate_energy_in_scalar|].
  unfold Motor.drag_force.
  assert (Hsq : (v / (36 # 10) + (- (2) * (v / (36 # 10)) - w)) ^ 2
                == (v / (36 # 10) + w) ^ 2).
  { change ((v / (36 # 10) + (- (2) * (v / (36 # 10)) - w)) ^ 2)
      with ((v / (36 # 10) + (- (2) * (v / (36 # 10)) - w))
            * (v / (36 # 10) + (- (2) * (v / (36 # 10)) - w))).
    change ((v / (36 # 10) + w) ^ 2)
      with ((v / (36 # 10) + w) * (v / (36 # 10) + w)).
    ring. }
  rewrite Hsq. reflexivity.
Qed.

(** X15. With the constants of [BasicMotor.__init__], a speed and a
    tick that are not negative, the energy drawn grows with the gradient:
    a steeper road never costs less. *)
Theorem calculate_energy_in_monotone_in_gradient (v g1 g2 w tick : Q) :
  0 <= v -> 0 <= tick -> g1 <= g2 ->
  exists e1 e2,
    Motor.calculate_energy_in Motor.init [v] [g1] [w] tick = Ok [e1] /\
    Motor.calculate_energy_in Motor.init [v] [g2] [w] tick = Ok [e2] /\
    e1 <= e2.
Proof.
  intros Hv Ht Hg. do 2 eexists.
  split; [apply calculate_energy_in_scalar|].
  split; [apply calculate_energy_in_scalar|].
  generalize (Motor.drag_force Motor.init (v / (36 # 10) + w)). intros drag.
  unfold Motor.g_force. simpl.
  unfold Qdiv. apply Qmult_le_compat_r; [|discriminate].
  apply Qmult_le_compat_r; [|exact Ht].
  rewrite !Qmult_1_l.
  assert (Hang : 0 <= v * / (36 # 10) * / (2032 # 10000)).
  { repeat apply Qmult_le_0_compat; try discriminate. exact Hv. }
  rewrite (Qmult_comm _ (_ + _ + 250 * (981 # 100) * g1)).
  rewrite (Qmult_comm _ (_ + _ + 250 * (981 # 100) * g2)).
  apply Qmult_le_compat_r; [|exact Hang].
  apply Qplus_le_compat; [apply Qle_refl|].
  rewrite (Qmult_comm _ g1), (Qmult_comm _ g2).
  apply Qmult_le_compat_r; [exact Hg | discriminate].
Qed.

Lemma calculate_energy_in_monotone_in_gradient_witness :
  exists e1 e2,
    Motor.calculate_energy_in Motor.init [36] [- (1 # 20)] [2] 1 = Ok [e1] /\
    Motor.calculate_energy_in Motor.init [36] [1 # 20] [2] 1 = Ok [e2] /\
    e1 <= e2.
Proof.
  apply (calculate_energy_in_monotone_in_gradient 36 (- (1 # 20)) (1 # 20) 2 1);
    discriminate.
Defined.

(** ** More on a run of the engine *)

Lemma of_bool_mul_cases b x : Np.of_bool b * x == 0 \/ Np.of_bool b * x == x.
Proof.
  destruct b; simpl; [right; apply Qmult_1_l | left; apply Qmult_0_l].
Qed.

Lemma mask_mul_feeds m a out i v :
  Np.mask_mul m a = Ok out -> feeds out i v ->
  exists x, feeds a i x /\ (v == 0 \/ v == x).
Proof.
  intros H Hv. unfold Np.mask_mul, Np.broadcast2 in H.
  destruct (broadcast2_feeds _ _ _ _ _ _ _ H Hv) as (b & x & _ & Hx & ->).
  exists x. split; [exact Hx | apply of_bool_mul_cases].
Qed.

Lemma gate_speed_feeds verbose not_charge soc speed out i v :
  Engine.gate_speed verbose not_charge soc speed = Ok out -> feeds out i v ->
  exists x, feeds speed i x /\ (v == 0 \/ v == x).
Proof.
  unfold Engine.gate_speed. intros H Hv. destruct verbose.
  - bind_inv H. bind_inv H. bind_inv H.
    destruct (mask_mul_feeds _ _ _ _ _ H Hv) as (y & Hy & Hvy).
    destruct (mask_mul_feeds _ _ _ _ _ E0 Hy) as (x & Hx & Hyx).
    exists x. split; [exact Hx|].
    destruct Hvy as [Hv0 | Hvy]; [left; exact Hv0|].
    destruct Hyx as [Hy0 | Hyx];
      [left; rewrite Hvy; exact Hy0 | right; rewrite Hvy; exact Hyx].
  - bind_inv H. apply (mask_mul_feeds _ _ _ _ _ H Hv).
Qed.

(** X16. A run never alters a speed other than by zeroing it: every
    speed of the result is 0 or the requested speed that feeds its
    tick. *)
Theorem reported_speed_is_requested_or_zero {hp : Helpers}
  (self self' : Simulation) (speed : list Q) (verbose : bool)
  (r : SimulationResult) (i : nat) (reported : Q) :
  Engine.run_simulation_calculations self speed verbose = Ok (r, self') ->
  nth_error (arr_speed_kmh r) i = Some reported ->
  exists requested,
    feeds speed i requested /\ (reported == 0 \/ reported == requested).
Proof.
  intros Hrun Hrep.
  apply run_simulation_calculations_trace in Hrun as (t & Hrun & -> & _).
  run_inv Hrun. injection Hrun as <-. simpl in Hrep.
  assert (Hf : feeds v17 i reported) by now left.
  destruct (gate_speed_feeds _ _ _ _ _ _ _ E17 Hf) as (y & Hy & Hvy).
  destruct (mask_mul_feeds _ _ _ _ _ E0 Hy) as (x & Hx & Hyx).
  exists x. split; [exact Hx|].
  destruct Hvy as [Hv0 | Hvy]; [left; exact Hv0|].
  destruct Hyx as [Hy0 | Hyx];
    [left; rewrite Hvy; exact Hy0 | right; rewrite Hvy; exact Hyx].
Qed.

Lemma reported_speed_is_requested_or_zero_witness :
  exists r self' requested,
    Engine.run_simulation_calculations Scenario.engine Scenario.steady false
    = Ok (r, self') /\
    feeds Scenario.steady 3600 requested /\
    (0 == 0 \/ 0 == requested).
Proof.
  destruct steady_run_returns as (r & self' & Hrun & Hv).
  destruct (reported_speed_is_requested_or_zero Scenario.engine self' Scenario.steady
              false r 3600 0 Hrun Hv) as (requested & Hf & Hcases).
  exists r, self', requested. auto.
Defined.

Lemma broadcast2_length_left {A B C : Type} (e : exn) (f : A -> B -> C) l1 l2 out :
  Np.broadcast2_exn e f l1 l2 = Ok out ->
  (1 < length l1)%nat -> length out = length l1.
Proof.
  unfold Np.broadcast2_exn. intros H Hlong.
  destruct (Nat.eqb_spec (length l1) (length l2)) as [Heq | Hne].
  - injection H as <-. now apply zip_with_length.
  - destruct l1 as [|a [|a' t1]]; [simpl in Hlong; lia | simpl in Hlong; lia |].
    destruct l2 as [|b [|b' t2]]; try discriminate.
    injection H as <-. simpl. now rewrite length_map.
Qed.

Lemma broadcast2_length_right {A B C : Type} (e : exn) (f : A -> B -> C) l1 l2 out :
  Np.broadcast2_exn e f l1 l2 = Ok out ->
  (1 < length l2)%nat -> length out = length l2.
Proof.
  unfold Np.broadcast2_exn. intros H Hlong.
  destruct (Nat.eqb_spec (length l1) (length l2)) as [Heq | Hne].
  - injection H as <-. rewrite zip_with_length by exact Heq. exact Heq.
  - destruct l1 as [|a [|a' t1]].
    + destruct l2 as [|b [|b' t2]]; try discriminate; simpl in Hlong; lia.
    + injection H as <-. now rewrite length_map.
    + destruct l2 as [|b [|b' t2]]; try discriminate; simpl in Hlong; lia.
Qed.

Lemma weather_loop_length average ds : forall current out,
  WeatherModel.loop average current ds = Ok out -> length out = length ds.
Proof.
  induction ds as [|d t IH]; intros current out H; simpl in H.
  - now injection H as <-.
  - bind_inv H. bind_inv H. injection H as <-. simpl. f_equal. eapply IH; eassumption.
Qed.

Lemma closest_weather_indices_length {hp : Helpers} self cds out :
  WeatherModel.calculate_closest_weather_indices self cds = Ok out ->
  length out = length cds.
Proof.
  unfold WeatherModel.calculate_closest_weather_indices. intros H.
  bind_inv H. bind_inv H. apply nditer_ok in E0 as [-> _].
  eapply weather_loop_length; eassumption.
Qed.

Lemma roll_length {A : Type} (l : list A) (shift : Z) :
  length (Np.roll l shift) = length l.
Proof.
  unfold Np.roll. destruct l as [|a t]; [reflexivity|].
  rewrite length_app, length_skipn, length_firstn. lia.
Qed.

(** The lookup returns one row per index when there is more than one
    index. *)
Lemma forecast_in_time_length self indices unix_timestamps out :
  WeatherModel.get_weather_forecast_in_time self indices unix_timestamps = Ok out ->
  (1 < length indices)%nat -> length out = length indices.
Proof.
  unfold WeatherModel.get_weather_forecast_in_time. intros H Hlong.
  bind_inv H. bind_inv H. bind_inv H. bind_inv H.
  apply mapM_length in H. apply take_length in E.
  rewrite H. rewrite (broadcast2_length_left _ _ _ _ _ E2);
    rewrite length_seq, E; [reflexivity | exact Hlong].
Qed.

Lemma map_const_repeat {A B : Type} (c : B) (l : list A) :
  map (fun _ => c) l = repeat c (length l).
Proof. induction l as [|a t IH]; simpl; [reflexivity | now rewrite IH]. Qed.

(** X17. The cloud cover of the forecast never reaches the result or
    the irradiance model: every cloud cover a run reports is 0; for a
    speed array of more than one entry there is exactly one per requested
    speed, whatever the forecast says; and [calculate_array_GHI] is called
    with these zeros. *)
Theorem run_ignores_cloud_cover {hp : Helpers}
  (self self' : Simulation) (speed : list Q) (verbose : bool) (r : SimulationResult) :
  Engine.run_simulation_calculations self speed verbose = Ok (r, self') ->
  Forall (fun c => c = 0) (arr_cloud_covers r) /\
  ((1 < length speed)%nat -> arr_cloud_covers r = repeat 0 (length speed)) /\
  exists coords tz lt,
    arr_solar_irradiances r
    = calculate_array_GHI (solar_calculations self) coords tz lt (arr_elevations r)
        (arr_cloud_covers r).
Proof.
  intros Hrun.
  apply run_simulation_calculations_trace in Hrun as (t & Hrun & -> & _).
  run_inv Hrun. injection Hrun as <-. simpl.
  split; [|split].
  - apply Forall_forall. intros c Hc. apply in_map_iff in Hc as (x & Hx & _).
    now symmetry.
  - intros Hlong.
    unfold Np.mask_mul, Np.broadcast2 in E0.
    apply broadcast2_length_right in E0; [|exact Hlong].
    unfold Np.broadcast2 in E1.
    apply broadcast2_length_right in E1; [|rewrite E0; exact Hlong].
    apply closest_weather_indices_length in E3.
    rewrite cumsum_length, length_map, E1, E0 in E3.
    apply forecast_in_time_length in E9; [|rewrite E3; exact Hlong].
    rewrite map_const_repeat, length_map, roll_length, E9, E3. reflexivity.
  - eauto.
Qed.

Lemma run_ignores_cloud_cover_witness :
  exists r self',
    Engine.run_simulation_calculations Scenario.engine Scenario.steady false
    = Ok (r, self') /\
    Forall (fun f => Forall (fun e => cloud_cover e = 40) f)
           (weather_forecast Scenario.forecasts) /\
    Forall (fun c => c = 0) (arr_cloud_covers r) /\
    arr_cloud_covers r = repeat 0 (length Scenario.steady).
Proof.
  destruct steady_run_returns as (r & self' & Hrun & _).
  exists r, self'. split; [exact Hrun|]. split; [repeat constructor|].
  destruct (run_ignores_cloud_cover Scenario.engine self' Scenario.steady false r Hrun)
    as (Hzero & Hlen & _).
  split; [exact Hzero|]. apply Hlen.
  unfold Scenario.steady. rewrite repeat_length. apply Nat.ltb_lt. vm_compute. reflexivity.
Defined.

Lemma broadcast2_shape_error {A B C : Type} (e : exn) (f : A -> B -> C) l1 l2 :
  length l1 <> length l2 -> length l1 <> 1%nat -> length l2 <> 1%nat ->
  Np.broadcast2_exn e f l1 l2 = Raise e.
Proof.
  intros Hne H1 H2. unfold Np.broadcast2_exn.
  destruct (Nat.eqb_spec (length l1) (length l2)); [contradiction|].
  destruct l1 as [|a [|a' t1]]; [| now elim H1 |];
    destruct l2 as [|b [|b' t2]]; try reflexivity; now elim H2.
Qed.

Lemma not_charge_length self :
  length (Engine.not_charge self)
  = (3600 * Z.to_nat (Qceiling (inject_Z (simulation_duration self) / 3600)) + 1)%nat.
Proof.
  unfold Engine.not_charge, Engine.simulation_hours_by_second, Engine.simulation_hours.
  rewrite !length_map, length_app, flat_map_repeat_length, length_map, length_seq.
  simpl length.
  assert (Hq : inject_Z (start_hour self) + inject_Z (simulation_duration self) / 3600
               - inject_Z (start_hour self)
               == inject_Z (simulation_duration self) / 3600) by ring.
  now rewrite (Qceiling_comp _ _ Hq).
Qed.

(** X18. The shapes a run accepts.  The may-drive mask has
    3600 * ceil(duration / 3600) + 1 entries, one per second.  A speed
    array of any other length, unless it or the mask has a single entry,
    makes the run raise [ValueError] at its first operation. *)
Theorem run_rejects_other_shapes {hp : Helpers}
  (self : Simulation) (speed : list Q) (verbose : bool) :
  let seconds :=
    (3600 * Z.to_nat (Qceiling (inject_Z (simulation_duration self) / 3600)) + 1)%nat in
  length speed <> seconds -> length speed <> 1%nat -> seconds <> 1%nat ->
  Engine.run_simulation_calculations self speed verbose = Raise ValueError.
Proof.
  intros seconds Hne H1 Hs1.
  unfold Engine.run_simulation_calculations, Engine.run_trace, Np.logical_and,
    Np.broadcast2.
  rewrite broadcast2_shape_error; [reflexivity | | exact H1 |];
    rewrite not_charge_length; assumption.
Qed.

Lemma run_rejects_other_shapes_witness :
  Engine.run_simulation_calculations Scenario.engine (repeat 36 3600) false
  = Raise ValueError.
Proof.
  apply (run_rejects_other_shapes Scenario.engine (repeat 36 3600) false).
  - vm_compute. discriminate.
  - vm_compute. discriminate.
  - vm_compute. discriminate.
Defined.

Lemma cumsum_from_sorted l : forall acc,
  Forall (fun x => 0 <= x) l ->
  Forall (fun y => acc <= y) (Np.cumsum_from acc l) /\
  Sorted Qle (Np.cumsum_from acc l).
Proof.
  induction l as [|x t IH]; intros acc H; cbn [Np.cumsum_from].
  - split; constructor.
  - apply Forall_cons_iff in H as [Hx Ht].
    assert (Hstep : acc <= Qred (acc + x)) by (rewrite Qred_correct; lra).
    revert Hstep. generalize (Qred (acc + x)). intros acc' Hstep.
    destruct (IH acc' Ht) as [Hall Hs].
    split.
    + constructor; [exact Hstep|].
      eapply Forall_impl; [|exact Hall]. simpl. intros y Hy.
      eapply Qle_trans; eassumption.
    + constructor; [exact Hs|].
      destruct (Np.cumsum_from acc' t) as [|y rest];
        constructor. now apply Forall_cons_iff in Hall as [Hy _].
Qed.

Lemma Sorted_map_monotone (f : Q -> Q) l :
  (forall x y, x <= y -> f x <= f y) ->
  Sorted Qle l -> Sorted Qle (map f l).
Proof.
  intros Hf. induction 1 as [|a l Hs IH Hhd]; simpl; constructor; [exact IH|].
  destruct Hhd; simpl; constructor. now apply Hf.
Qed.

Lemma clip1_monotone lo hi x y : x <= y -> Np.clip1 lo hi x <= Np.clip1 lo hi y.
Proof.
  intros H. unfold Np.clip1.
  apply Q.min_le_compat_r, Q.max_le_compat_r, H.
Qed.

Lemma Forall_by_nth {A : Type} (P : A -> Prop) (l : list A) :
  (forall i a, nth_error l i = Some a -> P a) -> Forall P l.
Proof.
  intros H. apply Forall_forall. intros a Ha.
  apply In_nth_error in Ha as (i & Hi). eauto.
Qed.

Lemma of_bool_nonneg b : 0 <= Np.of_bool b.
Proof. destruct b; discriminate. Qed.

(** X19. When no requested speed is negative and the tick is not
    negative, the cumulative distance a run reports never decreases from
    one tick to the next. *)
Theorem reported_distance_never_decreases {hp : Helpers}
  (self self' : Simulation) (speed : list Q) (verbose : bool) (r : SimulationResult) :
  Forall (fun s => 0 <= s) speed ->
  0 <= tick self ->
  Engine.run_simulation_calculations self speed verbose = Ok (r, self') ->
  Sorted Qle (arr_distances r).
Proof.
  intros Hspeed Htick Hrun.
  apply run_simulation_calculations_trace in Hrun as (t & Hrun & -> & _).
  run_inv Hrun. injection Hrun as <-. simpl.
  unfold Np.clip. apply Sorted_map_monotone; [apply clip1_monotone|].
  unfold Np.cumsum. apply cumsum_from_sorted.
  eapply (broadcast2_Forall _ _ (fun s => 0 <= s) (fun m => 0 <= m)); [| | |exact E20].
  - intros a b Ha Hb. simpl.
    apply Qmult_le_0_compat; [exact Ha|].
    unfold Qdiv. apply Qmult_le_0_compat; [exact Hb | discriminate].
  - apply Forall_by_nth. intros i a Hi.
    assert (Hf : feeds v17 i a) by now left.
    destruct (gate_speed_feeds _ _ _ _ _ _ _ E17 Hf) as (y & Hy & Hay).
    destruct (mask_mul_feeds _ _ _ _ _ E0 Hy) as (x & Hx & Hyx).
    rewrite Forall_forall in Hspeed.
    pose proof (Hspeed x (feeds_In _ _ _ Hx)) as Hx0.
    destruct Hay as [-> | ->]; [discriminate|].
    destruct Hyx as [-> | ->]; [discriminate | exact Hx0].
  - apply Forall_map, Forall_forall. intros b _.
    apply Qmult_le_0_compat; [apply of_bool_nonneg | exact Htick].
Qed.

Lemma reported_distance_never_decreases_witness :
  exists r self',
    Engine.run_simulation_calculations Scenario.engine Scenario.steady false
    = Ok (r, self') /\
    Sorted Qle (arr_distances r).
Proof.
  destruct steady_run_returns as (r & self' & Hrun & _).
  exists r, self'. split; [exact Hrun|].
  apply (reported_distance_never_decreases Scenario.engine self' Scenario.steady
           false r).
  - apply Forall_forall. intros s Hs. apply repeat_spec in Hs. subst s. discriminate.
  - discriminate.
  - exact Hrun.
Defined.

Lemma cumsum_from_last l : forall acc x,
  l <> [] ->
  nth_error (Np.cumsum_from acc l) (length l - 1) = Some x ->
  x == acc + total l.
Proof.
  induction l as [|a t IH]; intros acc x Hne H; [contradiction|].
  destruct t as [|b t'].
  - cbn [Np.cumsum_from length Nat.sub nth_error] in H.
    remember (Qred (acc + a)) as q eqn:Eq. injection H as <-.
    rewrite Eq, Qred_correct. unfold total. cbn [fold_right]. ring.
  - change (Np.cumsum_from acc (a :: b :: t'))
      with (Qred (acc + a) :: Np.cumsum_from (Qred (acc + a)) (b :: t')) in H.
    replace (length (a :: b :: t') - 1)%nat with (S (length (b :: t') - 1)) in H
      by (cbn [length]; lia).
    cbn [nth_error] in H. apply IH in H; [|discriminate].
    rewrite H, Qred_correct. unfold total. cbn [fold_right]. ring.
Qed.

Lemma index_last {A : Type} (l : list A) (x : A) :
  Np.index l (-1) = Ok x -> l <> [] /\ nth_error l (length l - 1) = Some x.
Proof.
  unfold Np.index. intros H.
  destruct (Z.ltb_spec (-1) 0); [|lia].
  destruct ((0 <=? Z.of_nat (length l) + -1) && _)%Z eqn:E; [|discriminate].
  apply andb_true_iff in E as [E1 _]. apply Z.leb_le in E1.
  replace (Z.to_nat (Z.of_nat (length l) + -1)) with (length l - 1)%nat in H by lia.
  destruct (nth_error l (length l - 1)) eqn:En; [|discriminate].
  injection H as <-. split; [|reflexivity]. destruct l; [simpl in E1; lia | discriminate].
Qed.

(** X20. A run returns only on a route of at least two segments (three
    points).  It then stores as route length the sum of the segment
    lengths divided by 1000, and the distance travelled that it reports
    does not exceed that route length. *)
Theorem run_route_length {hp : Helpers}
  (self self' : Simulation) (speed : list Q) (verbose : bool) (r : SimulationResult) :
  Engine.run_simulation_calculations self speed verbose = Ok (r, self') ->
  (2 <= length (path_distances (gis self)))%nat /\
  route_length self' == total (path_distances (gis self)) / 1000 /\
  distance_travelled r <= route_length self'.
Proof.
  intros Hrun.
  apply run_simulation_calculations_trace in Hrun as (t & Hrun & -> & ->).
  run_inv Hrun. injection Hrun as <-. simpl.
  split; [|split].
  - unfold GISModel.calculate_closest_gis_indices in E2.
    apply bind_ok in E2 as (queries & Hiter & Hloop).
    apply nditer_ok in Hiter as [-> Hne].
    pose proof (average_distances_length (path_distances (gis self))) as Hlen.
    destruct (average_distances (path_distances (gis self))) as [|a av].
    + destruct (Np.cumsum _) as [|q qs]; [easy|].
      now rewrite gis_loop_nil_average in Hloop.
    + simpl in Hlen. lia.
  - apply index_last in E4 as [Hne Hnth].
    rewrite cumsum_length in Hnth. unfold Np.cumsum in Hnth.
    apply cumsum_from_last in Hnth.
    + rewrite Hnth. unfold Qdiv. ring.
    + intros Hnil. apply Hne. now rewrite Hnil.
  - match goal with
    | Hd : Np.index (Np.clip _ _ _) (-1) = Ok _ |- _ =>
        apply index_last in Hd as [_ Hnth]
    end.
    apply nth_error_In in Hnth.
    pose proof (clip_upper (Np.cumsum v20) 0 (v4 / 1000)) as Hup.
    rewrite Forall_forall in Hup. now apply Hup.
Qed.

Lemma run_route_length_witness :
  exists r self',
    Engine.run_simulation_calculations Scenario.engine Scenario.steady false
    = Ok (r, self') /\
    (2 <= 3)%nat /\
    route_length self' == total [10; 10; 10] / 1000 /\
    distance_travelled r <= route_length self'.
Proof.
  destruct steady_run_returns as (r & self' & Hrun & _).
  exists r, self'. split; [exact Hrun|].
  apply (run_route_length Scenario.engine self' Scenario.steady false r Hrun).
Defined.

(** ** More on the forecast lookup *)

Lemma index_In {A : Type} (l : list A) (i : Z) (a : A) :
  Np.index l i = Ok a -> In a l.
Proof.
  unfold Np.index. intros H.
  destruct ((0 <=? _) && _)%Z; [|discriminate].
  destruct (nth_error l _) eqn:E; [|discriminate].
  injection H as <-. eapply nth_error_In; eassumption.
Qed.

(** X21. Where all weather points carry the same local forecast times
    (a route within one time zone), the lookup is right: every row
    returned is an entry of the queried point, and no entry of that point
    is nearer in local time to the queried timestamp. *)
Theorem forecast_in_time_nearest_on_one_clock (self : WeatherForecasts)
  (clock : list Q) (indices : list Z) (unix_timestamps : list Q)
  (rows : list forecast) (i : nat) (row : forecast) :
  Forall (fun entries => map dt_local entries = clock) (weather_forecast self) ->
  WeatherModel.get_weather_forecast_in_time self indices unix_timestamps = Ok rows ->
  nth_error rows i = Some row ->
  exists c entries t,
    feeds indices i c /\
    Np.index (weather_forecast self) c = Ok entries /\
    feeds unix_timestamps i t /\
    nearest_in_time entries t row.
Proof.
  intros Hclock Hrows Hrow.
  destruct (forecast_in_time_nearest_on_shared_clock _ _ _ _ _ _ Hrows Hrow)
    as (c0 & first & c & entries & t & _ & Hfirst & Hc & Hentries & Ht & Hnear).
  exists c, entries, t. repeat split; try assumption; apply Hnear;
    rewrite Forall_forall in Hclock;
    rewrite (Hclock entries (index_In _ _ _ Hentries));
    rewrite (Hclock first (index_In _ _ _ Hfirst)); reflexivity.
Qed.

Lemma forecast_in_time_nearest_on_one_clock_witness :
  exists rows row c entries t,
    WeatherModel.get_weather_forecast_in_time Scenario.forecasts [0; 2]%Z
      [-(17000); 60000] = Ok rows /\
    nth_error rows 1 = Some row /\
    feeds [0; 2]%Z 1 c /\
    Np.index (weather_forecast Scenario.forecasts) c = Ok entries /\
    feeds [-(17000); 60000] 1 t /\
    nearest_in_time entries t row.
Proof.
  assert (Hrows : exists rows row,
             WeatherModel.get_weather_forecast_in_time Scenario.forecasts [0; 2]%Z
               [-(17000); 60000] = Ok rows /\ nth_error rows 1 = Some row).
  { do 2 eexists. split; vm_compute; reflexivity. }
  destruct Hrows as (rows & row & Hrows & Hrow).
  assert (Hclock : Forall (fun entries =>
                             map dt_local entries = [0 + -(18000); 86400 + -(18000)])
                          (weather_forecast Scenario.forecasts))
    by (repeat constructor).
  destruct (forecast_in_time_nearest_on_one_clock Scenario.forecasts
              [0 + -(18000); 86400 + -(18000)] [0; 2]%Z [-(17000); 60000] rows 1 row
              Hclock Hrows Hrow)
    as (c & entries & t & H1 & H2 & H3 & H4).
  exists rows, row, c, entries, t.
  split; [exact Hrows|]. split; [exact Hrow|]. split; [exact H1|].
  split; [exact H2|]. split; [exact H3 | exact H4].
Defined.

Lemma zip_with_length_min {A B C : Type} (f : A -> B -> C) l1 : forall l2,
  length (Np.zip_with f l1 l2) = Nat.min (length l1) (length l2).
Proof.
  induction l1 as [|a t IH]; intros [|b t2]; simpl; try reflexivity.
  now rewrite IH.
Qed.

(** X22. The forecast lookup raises [IndexError] when it is given no
    index at all; when it returns for as many timestamps as indices, it
    returns one row per query. *)
Theorem forecast_in_time_shape (self : WeatherForecasts) (indices : list Z)
  (unix_timestamps : list Q) :
  WeatherModel.get_weather_forecast_in_time self [] unix_timestamps = Raise IndexError /\
  (length indices = length unix_timestamps ->
   forall rows,
     WeatherModel.get_weather_forecast_in_time self indices unix_timestamps = Ok rows ->
     length rows = length indices).
Proof.
  split; [reflexivity|].
  intros Hlen rows H. unfold WeatherModel.get_weather_forecast_in_time in H.
  bind_inv H. bind_inv H. cbv zeta in H. bind_inv H. bind_inv H.
  apply mapM_length in H. apply take_length in E. apply mapM_length in E1.
  rewrite H.
  unfold Np.broadcast2_exn in E2. rewrite length_seq, E, E1, Hlen, Nat.eqb_refl in E2.
  injection E2 as <-. rewrite zip_with_length_min, length_seq. lia.
Qed.

Lemma forecast_in_time_shape_witness :
  WeatherModel.get_weather_forecast_in_time Scenario.forecasts [] [0; 5]
  = Raise IndexError /\
  exists rows,
    WeatherModel.get_weather_forecast_in_time Scenario.forecasts [0; 2]%Z
      [-(17000); 60000] = Ok rows /\
    length rows = 2%nat.
Proof.
  destruct (forecast_in_time_shape Scenario.forecasts [0; 2]%Z [-(17000); 60000])
    as [_ Hshape].
  split; [apply (forecast_in_time_shape Scenario.forecasts [] [0; 5])|].
  eexists. split; [vm_compute; reflexivity|].
  apply Hshape; [reflexivity | vm_compute; reflexivity].
Defined.

(** ** Plotting *)

Lemma every_from_length {A : Type} (step : nat) (l : list A) :
  (1 <= step)%nat ->
  length (Py.every_from step 0 l) = ((length l + step - 1) / step)%nat.
Proof.
  intros Hs. apply length_by_nth. intros i.
  rewrite every_from_nth by exact Hs. simpl.
  rewrite <- stride_count by exact Hs.
  split; intros H.
  - apply nth_error_Some. exact H.
  - apply nth_error_Some in H. exact H.
Qed.

Lemma mapM_total {A B : Type} (f : A -> res B) (g : A -> B) (l : list A) :
  (forall a, In a l -> f a = Ok (g a)) -> Np.mapM f l = Ok (map g l).
Proof.
  induction l as [|a t IH]; intros H; simpl.
  - reflexivity.
  - rewrite (H a) by now left. simpl.
    rewrite IH by (intros b Hb; apply H; now right). reflexivity.
Qed.

Lemma map_seq_nth {A B : Type} (g : A -> B) (h : nat -> B) (l : list A) :
  forall start,
  (forall i a, nth_error l i = Some a -> h (start + i)%nat = g a) ->
  map h (seq start (length l)) = map g l.
Proof.
  induction l as [|a t IH]; intros start H; simpl.
  - reflexivity.
  - f_equal.
    + rewrite <- (H 0%nat a eq_refl). f_equal. lia.
    + apply IH. intros i b Hi. rewrite <- (H (S i) b Hi). f_equal. lia.
Qed.

Lemma plot_grid (n : nat) :
  (2 <= n)%nat ->
  let shape := if (n mod 4 =? 0)%nat then ((n / 2)%nat, 2%nat) else (n, 1%nat) in
  Plot.subplots (fst shape) (snd shape) = Ok n /\
  (fst shape * snd shape = n)%nat.
Proof.
  intros Hn. unfold Plot.subplots.
  destruct (Nat.eqb_spec (n mod 4) 0) as [E | E]; cbn [fst snd].
  - pose proof (Nat.div_mod_eq n 4) as Hq.
    assert (Hh : (n / 2 = 2 * (n / 4))%nat).
    { rewrite Hq at 1. rewrite E, Nat.add_0_r.
      replace (4 * (n / 4))%nat with ((2 * (n / 4)) * 2)%nat by lia.
      apply Nat.div_mul. discriminate. }
    assert (Hpos : (n / 2 <> 0)%nat) by lia.
    destruct (Nat.eqb_spec (n / 2) 0) as [E0 | _]; [contradiction|].
    cbn [orb Nat.eqb]. split; [f_equal|]; lia.
  - destruct (Nat.eqb_spec n 0) as [E0 | _]; [lia|].
    cbn [orb Nat.eqb]. split; [f_equal|]; lia.
Qed.

(** X23. With any number of arrays other than one, plotting a run of
    fewer than 5000 timestamps raises [ValueError]: the compression
    step is then zero, and a slice with step zero is refused (no array
    at all is refused by the grid of axes). *)
Theorem plot_graph_short_run {L : Type} (timestamps : list Q)
  (arrays_to_plot : list (list Q)) (array_labels : list L) :
  length arrays_to_plot <> 1%nat ->
  (length timestamps < 5000)%nat ->
  Plot.plot_graph timestamps arrays_to_plot array_labels = Raise ValueError.
Proof.
  intros Hn Hshort. unfold Plot.plot_graph.
  rewrite (Nat.div_small _ _ Hshort).
  destruct arrays_to_plot as [|a [|b t]].
  - reflexivity.
  - now contradiction Hn.
  - destruct (plot_grid (length (a :: b :: t))) as [Hgrid _];
      [simpl; lia|].
    cbv zeta in Hgrid. rewrite Hgrid. reflexivity.
Qed.

Lemma plot_graph_short_run_witness :
  Plot.plot_graph [0; 1; 2] [[5; 6; 7]; [8; 9; 10]] [true; false]
  = Raise ValueError.
Proof.
  apply plot_graph_short_run.
  - simpl. discriminate.
  - simpl. lia.
Defined.

(** X24. With two or more arrays as long as the timestamps, enough
    labels and at least 5000 timestamps, plotting succeeds; the
    caller's list then holds every [c]-th sample of each array, with
    [c = len(timestamps) // 5000], and the figure has one axis per
    array, showing those samples against every [c]-th timestamp in
    hours. *)
Theorem plot_graph_compresses {L : Type} (timestamps : list Q)
  (arrays_to_plot : list (list Q)) (array_labels : list L) :
  (2 <= length arrays_to_plot)%nat ->
  (5000 <= length timestamps)%nat ->
  Forall (fun array => length array = length timestamps) arrays_to_plot ->
  (length arrays_to_plot <= length array_labels)%nat ->
  let c := (length timestamps / 5000)%nat in
  exists fig,
    Plot.plot_graph timestamps arrays_to_plot array_labels
    = Ok (map (Py.every_from c 0) arrays_to_plot, fig) /\
    (fig_rows fig * fig_columns fig = length arrays_to_plot)%nat /\
    fig_series fig
    = map (fun array => (map (fun x => x / 3600) (Py.every_from c 0 timestamps),
                         Py.every_from c 0 array))
          arrays_to_plot.
Proof.
  intros Hn Hlong Hlen Hlab c.
  assert (Hc : (1 <= c)%nat).
  { unfold c. apply Nat.div_le_lower_bound; lia. }
  assert (Hslice : forall a : list Q,
             Py.slice_step a (Z.of_nat c) = Ok (Py.every_from c 0 a)).
  { intros a. unfold Py.slice_step.
    destruct (Z.eqb_spec (Z.of_nat c) 0); [lia|].
    destruct (Z.ltb_spec 0 (Z.of_nat c)); [|lia].
    now rewrite Nat2Z.id. }
  destruct (plot_grid (length arrays_to_plot) Hn) as [Hgrid Hcells].
  cbv zeta in Hgrid, Hcells.
  set (frame := fun array : list Q =>
                  (map (fun x => x / 3600) (Py.every_from c 0 timestamps),
                   Py.every_from c 0 array)).
  set (shape := if (length arrays_to_plot mod 4 =? 0)%nat
                then ((length arrays_to_plot / 2)%nat, 2%nat)
                else (length arrays_to_plot, 1%nat)) in *.
  exists {| fig_rows := fst shape; fig_columns := snd shape;
            fig_series := map frame arrays_to_plot |}.
  split; [|split; [exact Hcells | reflexivity]].
  unfold Plot.plot_graph. fold c. fold shape.
  destruct arrays_to_plot as [|a [|b t]]; [simpl in Hn; lia | simpl in Hn; lia |].
  remember (a :: b :: t) as arrays eqn:Earr.
  rewrite Hgrid. cbn [bind].
  rewrite (mapM_total _ (Py.every_from c 0) arrays) by (intros x _; apply Hslice).
  cbn [bind].
  rewrite (mapM_total _ (fun index => frame (nth index arrays []))).
  - cbn [bind]. do 2 f_equal. f_equal.
    apply (map_seq_nth frame (fun index => frame (nth index arrays [])) arrays 0).
    intros i x Hi. simpl. f_equal. now apply nth_error_nth.
  - intros index Hin. apply in_seq in Hin.
    rewrite Hslice. cbn [bind].
    assert (Hidx : nth_error (map (Py.every_from c 0) arrays) index
                   = Some (Py.every_from c 0 (nth index arrays []))).
    { rewrite nth_error_map.
      rewrite (nth_error_nth' arrays []) by lia. reflexivity. }
    rewrite (index_at (map (Py.every_from c 0) arrays) (Z.of_nat index)
               (Py.every_from c 0 (nth index arrays [])));
      [|lia | now rewrite Nat2Z.id].
    cbn [bind]. unfold Plot.data_frame.
    rewrite length_map, !every_from_length by exact Hc.
    assert (Hx : length (nth index arrays []) = length timestamps).
    { rewrite Forall_forall in Hlen. apply Hlen. apply nth_In. lia. }
    rewrite Hx, Nat.eqb_refl. cbn [bind].
    destruct (index_in_range array_labels (Z.of_nat index)) as [lab Hl].
    { unfold last_index. lia. }
    rewrite Hl. reflexivity.
Qed.

Lemma plot_graph_compresses_witness :
  exists fig,
    Plot.plot_graph (repeat 0 10000) [repeat 1 10000; repeat 2 10000] [true; false]
    = Ok (map (Py.every_from (length (repeat 0 10000) / 5000) 0)
              [repeat 1 10000; repeat 2 10000], fig) /\
    (fig_rows fig * fig_columns fig = 2)%nat /\
    fig_series fig
    = map (fun array =>
             (map (fun x => x / 3600)
                  (Py.every_from (length (repeat 0 10000) / 5000) 0 (repeat 0 10000)),
              Py.every_from (length (repeat 0 10000) / 5000) 0 array))
          [repeat 1 10000; repeat 2 10000].
Proof.
  apply (plot_graph_compresses (repeat 0 10000)
           [repeat 1 10000; repeat 2 10000] [true; false]).
  - apply le_n.
  - rewrite repeat_length. apply Nat.leb_le. vm_compute. reflexivity.
  - repeat constructor; rewrite !repeat_length; reflexivity.
  - apply le_n.
Defined.

(** ** Elevations of a path *)

Lemma append_length (a b : String.string) :
  String.length (String.append a b) = (String.length a + String.length b)%nat.
Proof. induction a as [|c a IH]; simpl; [reflexivity | now rewrite IH]. Qed.

Lemma append_assoc (a b c : String.string) :
  String.append (String.append a b) c = String.append a (String.append b c).
Proof. induction a as [|x a IH]; simpl; [reflexivity | now rewrite IH]. Qed.

Lemma append_empty_r (a : String.string) :
  String.append a String.EmptyString = a.
Proof. induction a as [|x a IH]; simpl; [reflexivity | now rewrite IH]. Qed.

Lemma drop_last_append (a : String.string) (c : Ascii.ascii) :
  Elevation.drop_last (String.append a (String.String c String.EmptyString)) = a.
Proof.
  unfold Elevation.drop_last. rewrite append_length. simpl.
  replace (String.length a + 1 - 1)%nat with (String.length a) by lia.
  induction a as [|x a IH]; simpl; [reflexivity | now rewrite IH].
Qed.

Lemma location_ends_with_bar {es : ElevationService} (c : coord) :
  exists body, Elevation.location c
               = String.append body Elevation.bar.
Proof.
  unfold Elevation.location, Elevation.bar.
  eexists. rewrite <- !append_assoc. reflexivity.
Qed.

Lemma with_bars_app (l1 l2 : list String.string) :
  Elevation.with_bars (l1 ++ l2)
  = String.append (Elevation.with_bars l1) (Elevation.with_bars l2).
Proof.
  unfold Elevation.with_bars. induction l1 as [|x l1 IH]; simpl.
  - reflexivity.
  - rewrite IH. now rewrite !append_assoc.
Qed.

(** What the loop over the coordinates keeps: nothing is lost between
    the closed batches and the open one, and the open one is empty or
    ends with a bar. *)
Lemma batch_locations_spec {es : ElevationService} (coords : list coord) :
  forall locations location_strings ls' loc',
  Elevation.batch_locations coords locations location_strings = (ls', loc') ->
  (locations = String.EmptyString \/
   exists body, locations
                = String.append body Elevation.bar) ->
  String.append (Elevation.with_bars ls') loc'
  = String.append (Elevation.with_bars location_strings)
      (String.append locations (Elevation.all_locations coords)) /\
  (loc' = String.EmptyString \/
   exists body, loc' = String.append body Elevation.bar) /\
  (location_strings <> [] \/ locations <> String.EmptyString \/ coords <> [] ->
   ls' <> [] \/ loc' <> String.EmptyString).
Proof.
  induction coords as [|c rest IH]; intros locations location_strings ls' loc' H Hbar.
  - simpl in H. injection H as <- <-. unfold Elevation.all_locations. simpl.
    rewrite append_empty_r. split; [reflexivity|]. split; [exact Hbar|].
    intros [Hl | [Hl | Hl]]; [now left | now right | now contradiction Hl].
  - cbn [Elevation.batch_locations] in H. cbv zeta in H.
    destruct (location_ends_with_bar c) as [body Hbody].
    assert (Hopen : exists body',
               String.append locations (Elevation.location c)
               = String.append body' Elevation.bar).
    { exists (String.append locations body). rewrite Hbody. now rewrite append_assoc. }
    destruct Hopen as [body' Hopen].
    unfold Elevation.all_locations. cbn [map fold_right].
    fold (Elevation.all_locations rest).
    destruct (8000 <? String.length (String.append locations (Elevation.location c)))%nat.
    + apply IH in H; [|now left].
      destruct H as (Hkeep & Hend & Hsome).
      split; [|split; [exact Hend|]].
      * rewrite Hkeep. rewrite with_bars_app.
        unfold Elevation.with_bars at 2. cbn [map fold_right].
        rewrite Hopen. unfold Elevation.bar at 1.
        rewrite drop_last_append, append_empty_r.
        rewrite <- (append_assoc locations (Elevation.location c)), Hopen.
        unfold Elevation.bar. rewrite !append_assoc. reflexivity.
      * intros _. apply Hsome. left. now destruct location_strings.
    + apply IH in H; [|right; now exists body'].
      destruct H as (Hkeep & Hend & Hsome).
      split; [|split; [exact Hend|]].
      * rewrite Hkeep. now rewrite !append_assoc.
      * intros _. apply Hsome. right. left. rewrite Hopen.
        now destruct body'.
Qed.

Lemma location_strings_nonempty {es : ElevationService} (coords : list coord) :
  coords <> [] -> Elevation.location_strings coords <> [].
Proof.
  intros Hc. unfold Elevation.location_strings.
  destruct (Elevation.batch_locations coords String.EmptyString [])
    as [ls loc] eqn:E.
  destruct (batch_locations_spec coords _ _ _ _ E) as (_ & _ & Hsome); [now left|].
  destruct Hsome as [Hl | Hl]; [now right; right | |].
  - destruct (String.length loc =? 0)%nat; [exact Hl | now destruct ls].
  - destruct loc as [|x loc]; [now contradiction Hl|]. simpl. now destruct ls.
Qed.

(** X25. Batching loses nothing: the location strings, each followed by
    the bar it was stripped of, spell out every coordinate of the path
    in order. *)
Theorem location_strings_keep_every_coordinate {es : ElevationService}
  (coords : list coord) :
  Elevation.with_bars (Elevation.location_strings coords)
  = Elevation.all_locations coords.
Proof.
  unfold Elevation.location_strings.
  destruct (Elevation.batch_locations coords String.EmptyString [])
    as [ls loc] eqn:E.
  destruct (batch_locations_spec coords _ _ _ _ E) as (Hkeep & Hend & _);
    [now left|].
  unfold Elevation.with_bars at 2 in Hkeep. simpl in Hkeep.
  destruct Hend as [-> | [body ->]].
  - simpl. now rewrite append_empty_r in Hkeep.
  - rewrite append_length. simpl.
    replace (String.length body + 1 =? 0)%nat with false
      by (symmetry; apply Nat.eqb_neq; lia).
    rewrite with_bars_app. unfold Elevation.with_bars at 2. cbn [map fold_right].
    unfold Elevation.bar at 1.
    rewrite drop_last_append, append_empty_r. exact Hkeep.
Qed.

Lemma request_all_last {es : ElevationService} (urls : list String.string) :
  forall response,
  Elevation.request_all urls response
  = match urls with
    | [] => response
    | _ => Some (get (last urls String.EmptyString))
    end.
Proof.
  induction urls as [|u rest IH]; intros response; [reflexivity|].
  cbn [Elevation.request_all]. rewrite IH.
  destruct rest; reflexivity.
Qed.

Lemma set_item_spec (elevations : list Q) : forall i e,
  Elevation.set_item elevations i e
  = if (i <? length elevations)%nat
    then Ok (firstn i elevations ++ e :: skipn (S i) elevations)
    else Raise IndexError.
Proof.
  induction elevations as [|x t IH]; intros i e.
  - now destruct i.
  - destruct i as [|i]; [reflexivity|].
    cbn [Elevation.set_item]. rewrite IH.
    change (S i <? length (x :: t))%nat with (i <? length t)%nat.
    destruct (i <? length t)%nat; reflexivity.
Qed.

Lemma firstn_skipn_middle {A : Type} (a b : list A) (e : A) (k : nat) :
  firstn (S (length a)) (a ++ e :: b) = a ++ [e] /\
  skipn (S (length a) + k) (a ++ e :: b) = skipn k b.
Proof.
  induction a as [|x a [IH1 IH2]]; [split; reflexivity|].
  split.
  - cbn [length app]. rewrite firstn_cons. f_equal. exact IH1.
  - exact IH2.
Qed.

Lemma store_spec (results : list Q) : forall elevations i,
  (i <= length elevations)%nat ->
  Elevation.store elevations i results
  = if (i + length results <=? length elevations)%nat
    then Ok (firstn i elevations ++ results
             ++ skipn (i + length results) elevations)
    else Raise IndexError.
Proof.
  induction results as [|e rest IH]; intros elevations i Hi.
  - simpl. destruct (Nat.leb_spec (i + 0) (length elevations)); [|lia].
    rewrite Nat.add_0_r. now rewrite firstn_skipn.
  - cbn [Elevation.store]. rewrite set_item_spec. cbn [length].
    destruct (Nat.ltb_spec i (length elevations)) as [Hlt | Hge].
    + cbn [bind].
      assert (Hlen : length (firstn i elevations ++ e :: skipn (S i) elevations)
                     = length elevations).
      { rewrite length_app, length_firstn. cbn [length]. rewrite length_skipn. lia. }
      rewrite IH by lia. rewrite Hlen.
      destruct (Nat.leb_spec (S i + length rest) (length elevations));
        destruct (Nat.leb_spec (i + S (length rest)) (length elevations));
        try lia; [|reflexivity].
      f_equal.
      destruct (firstn_skipn_middle (firstn i elevations) (skipn (S i) elevations)
                  e (length rest)) as [Hf Hs].
      rewrite length_firstn, Nat.min_l in Hf, Hs by lia.
      rewrite Hf, Hs, skipn_skipn, <- app_assoc. cbn [app].
      replace (length rest + S i)%nat with (i + S (length rest))%nat by lia.
      reflexivity.
    + cbn [bind].
      destruct (Nat.leb_spec (i + S (length rest)) (length elevations));
        [lia | reflexivity].
Qed.

Lemma skipn_repeat_same {A : Type} (x : A) (n : nat) : forall k,
  skipn k (repeat x n) = repeat x (n - k).
Proof.
  induction n as [|n IH]; intros k.
  - now destruct k.
  - destruct k as [|k]; [reflexivity|]. simpl. apply IH.
Qed.

(** X26. The call fails on an unbound [response] exactly for an empty
    list of coordinates: nothing is requested then, and the status of
    a response that was never bound is read. *)
Theorem calculate_path_elevations_unbound {es : ElevationService}
  (api_key : String.string) (coords : list coord) :
  Elevation.calculate_path_elevations api_key coords = Fails UnboundLocalError
  <-> coords = [].
Proof.
  split.
  - intros H. destruct coords as [|c rest]; [reflexivity|]. exfalso.
    unfold Elevation.calculate_path_elevations in H.
    rewrite request_all_last in H.
    pose proof (location_strings_nonempty (c :: rest)) as Hne.
    unfold Elevation.request_urls in H.
    destruct (Elevation.location_strings (c :: rest)) as [|l ls];
      [now apply Hne|].
    cbn [map] in H.
    match type of H with
    | (if ?b then _ else _) = _ => destruct b; [|discriminate]
    end.
    match type of H with
    | match ?s with Ok _ => _ | Raise _ => _ end = _ => destruct s; discriminate
    end.
  - intros ->. reflexivity.
Qed.

(** X27. For a path that is not empty, only the answer to the last
    request counts, however many requests were made: with status OK its
    elevations are written from position 0 on and the rest stays 0
    ([IndexError] when it has more results than the path has
    coordinates); with any other status all elevations are 0. *)
Theorem calculate_path_elevations_last_response {es : ElevationService}
  (api_key : String.string) (coords : list coord) :
  coords <> [] ->
  let response :=
    get (last (Elevation.request_urls api_key coords) String.EmptyString) in
  Elevation.calculate_path_elevations api_key coords
  = if String.eqb (status response) Elevation.status_ok
    then if (length (results response) <=? length coords)%nat
         then Returns (results response
                       ++ repeat 0 (length coords - length (results response)))
         else Fails (Builtin IndexError)
    else Returns (repeat 0 (length coords)).
Proof.
  intros Hc response.
  unfold Elevation.calculate_path_elevations.
  rewrite request_all_last.
  pose proof (location_strings_nonempty coords Hc) as Hne.
  assert (Hurls : Elevation.request_urls api_key coords <> []).
  { unfold Elevation.request_urls.
    destruct (Elevation.location_strings coords); [now contradiction Hne | discriminate]. }
  destruct (Elevation.request_urls api_key coords) as [|u urls] eqn:E;
    [now contradiction Hurls|].
  fold response. unfold Elevation.status_ok.
  match goal with
  | |- (if ?b then _ else _) = _ => destruct b; [|reflexivity]
  end.
  rewrite store_spec by lia. rewrite repeat_length. cbn [Nat.add firstn app].
  destruct (length (results response) <=? length coords)%nat eqn:El; [|reflexivity].
  do 2 f_equal. apply Nat.leb_le in El.
  rewrite skipn_repeat_same. reflexivity.
Qed.

Lemma calculate_path_elevations_last_response_witness :
  Elevation.calculate_path_elevations ElevationScenario.key ElevationScenario.coords
  = Returns [70; 71; 0].
Proof.
  exact (calculate_path_elevations_last_response
           ElevationScenario.key ElevationScenario.coords
           ltac:(discriminate)).
Defined.
